(** * yaml-grep / yaml-show: path codec, resolver, highlighter and search

    A shallow embedding of [src/yaml-grep.py] and [src/yaml-show.py].

    Python values are modelled as follows.
    - A [str] is a [string]; one [ascii] stands for one code point below 256.
    - An [int] is a [Z]; a position in a string or a list is a [nat].
    - A [dict] is an association list in insertion order; its keys are
      strings, integers or booleans, and a well-formed document has no key
      twice in one mapping ([wf_tree]).
    - [sys.exit(msg)] is the [Exit] result, carrying every value that the
      message interpolates.
    - A compiled [re.Pattern] is the pair of its [search] and [finditer]
      behaviours. *)

From Stdlib Require Import Bool List Arith ZArith Lia Ascii String.
From Stdlib Require Import Sorting.Sorted Sorting.Permutation.
Import ListNotations.
Open Scope list_scope.
Open Scope string_scope.

(** ** The Python builtins the two programs call *)

Module Py.

(** [old in s] at the front: [s.startswith(old)]. *)
Definition startswith (s old : string) : bool := String.prefix old s.

(** [s.replace(old, new)] for a non-empty [old]: occurrences are taken
    left to right and do not overlap.  [skip] counts the characters of an
    occurrence that are still to be passed over. *)
Fixpoint replace_from (old new : string) (skip : nat) (s : string) : string :=
  match s with
  | EmptyString => EmptyString
  | String c s' =>
      match skip with
      | S k => replace_from old new k s'
      | O =>
          if String.prefix old s
          then new ++ replace_from old new (pred (String.length old)) s'
          else String c (replace_from old new 0 s')
      end
  end.

Definition replace (old new s : string) : string := replace_from old new 0 s.

(** [s.split(sep)] for a one-character separator: always at least one
    piece, empty pieces kept. *)
Fixpoint split (sep : ascii) (s : string) : list string :=
  match s with
  | EmptyString => [EmptyString]
  | String c s' =>
      if Ascii.eqb c sep then EmptyString :: split sep s'
      else match split sep s' with
           | piece :: pieces => String c piece :: pieces
           | [] => [String c EmptyString]
           end
  end.

(** [sep.join(parts)]. *)
Definition join (sep : string) (parts : list string) : string :=
  String.concat sep parts.

(** [s[1:]]. *)
Definition tail (s : string) : string :=
  match s with
  | EmptyString => EmptyString
  | String _ s' => s'
  end.

(** [s[a:]] and [s[a:b]] for non-negative bounds; bounds past the end
    are clamped, and [a > b] gives the empty string. *)
Fixpoint drop (a : nat) (s : string) : string :=
  match a, s with
  | O, _ => s
  | S a', String _ s' => drop a' s'
  | S _, EmptyString => EmptyString
  end.

Fixpoint take (n : nat) (s : string) : string :=
  match n, s with
  | S n', String c s' => String c (take n' s')
  | _, _ => EmptyString
  end.

Definition slice (a b : nat) (s : string) : string := take (b - a) (drop a s).

(** [s.rstrip(chars)] for a one-character set. *)
Fixpoint rstrip_char (ch : ascii) (s : string) : string :=
  match s with
  | EmptyString => EmptyString
  | String c s' =>
      match rstrip_char ch s' with
      | EmptyString => if Ascii.eqb c ch then EmptyString else String c EmptyString
      | r => String c r
      end
  end.

(** White space as [int()] sees it, for code points below 256: tab to
    carriage return, space, next line and no-break space. *)
Definition is_space (c : ascii) : bool :=
  let n := nat_of_ascii c in
  (((9 <=? n) && (n <=? 13)) || (n =? 32) || (n =? 133) || (n =? 160))%nat.

Fixpoint lstrip (s : string) : string :=
  match s with
  | EmptyString => EmptyString
  | String c s' => if is_space c then lstrip s' else s
  end.

Fixpoint rstrip (s : string) : string :=
  match s with
  | EmptyString => EmptyString
  | String c s' =>
      match rstrip s' with
      | EmptyString => if is_space c then EmptyString else String c EmptyString
      | r => String c r
      end
  end.

Definition strip (s : string) : string := rstrip (lstrip s).

Definition is_digit (c : ascii) : bool :=
  let n := nat_of_ascii c in ((48 <=? n) && (n <=? 57))%nat.

Definition digit_val (c : ascii) : Z := Z.of_nat (nat_of_ascii c - 48).

(** The digit part of an integer literal: decimal digits, with single
    underscores allowed between two digits. *)
Fixpoint parse_digits (acc : Z) (after_digit : bool) (s : string) : option Z :=
  match s with
  | EmptyString => if after_digit then Some acc else None
  | String c s' =>
      if is_digit c then parse_digits (acc * 10 + digit_val c) true s'
      else if Ascii.eqb c "_" && after_digit then parse_digits acc false s'
      else None
  end.

(** [int(s)]: [None] stands for [ValueError].  Surrounding white space is
    dropped, then an optional sign, then the digits.  The bound that recent
    interpreters put on the number of digits is left out. *)
Definition int (s : string) : option Z :=
  match strip s with
  | EmptyString => None
  | String c r =>
      if Ascii.eqb c "+" then parse_digits 0 false r
      else if Ascii.eqb c "-" then option_map Z.opp (parse_digits 0 false r)
      else parse_digits 0 false (String c r)
  end.

Definition digit_char (d : Z) : ascii := ascii_of_nat (48 + Z.to_nat d).

Fixpoint str_digits (fuel : nat) (n : Z) (acc : string) : string :=
  match fuel with
  | O => acc
  | S fuel' =>
      let acc' := String (digit_char (n mod 10)) acc in
      if (n <? 10)%Z then acc' else str_digits fuel' (n / 10) acc'
  end.

(** [str(n)], which is also [json.dumps(n)], for an integer. *)
Definition str (n : Z) : string :=
  if (n <? 0)%Z then String "-" (str_digits (S (Z.to_nat (Z.log2 (- n)))) (- n) EmptyString)
  else str_digits (S (Z.to_nat (Z.log2 n))) n EmptyString.

Definition hex_char (d : nat) : ascii :=
  if (d <? 10)%nat then ascii_of_nat (48 + d) else ascii_of_nat (87 + d).

(** One character of [json.dumps(s)] for a string, [ensure_ascii] on. *)
Definition json_escape_char (c : ascii) : string :=
  let n := nat_of_ascii c in
  if (n =? 34)%nat then String "\" (String c EmptyString)
  else if (n =? 92)%nat then String "\" (String "\" EmptyString)
  else if (n =? 10)%nat then String "\" "n"
  else if (n =? 13)%nat then String "\" "r"
  else if (n =? 9)%nat then String "\" "t"
  else if (n =? 12)%nat then String "\" "f"
  else if (n =? 8)%nat then String "\" "b"
  else if ((32 <=? n) && (n <=? 126))%nat then String c EmptyString
  else String "\" (String "u" (String "0" (String "0"
         (String (hex_char (n / 16)%nat) (String (hex_char (n mod 16)%nat) EmptyString))))).

Fixpoint json_escape (s : string) : string :=
  match s with
  | EmptyString => EmptyString
  | String c s' => json_escape_char c ++ json_escape s'
  end.

Definition json_dumps_str (s : string) : string :=
  String "034" (json_escape s ++ String "034" EmptyString).

End Py.

(** ** The document tree *)

Set Warnings "-register-all".

(** A scalar as the parsers deliver it.  No arithmetic is ever done on a
    float: it is carried as the text [json.dumps] gives for it. *)
Inductive scalar : Type :=
| SStr (s : string)
| SInt (z : Z)
| SFloat (repr : string)
| SBool (b : bool)
| SNone.

(** A mapping key: a [str], or an [int] or [bool] as a YAML document may
    have them ([1: x] loads as a dict with the key 1, not the key "1").
    On a key of any other type (a null, a float, a timestamp) both path
    printers raise, [to_path_pointer] in [token.replace] and [to_path_dot]
    in [re.fullmatch]; such keys are not part of the embedding. *)
Inductive key : Type :=
| KStr (s : string)
| KInt (z : Z)
| KBool (b : bool).

Inductive tree : Type :=
| Scalar (x : scalar)
| Sequence (items : list tree)
| Mapping (entries : list (key * tree)).

(** A path token: a mapping key or a sequence index. *)
Inductive token : Type :=
| TKey (k : key)
| TIdx (i : nat).

(** The key as a value, for [stringify]. *)
Definition key_scalar (k : key) : scalar :=
  match k with
  | KStr s => SStr s
  | KInt z => SInt z
  | KBool b => SBool b
  end.

(** [a == b] on keys: a string equals no number, and [True] and [False]
    equal 1 and 0. *)
Definition key_eqb (a b : key) : bool :=
  match a, b with
  | KStr s, KStr s' => String.eqb s s'
  | KStr _, _ | _, KStr _ => false
  | KInt z, KInt z' => Z.eqb z z'
  | KInt z, KBool b' => Z.eqb z (if b' then 1 else 0)
  | KBool b, KInt z' => Z.eqb (if b then 1 else 0) z'
  | KBool b, KBool b' => Bool.eqb b b'
  end.

(** [type(x).__name__]. *)
Definition type_name (t : tree) : string :=
  match t with
  | Scalar (SStr _) => "str"
  | Scalar (SInt _) => "int"
  | Scalar (SFloat _) => "float"
  | Scalar (SBool _) => "bool"
  | Scalar SNone => "NoneType"
  | Sequence _ => "list"
  | Mapping _ => "dict"
  end.

Definition keys (m : list (key * tree)) : list key := map fst m.

(** [tok in cur] and [cur[tok]] on a dict, for a string [tok]. *)
Fixpoint lookup (k : string) (m : list (key * tree)) : option tree :=
  match m with
  | [] => None
  | (k', v) :: m' => if key_eqb (KStr k) k' then Some v else lookup k m'
  end.

Fixpoint distinct (l : list key) : bool :=
  match l with
  | [] => true
  | k :: l' => negb (existsb (key_eqb k) l') && distinct l'
  end.

(** No mapping of the tree holds a key twice, as in every Python dict. *)
Fixpoint wf_tree (t : tree) : bool :=
  match t with
  | Scalar _ => true
  | Sequence l => forallb wf_tree l
  | Mapping m =>
      distinct (keys m)
      && (fix wf_entries (m : list (key * tree)) : bool :=
            match m with
            | [] => true
            | (_, v) :: m' => wf_tree v && wf_entries m'
            end) m
  end.

(** [at_path t p n]: the traversal of [search] reaches node [n] of [t] with
    the token list [p] ([tokens + [k]] under a mapping entry,
    [tokens + [idx]] under a sequence element). *)
Inductive at_path : tree -> list token -> tree -> Prop :=
| at_root t : at_path t [] t
| at_key m k v p n :
    In (k, v) m -> at_path v p n -> at_path (Mapping m) (TKey k :: p) n
| at_idx l i v p n :
    nth_error l i = Some v -> at_path v p n -> at_path (Sequence l) (TIdx i :: p) n.

(** ** Results of a command that may call [sys.exit] *)

Inductive exit_error : Type :=
| PathMustStartWithSlash (ptr : string)
| NotAnIndex (path_so_far tok : string)
| IndexOutOfRange (path_so_far : string) (idx : Z) (len : nat)
| KeyNotFound (path_so_far tok : string) (sample : list key) (more : bool)
| CannotDescend (path_so_far : string) (kind : string).

Inductive result (A : Type) : Type :=
| Ok (a : A)
| Exit (e : exit_error).
Arguments Ok {A} a.
Arguments Exit {A} e.

Definition bind {A B : Type} (r : result A) (f : A -> result B) : result B :=
  match r with
  | Ok a => f a
  | Exit e => Exit e
  end.

(** ** Path codec *)

(** yaml-grep.py, [json_pointer_escape]. *)
Definition json_pointer_escape (token : string) : string :=
  Py.replace "/" "~1" (Py.replace "~" "~0" token).

Definition pointer_part (t : token) : string :=
  match t with
  | TIdx i => Py.str (Z.of_nat i)
  | TKey (KStr s) => json_pointer_escape s
  | TKey (KInt z) => Py.str z
  | TKey (KBool b) => if b then "True" else "False"
  end.

(** yaml-grep.py, [to_path_pointer]. *)
Definition to_path_pointer (tokens : list token) : string :=
  "/" ++ Py.join "/" (map pointer_part tokens).

Definition is_ident_start (c : ascii) : bool :=
  let n := nat_of_ascii c in
  (((65 <=? n) && (n <=? 90)) || ((97 <=? n) && (n <=? 122)) || (n =? 95))%nat.

Definition is_ident_char (c : ascii) : bool := is_ident_start c || Py.is_digit c.

Fixpoint all_chars (p : ascii -> bool) (s : string) : bool :=
  match s with
  | EmptyString => true
  | String c s' => p c && all_chars p s'
  end.

(** [re.fullmatch(r"[A-Za-z_][A-Za-z0-9_]*", t)]. *)
Definition is_identifier (t : string) : bool :=
  match t with
  | EmptyString => false
  | String c s' => is_ident_start c && all_chars is_ident_char s'
  end.

(** yaml-grep.py, [to_path_dot]. *)
Fixpoint to_path_dot_from (out : string) (tokens : list token) : string :=
  match tokens with
  | [] => out
  | TIdx i :: rest => to_path_dot_from (out ++ "[" ++ Py.str (Z.of_nat i) ++ "]") rest
  | TKey (KInt z) :: rest => to_path_dot_from (out ++ "[" ++ Py.str z ++ "]") rest
  | TKey (KBool b) :: rest =>
      to_path_dot_from (out ++ "[" ++ (if b then "True" else "False") ++ "]") rest
  | TKey (KStr t) :: rest =>
      if is_identifier t then to_path_dot_from (out ++ "." ++ t) rest
      else to_path_dot_from (out ++ "[" ++ Py.json_dumps_str t ++ "]") rest
  end.

Definition to_path_dot (tokens : list token) : string :=
  to_path_dot_from "root" tokens.

(** yaml-show.py, [unescape_token]. *)
Definition unescape_token (tok : string) : string :=
  Py.replace "~0" "~" (Py.replace "~1" "/" tok).

Definition nonempty (s : string) : bool :=
  match s with
  | EmptyString => false
  | String _ _ => true
  end.

(** yaml-show.py, [parse_pointer]. *)
Definition parse_pointer (ptr : string) : result (list string) :=
  if String.eqb ptr "" || String.eqb ptr "/" then Ok []
  else if negb (Py.startswith ptr "/") then Exit (PathMustStartWithSlash ptr)
  else
    let raw := Py.tail ptr in
    let parts := filter nonempty (Py.split "/" raw) in
    Ok (map unescape_token parts).

(** ** Resolver *)

(** ["/" + "/".join(tokens[:depth-1])], then [path_so_far or '/']. *)
Definition path_so_far (tokens : list string) (depth : nat) : string :=
  let p := "/" ++ Py.join "/" (firstn (depth - 1) tokens) in
  if nonempty p then p else "/".

(** The loop of [resolve]: [rest] are the tokens still to be consumed,
    [depth] the 1-based position of the first of them in [tokens]. *)
Fixpoint resolve_loop (tokens : list string) (depth : nat) (cur : tree)
    (rest : list string) : result tree :=
  match rest with
  | [] => Ok cur
  | tok :: rest' =>
      match cur with
      | Sequence l =>
          match Py.int tok with
          | None => Exit (NotAnIndex (path_so_far tokens depth) tok)
          | Some idx =>
              if ((idx <? 0) || (idx >=? Z.of_nat (List.length l)))%Z
              then Exit (IndexOutOfRange (path_so_far tokens depth) idx (List.length l))
              else
                match nth_error l (Z.to_nat idx) with
                | Some v => resolve_loop tokens (S depth) v rest'
                | None => (* not reached: the index is in range *)
                    Exit (IndexOutOfRange (path_so_far tokens depth) idx (List.length l))
                end
          end
      | Mapping m =>
          match lookup tok m with
          | None =>
              Exit (KeyNotFound (path_so_far tokens depth) tok
                      (firstn 10 (keys m)) (10 <? List.length (keys m))%nat)
          | Some v => resolve_loop tokens (S depth) v rest'
          end
      | Scalar _ => Exit (CannotDescend (path_so_far tokens depth) (type_name cur))
      end
  end.

(** yaml-show.py, [resolve]. *)
Definition resolve (obj : tree) (tokens : list string) : result tree :=
  resolve_loop tokens 1 obj tokens.

(** yaml-show.py, [main] up to the node handed to [dump]: the pointer is
    parsed before the document is read. *)
Definition show (path : string) (data : tree) : result tree :=
  bind (parse_pointer (Py.rstrip_char "/" path)) (fun tokens => resolve data tokens).

(** ** Compiled patterns *)

(** A compiled [re.Pattern], as far as the programs use it: [rx.search(s)]
    as a truth value, and the [(m.start(), m.end())] of [rx.finditer(s)]. *)
Record pattern : Type := {
  rx_search : string -> bool;
  rx_finditer : string -> list (nat * nat)
}.

(** The matches of a pattern text without metacharacters: the occurrences
    of [p], left to right and not overlapping; the empty text matches at
    every position. *)
Fixpoint find_all (p : string) (skip pos : nat) (s : string) : list (nat * nat) :=
  match s with
  | EmptyString =>
      match skip, p with
      | O, EmptyString => [(pos, pos)]
      | _, _ => []
      end
  | String _ s' =>
      match skip with
      | S k => find_all p k (S pos) s'
      | O =>
          if String.prefix p s
          then (pos, pos + String.length p) :: find_all p (pred (String.length p)) (S pos) s'
          else find_all p 0 (S pos) s'
      end
  end.

Definition literal (p : string) : pattern :=
  {| rx_search := fun s => match find_all p 0 0 s with [] => false | _ :: _ => true end;
     rx_finditer := fun s => find_all p 0 0 s |}.

(** ** Match highlighter *)

Definition ESC_ON : string := String "027" "[1m".
Definition ESC_OFF : string := String "027" "[0m".

(** The order of [ranges.sort()] on pairs: by start, then by end. *)
Definition range_leb (a b : nat * nat) : bool :=
  ((fst a <? fst b) || ((fst a =? fst b) && (snd a <=? snd b)))%nat.

Fixpoint insert_range (x : nat * nat) (l : list (nat * nat)) : list (nat * nat) :=
  match l with
  | [] => [x]
  | y :: l' => if range_leb x y then x :: l else y :: insert_range x l'
  end.

Fixpoint sort_ranges (l : list (nat * nat)) : list (nat * nat) :=
  match l with
  | [] => []
  | x :: l' => insert_range x (sort_ranges l')
  end.

(** The merging loop of [colorize], from the current span on. *)
Fixpoint merge_from (cur_s cur_e : nat) (rest : list (nat * nat)) : list (nat * nat) :=
  match rest with
  | [] => [(cur_s, cur_e)]
  | (s0, e0) :: rest' =>
      if (s0 <=? cur_e)%nat then merge_from cur_s (Nat.max cur_e e0) rest'
      else (cur_s, cur_e) :: merge_from s0 e0 rest'
  end.

Definition merge_ranges (ranges : list (nat * nat)) : list (nat * nat) :=
  match ranges with
  | [] => []
  | (cur_s, cur_e) :: rest => merge_from cur_s cur_e rest
  end.

(** The pieces of the output: [(false, x)] is text outside every span,
    [(true, x)] the text of a merged span. *)
Fixpoint segments (s : string) (last : nat) (merged : list (nat * nat))
    : list (bool * string) :=
  match merged with
  | [] => [(false, Py.drop last s)]
  | (s0, e0) :: merged' =>
      (false, Py.slice last s0 s) :: (true, Py.slice s0 e0 s) :: segments s e0 merged'
  end.

Definition mark (piece : bool * string) : string :=
  if fst piece then ESC_ON ++ snd piece ++ ESC_OFF else snd piece.

Definition collect_ranges (regexes : list pattern) (s : string) : list (nat * nat) :=
  flat_map (fun rx => rx_finditer rx s) regexes.

Definition merged_spans (regexes : list pattern) (s : string) : list (nat * nat) :=
  merge_ranges (sort_ranges (collect_ranges regexes s)).

(** yaml-grep.py, [colorize]. *)
Definition colorize (s : string) (regexes : list pattern) (enabled : bool) : string :=
  if negb enabled then s
  else
    match collect_ranges regexes s with
    | [] => s
    | _ :: _ => Py.join "" (map mark (segments s 0 (merged_spans regexes s)))
    end.

(** ** Search engine *)

(** yaml-grep.py, [is_scalar]. *)
Definition is_scalar (x : tree) : bool :=
  match x with
  | Scalar _ => true
  | _ => false
  end.

Definition is_container (x : tree) : bool :=
  match x with
  | Scalar _ => false
  | _ => true
  end.

(** yaml-grep.py, [stringify], on a scalar. *)
Definition stringify (x : scalar) : string :=
  match x with
  | SStr s => s
  | SInt z => Py.str z
  | SFloat repr => repr
  | SBool true => "true"
  | SBool false => "false"
  | SNone => "null"
  end.

(** [stringify(k)] for a key. *)
Definition key_text (k : key) : string := stringify (key_scalar k).

Definition TAB : string := String "009" EmptyString.

Section Search.

Variable regexes : list pattern.
Variables match_keys match_values : bool.
Variable path_fmt : string.
Variable color : bool.
Variable max_matches : Z.

(** [any(rx.search(s) for rx in regexes)]. *)
Definition any_search (s : string) : bool :=
  existsb (fun rx => rx_search rx s) regexes.

(** [max_matches and len(out) >= max_matches]. *)
Definition capped (out : list string) : bool :=
  negb (max_matches =? 0)%Z && (Z.of_nat (List.length out) >=? max_matches)%Z.

Definition show_path (tokens : list token) : string :=
  if String.eqb path_fmt "pointer" then to_path_pointer tokens
  else to_path_dot tokens.

Definition record (path kind shown : string) : string :=
  path ++ TAB ++ kind ++ TAB ++ shown.

(** The key test of one mapping entry: the new [out], and whether the
    call returns at once. *)
Definition try_key (tokens : list token) (k : key) (out : list string)
    : list string * bool :=
  let ks := key_text k in
  if match_keys && any_search ks then
    let out' := (out ++ [record (show_path (tokens ++ [TKey k])) "(KEY)"
                           (colorize ks regexes color)])%list in
    (out', capped out')
  else (out, false).

(** The value test of one child, [tokens] being the child's own path;
    [is_scalar(v)] holds exactly in the [Scalar] case. *)
Definition try_value (tokens : list token) (v : tree) (out : list string)
    : list string * bool :=
  match v with
  | Scalar x =>
      if match_values && any_search (stringify x) then
        let out' := (out ++ [record (show_path tokens) "(VAL)"
                               (colorize (stringify x) regexes color)])%list in
        (out', capped out')
      else (out, false)
  | _ => (out, false)
  end.

Definition descend (rec : tree -> list token -> list string -> list string)
    (tokens : list token) (v : tree) (out : list string) : list string :=
  if is_container v then rec v tokens out else out.

(** [for k, v in obj.items()]. *)
Fixpoint search_entries (rec : tree -> list token -> list string -> list string)
    (tokens : list token) (m : list (key * tree)) (out : list string)
    : list string :=
  match m with
  | [] => out
  | (k, v) :: m' =>
      let (out1, ret1) := try_key tokens k out in
      if ret1 then out1
      else
        let (out2, ret2) := try_value (tokens ++ [TKey k]) v out1 in
        if ret2 then out2
        else search_entries rec tokens m' (descend rec (tokens ++ [TKey k]) v out2)
  end.

(** [for idx, v in enumerate(obj)]. *)
Fixpoint search_items (rec : tree -> list token -> list string -> list string)
    (tokens : list token) (idx : nat) (l : list tree) (out : list string)
    : list string :=
  match l with
  | [] => out
  | v :: l' =>
      let (out1, ret1) := try_value (tokens ++ [TIdx idx]) v out in
      if ret1 then out1
      else search_items rec tokens (S idx) l' (descend rec (tokens ++ [TIdx idx]) v out1)
  end.

(** yaml-grep.py, [search]; the result is [out] after the call. *)
Fixpoint search (obj : tree) (tokens : list token) (out : list string)
    {struct obj} : list string :=
  if capped out then out
  else
    match obj with
    | Mapping m => search_entries search tokens m out
    | Sequence l => search_items search tokens 0 l out
    | Scalar x =>
        if match_values && any_search (stringify x) then
          (out ++ [record (if String.eqb path_fmt "pointer" then "" else "root")
                     "(VAL)" (colorize (stringify x) regexes color)])%list
        else out
    end.

(** yaml-grep.py, [main]: the report of one run. *)
Definition report (data : tree) : list string := search data [] [].

End Search.

(** ** Notions used in the statements *)

(** Character-wise expansion of a string. *)
Fixpoint expand (f : ascii -> string) (s : string) : string :=
  match s with
  | EmptyString => EmptyString
  | String c s' => f c ++ expand f s'
  end.

Definition escape_char (c : ascii) : string :=
  if Ascii.eqb c "~" then "~0"
  else if Ascii.eqb c "/" then "~1"
  else String c EmptyString.

Definition tilde_char (c : ascii) : string :=
  if Ascii.eqb c "~" then "~0" else String c EmptyString.

Definition not_slash (c : ascii) : bool := negb (Ascii.eqb c "/").
Definition not_tilde (c : ascii) : bool := negb (Ascii.eqb c "~").

(** The token the resolver is handed for a path token of the search. *)
Definition token_text (t : token) : string :=
  match t with
  | TKey (KStr s) => s
  | TKey (KInt z) => Py.str z
  | TKey (KBool b) => if b then "True" else "False"
  | TIdx i => Py.str (Z.of_nat i)
  end.

(** A path token that a pointer can name: a sequence index, or a mapping
    key that is a non-empty string. *)
Definition addressable (t : token) : bool :=
  match t with
  | TKey (KStr s) => nonempty s
  | TKey _ => false
  | TIdx _ => true
  end.

(** The last character of [s] exists and is not [ch]. *)
Fixpoint last_not (ch : ascii) (s : string) : bool :=
  match s with
  | EmptyString => false
  | String c EmptyString => negb (Ascii.eqb c ch)
  | String _ s' => last_not ch s'
  end.

(** A part of a pointer that splitting leaves whole and does not drop. *)
Definition plain_part (x : string) : bool := all_chars not_slash x && nonempty x.

(** Following the spec: "emit the original text with each merged span
    wrapped in an emphasis marker (on/off), leaving unmatched text
    untouched".  The text is gone through character by character; before
    the character at position [pos] comes the on marker if a span starts at
    [pos], and the off marker if a span ends at [pos] (an empty span gives
    both, on then off). *)
Definition markers_at (spans : list (nat * nat)) (pos : nat) : string :=
  (if existsb (fun r => fst r =? pos)%nat spans then ESC_ON else "")
  ++ (if existsb (fun r => snd r =? pos)%nat spans then ESC_OFF else "").

Fixpoint spec_highlight_from (spans : list (nat * nat)) (pos : nat) (s : string)
    : string :=
  markers_at spans pos
  ++ match s with
     | EmptyString => EmptyString
     | String c s' => String c (spec_highlight_from spans (S pos) s')
     end.

Definition spec_highlight (spans : list (nat * nat)) (s : string) : string :=
  spec_highlight_from spans 0 s.

(** A span that lies in the text. *)
Definition span_in_text (s : string) (r : nat * nat) : Prop :=
  fst r <= snd r <= String.length s.

(** Position [p] lies in one of the spans. *)
Definition covered (p : nat) (spans : list (nat * nat)) : Prop :=
  Exists (fun r => fst r <= p < snd r) spans.

(** Each span ends strictly before every later one starts. *)
Definition apart (a b : nat * nat) : Prop := snd a < fst b.

Definition span_ordered (r : nat * nat) : Prop := fst r <= snd r.

Definition start_le (a b : nat * nat) : Prop := fst a <= fst b.

(** Two compiled patterns that behave alike on every string, as two
    compilations of one pattern text do. *)
Definition same_pattern (a b : pattern) : Prop :=
  forall s, rx_search a s = rx_search b s /\ rx_finditer a s = rx_finditer b s.

(** Two traversal functions agree on the node [v]. *)
Definition same_on (rec rec' : tree -> list token -> list string -> list string)
    (v : tree) : Prop :=
  forall tokens out, rec v tokens out = rec' v tokens out.

(** The record [line] carries the path of a node below [obj], [tokens]
    being the path of [obj] itself. *)
Definition emitted_at (path_fmt : string) (obj : tree) (tokens : list token)
    (line : string) : Prop :=
  exists p n kind shown,
    p <> [] /\ at_path obj p n
    /\ line = record (show_path path_fmt (tokens ++ p)%list) kind shown.

(** Every record that [rec] adds for a container [v] carries the path of
    a node below [v]. *)
Definition rec_ok (path_fmt : string)
    (rec : tree -> list token -> list string -> list string) (v : tree) : Prop :=
  is_container v = true ->
  forall tokens out line,
    In line (rec v tokens out) -> In line out \/ emitted_at path_fmt v tokens line.

(** ** Command line of the search tool *)

(** The ways [split_patterns_and_file] calls [sys.exit]. *)
Inductive usage_error : Type :=
| NoFileOrPattern
| TrailingSeparator
| MissingFileAfterSeparator
| OnlyOneArgument.

(** [rest.index(x)], [None] when [x] is not in [rest]. *)
Fixpoint index_of (x : string) (rest : list string) : option nat :=
  match rest with
  | [] => None
  | y :: rest' =>
      if String.eqb y x then Some 0 else option_map S (index_of x rest')
  end.

(** yaml-grep.py, [split_patterns_and_file].  [path_exists] stands for
    [os.path.exists]; [existing_patterns] is [None] when no [-e] was given. *)
Definition split_patterns_and_file (path_exists : string -> bool)
    (rest : list string) (existing_patterns : option (list string))
    : usage_error + (list string * string) :=
  let patterns := match existing_patterns with Some l => l | None => [] end in
  match rest with
  | [] => inl NoFileOrPattern
  | _ :: _ =>
      if String.eqb (last rest "") "--" then inl TrailingSeparator
      else
        match index_of "--" rest with
        | Some idx =>
            let pats := firstn idx rest in
            let file_ :=
              if (idx + 1 <? List.length rest)%nat then nth_error rest (idx + 1)
              else None in
            match file_ with
            | None => inl MissingFileAfterSeparator
            | Some f => inr ((patterns ++ pats)%list, f)
            end
        | None =>
            if (2 <=? List.length rest)%nat
               && (path_exists (last rest "") || String.eqb (last rest "") "-")
            then inr ((patterns ++ removelast rest)%list, last rest "")
            else if (List.length rest =? 1)%nat then inl OnlyOneArgument
            else inr ((patterns ++ removelast rest)%list, last rest "")
        end
  end.

(** yaml-grep.py, [main], from the compiled patterns and the loaded
    document on: the flags of the search, the lines printed, and the exit
    status (0 with a match, 1 without). *)
Definition grep_main (regexes : list pattern) (keys_only values_only : bool)
    (path_format : string) (use_color : bool) (max_matches : Z) (data : tree)
    : list string * Z :=
  let match_keys := true in
  let match_values := true in
  let match_values := if keys_only then false else match_values in
  let match_keys := if values_only then false else match_keys in
  let out := report regexes match_keys match_values path_format use_color
               max_matches data in
  (out, match out with [] => 1%Z | _ :: _ => 0%Z end).

(** ** Notions used in the further statements *)

(** One segment of the dot notation. *)
Definition dot_part (t : token) : string :=
  match t with
  | TIdx i => "[" ++ Py.str (Z.of_nat i) ++ "]"
  | TKey (KInt z) => "[" ++ Py.str z ++ "]"
  | TKey (KBool b) => "[" ++ (if b then "True" else "False") ++ "]"
  | TKey (KStr k) =>
      if is_identifier k then "." ++ k else "[" ++ Py.json_dumps_str k ++ "]"
  end.

Fixpoint concat_parts (parts : list string) : string :=
  match parts with
  | [] => EmptyString
  | x :: parts' => x ++ concat_parts parts'
  end.

(** The path an error of the resolver reports. *)
Definition error_path (e : exit_error) : option string :=
  match e with
  | PathMustStartWithSlash _ => None
  | NotAnIndex p _ => Some p
  | IndexOutOfRange p _ _ => Some p
  | KeyNotFound p _ _ _ => Some p
  | CannotDescend p _ => Some p
  end.

(** The token text [tok] of a pointer names the path token [t]: the key
    itself, or a text that [int] reads as the index. *)
Definition denotes (t : token) (tok : string) : Prop :=
  match t with
  | TKey k => k = KStr tok
  | TIdx i => Py.int tok = Some (Z.of_nat i)
  end.

(** A container whose children are all scalars. *)
Definition flat (t : tree) : bool :=
  match t with
  | Scalar _ => true
  | Sequence l => forallb is_scalar l
  | Mapping m => forallb (fun kv => is_scalar (snd kv)) m
  end.

Section Hits.

Variable regexes : list pattern.
Variables match_keys match_values : bool.
Variable path_fmt : string.
Variable color : bool.

(** [line] is the KEY record of an entry of a mapping of [obj] whose key
    matches. *)
Definition key_hit (obj : tree) (tokens : list token) (line : string) : Prop :=
  exists p m k v,
    at_path obj p (Mapping m) /\ In (k, v) m
    /\ match_keys = true /\ any_search regexes (key_text k) = true
    /\ line = record (show_path path_fmt (tokens ++ p ++ [TKey k])%list) "(KEY)"
                (colorize (key_text k) regexes color).

(** [line] is the VAL record of a scalar below [obj] whose text matches. *)
Definition value_hit (obj : tree) (tokens : list token) (line : string) : Prop :=
  exists p x,
    p <> [] /\ at_path obj p (Scalar x)
    /\ match_values = true /\ any_search regexes (stringify x) = true
    /\ line = record (show_path path_fmt (tokens ++ p)%list) "(VAL)"
                (colorize (stringify x) regexes color).

(** [line] is the VAL record of a document that is one matching scalar. *)
Definition root_hit (obj : tree) (line : string) : Prop :=
  exists x,
    obj = Scalar x
    /\ match_values = true /\ any_search regexes (stringify x) = true
    /\ line = record (if String.eqb path_fmt "pointer" then "" else "root") "(VAL)"
                (colorize (stringify x) regexes color).

Definition hit (obj : tree) (tokens : list token) (line : string) : Prop :=
  key_hit obj tokens line \/ value_hit obj tokens line \/ root_hit obj line.

(** Below a container, [rec] adds records of hits only. *)
Definition rec_sound (rec : tree -> list token -> list string -> list string)
    (v : tree) : Prop :=
  is_container v = true ->
  forall tokens out line,
    In line (rec v tokens out) -> In line out \/ hit v tokens line.

End Hits.

(** [rec] only appends to [out]. *)
Definition appends (rec : tree -> list token -> list string -> list string)
    (v : tree) : Prop :=
  forall tokens out, exists added, rec v tokens out = (out ++ added)%list.

(** Two traversal functions that, started from outputs with the same
    first [n] records, end with the same first [n] records. *)
Definition agree_on (n : nat)
    (recN rec0 : tree -> list token -> list string -> list string) (v : tree) : Prop :=
  forall tokens oN o0,
    firstn n oN = firstn n o0 ->
    firstn n (recN v tokens oN) = firstn n (rec0 v tokens o0).

(** The order of [ranges.sort()], as a relation. *)
Definition range_le (a b : nat * nat) : Prop := range_leb a b = true.

(** * Proofs *)

(** ** Strings *)

Lemma append_nil_r (s : string) : s ++ "" = s.
Proof. induction s as [|c s IH]; simpl; [reflexivity | now rewrite IH]. Qed.

Lemma append_assoc (a b c : string) : (a ++ b) ++ c = a ++ (b ++ c).
Proof. induction a as [|x a IH]; simpl; [reflexivity | now rewrite IH]. Qed.

Lemma prefix_head_neq (a c : ascii) (old s : string) :
  a <> c -> String.prefix (String a old) (String c s) = false.
Proof. intros Hne. simpl. destruct (ascii_dec a c); [contradiction | reflexivity]. Qed.

Lemma prefix_empty (s : string) : String.prefix "" s = true.
Proof. destruct s; reflexivity. Qed.

Lemma prefix_head_eq (a : ascii) (old s : string) :
  String.prefix (String a old) (String a s) = String.prefix old s.
Proof. simpl. destruct (ascii_dec a a); [reflexivity | contradiction]. Qed.

Ltac step_replace :=
  cbn [String.append Py.replace_from String.length pred];
  repeat first
    [ rewrite prefix_head_eq
    | rewrite prefix_empty
    | rewrite prefix_head_neq by congruence ];
  cbn [String.append Py.replace_from String.length pred].

Lemma replace_tilde (s : string) : Py.replace "~" "~0" s = expand tilde_char s.
Proof.
  unfold Py.replace. induction s as [|c s IH]; [reflexivity|].
  cbn [expand]. unfold tilde_char at 1.
  destruct (Ascii.eqb_spec c "~") as [->|Hne]; step_replace; now rewrite IH.
Qed.

Lemma replace_slash_expand (s : string) :
  Py.replace "/" "~1" (expand tilde_char s) = expand escape_char s.
Proof.
  unfold Py.replace. induction s as [|c s IH]; [reflexivity|].
  cbn [expand]. unfold tilde_char at 1, escape_char at 1.
  destruct (Ascii.eqb_spec c "~") as [->|Hne];
    [|destruct (Ascii.eqb_spec c "/") as [->|Hne']];
    repeat step_replace; now rewrite IH.
Qed.

Lemma escape_expand (s : string) : json_pointer_escape s = expand escape_char s.
Proof. unfold json_pointer_escape. now rewrite replace_tilde, replace_slash_expand. Qed.

Lemma unescape_slash_expand (s : string) :
  Py.replace "~1" "/" (expand escape_char s) = expand tilde_char s.
Proof.
  unfold Py.replace. induction s as [|c s IH]; [reflexivity|].
  cbn [expand]. unfold tilde_char at 1, escape_char at 1.
  destruct (Ascii.eqb_spec c "~") as [->|Hne];
    [|destruct (Ascii.eqb_spec c "/") as [->|Hne']];
    repeat step_replace; now rewrite IH.
Qed.

Lemma unescape_tilde_expand (s : string) :
  Py.replace "~0" "~" (expand tilde_char s) = s.
Proof.
  unfold Py.replace. induction s as [|c s IH]; [reflexivity|].
  cbn [expand]. unfold tilde_char at 1.
  destruct (Ascii.eqb_spec c "~") as [->|Hne]; repeat step_replace; now rewrite IH.
Qed.

(** C4. Escaping a string token for pointer notation ([~] to [~0], then
    [/] to [~1]) and unescaping the result ([~1] to [/], then [~0] to [~])
    gives the token back, whatever characters it holds; the key [a/b] is
    written [a~1b] and the key [a~b] is written [a~0b]. *)
Theorem escape_unescape_roundtrip :
  (forall tok : string, unescape_token (json_pointer_escape tok) = tok)
  /\ json_pointer_escape "a/b" = "a~1b"
  /\ json_pointer_escape "a~b" = "a~0b"
  /\ unescape_token "a~1b" = "a/b"
  /\ unescape_token "a~0b" = "a~b".
Proof.
  split; [|repeat split; reflexivity].
  intros tok. unfold unescape_token.
  now rewrite escape_expand, unescape_slash_expand, unescape_tilde_expand.
Qed.

(** ** Pointer parsing *)

Lemma replace_nonempty (old new s : string) :
  nonempty new = true -> nonempty s = true -> nonempty (Py.replace old new s) = true.
Proof.
  unfold Py.replace. intros Hnew Hs. destruct s as [|c s]; [discriminate|].
  cbn [Py.replace_from]. destruct (String.prefix old (String c s)); [|reflexivity].
  destruct new; [discriminate | reflexivity].
Qed.

Lemma unescape_nonempty (p : string) :
  nonempty p = true -> nonempty (unescape_token p) = true.
Proof.
  intros Hp. unfold unescape_token.
  apply replace_nonempty; [reflexivity|]. now apply replace_nonempty.
Qed.

Lemma parse_pointer_slash (ptr : string) :
  Py.startswith ptr "/" = true ->
  parse_pointer ptr = Ok (map unescape_token (filter nonempty (Py.split "/" (Py.tail ptr)))).
Proof.
  intros Hs. unfold parse_pointer. rewrite Hs. cbn [negb].
  destruct (String.eqb_spec ptr "") as [->|_]; [discriminate|]. cbn [orb].
  destruct (String.eqb_spec ptr "/") as [->|_]; reflexivity.
Qed.

Lemma parse_pointer_no_slash (ptr : string) :
  ptr <> "" -> Py.startswith ptr "/" = false ->
  parse_pointer ptr = Exit (PathMustStartWithSlash ptr).
Proof.
  intros Hne Hs. unfold parse_pointer. rewrite Hs. cbn [negb].
  destruct (String.eqb_spec ptr "") as [->|_]; [contradiction|]. cbn [orb].
  destruct (String.eqb_spec ptr "/") as [->|_]; [discriminate | reflexivity].
Qed.

Lemma rstrip_char_head (ch c : ascii) (s : string) :
  c <> ch -> exists r, Py.rstrip_char ch (String c s) = String c r.
Proof.
  intros Hne. cbn [Py.rstrip_char]. destruct (Py.rstrip_char ch s) as [|a r].
  - destruct (Ascii.eqb_spec c ch); [contradiction|]. now exists "".
  - now exists (String a r).
Qed.

(** C3, as amended.  Pointer decoding drops the leading [/], splits the
    rest on every [/], drops every empty segment wherever it lies, interior
    ones included, and unescapes what is left: no decoded token is the
    empty string, and [/a//b] decodes to the two tokens [a] and [b]. *)
Theorem parse_pointer_drops_every_empty_segment (ptr : string) (toks : list string) :
  parse_pointer ptr = Ok toks ->
  ~ In "" toks
  /\ (Py.startswith ptr "/" = true ->
      toks = map unescape_token (filter nonempty (Py.split "/" (Py.tail ptr))))
  /\ parse_pointer "/a//b" = Ok ["a"; "b"].
Proof.
  intros Hp. split; [|split; [|reflexivity]].
  - unfold parse_pointer in Hp.
    destruct (String.eqb ptr "" || String.eqb ptr "/").
    { injection Hp as <-. intros []. }
    destruct (negb (Py.startswith ptr "/")); [discriminate|].
    injection Hp as <-. intros Hin.
    apply in_map_iff in Hin. destruct Hin as (p & Hp & Hin).
    apply filter_In in Hin. destruct Hin as [_ Hne].
    apply unescape_nonempty in Hne. rewrite Hp in Hne. discriminate.
  - intros Hs. rewrite (parse_pointer_slash _ Hs) in Hp. now injection Hp as <-.
Qed.

Lemma parse_pointer_drops_every_empty_segment_witness :
  ~ In "" ["a"; "b"]
  /\ ["a"; "b"] = map unescape_token (filter nonempty (Py.split "/" (Py.tail "/a//b"))).
Proof.
  destruct (parse_pointer_drops_every_empty_segment "/a//b" ["a"; "b"] eq_refl)
    as (Hno & Hsplit & _).
  split; [exact Hno | exact (Hsplit eq_refl)].
Defined.

(** C3, as stated, fails: the empty segment between the two slashes of
    [/a//b] is not kept as a token. *)
Lemma parse_pointer_interior_empty_not_kept :
  parse_pointer "/a//b" = Ok ["a"; "b"]
  /\ parse_pointer "/a//b" <> Ok ["a"; ""; "b"]
  /\ ~ (exists toks, parse_pointer "/a//b" = Ok toks /\ In "" toks).
Proof.
  split; [reflexivity|]. split; [discriminate|].
  intros (toks & Hp & Hin). vm_compute in Hp. injection Hp as <-.
  simpl in Hin. intuition discriminate.
Qed.

(** C10. A non-empty pointer that does not start with [/] is refused by
    the parser, and the show command exits with that error whatever the
    document is: nothing is resolved.  The parser accepts exactly the empty
    pointer and the pointers that start with [/] (the root form [/] among
    them). *)
Theorem parse_pointer_requires_leading_slash (ptr : string) :
  (ptr <> "" -> Py.startswith ptr "/" = false ->
     parse_pointer ptr = Exit (PathMustStartWithSlash ptr)
     /\ forall data : tree,
          show ptr data = Exit (PathMustStartWithSlash (Py.rstrip_char "/" ptr)))
  /\ ((exists toks, parse_pointer ptr = Ok toks)
      <-> ptr = "" \/ Py.startswith ptr "/" = true)
  /\ parse_pointer "" = Ok [] /\ parse_pointer "/" = Ok [].
Proof.
  split; [|split; [|split; reflexivity]].
  - intros Hne Hs. split; [now apply parse_pointer_no_slash|].
    intros data. unfold show.
    destruct ptr as [|c s]; [contradiction|].
    assert (Hc : c <> "/"%char).
    { intros ->. unfold Py.startswith in Hs. rewrite prefix_head_eq, prefix_empty in Hs.
      discriminate. }
    destruct (rstrip_char_head "/" c s Hc) as [r Hr]. rewrite Hr.
    rewrite parse_pointer_no_slash; [reflexivity | discriminate |].
    unfold Py.startswith. now apply prefix_head_neq; congruence.
  - split.
    + intros [toks Hp]. destruct ptr as [|c s]; [now left|]. right.
      destruct (Py.startswith (String c s) "/") eqn:Hs; [reflexivity|].
      rewrite parse_pointer_no_slash in Hp; [discriminate | discriminate | exact Hs].
    + intros [->|Hs]; [now exists []|].
      rewrite (parse_pointer_slash _ Hs). eauto.
Qed.

Lemma parse_pointer_requires_leading_slash_witness :
  parse_pointer "a/b" = Exit (PathMustStartWithSlash "a/b")
  /\ forall data : tree, show "a/b" data = Exit (PathMustStartWithSlash "a/b").
Proof.
  apply (proj1 (parse_pointer_requires_leading_slash "a/b")).
  - discriminate.
  - reflexivity.
Defined.

(** ** Resolver *)

Lemma resolve_loop_app (tokens pre rest : list string) :
  forall depth cur,
    resolve_loop tokens depth cur (pre ++ rest)%list =
    match resolve_loop tokens depth cur pre with
    | Ok c => resolve_loop tokens (depth + List.length pre) c rest
    | Exit e => Exit e
    end.
Proof.
  induction pre as [|tok pre IH]; intros depth cur.
  - cbn. now rewrite Nat.add_0_r.
  - cbn [app resolve_loop List.length].
    replace (depth + S (List.length pre)) with (S depth + List.length pre) by lia.
    destruct cur as [x|l|m]; [reflexivity| |].
    + destruct (Py.int tok) as [idx|]; [|reflexivity].
      destruct ((idx <? 0)%Z || (idx >=? Z.of_nat (List.length l))%Z); [reflexivity|].
      destruct (nth_error l (Z.to_nat idx)); [apply IH | reflexivity].
    + destruct (lookup tok m); [apply IH | reflexivity].
Qed.

(** A successful descent does not depend on the bookkeeping kept for the
    error messages. *)
Lemma resolve_loop_ok_indep (tokens tokens' pre : list string) (n : tree) :
  forall depth depth' cur,
    resolve_loop tokens depth cur pre = Ok n ->
    resolve_loop tokens' depth' cur pre = Ok n.
Proof.
  induction pre as [|tok pre IH]; intros depth depth' cur H; [exact H|].
  cbn [resolve_loop] in *.
  destruct cur as [x|l|m]; [discriminate| |].
  - destruct (Py.int tok) as [idx|]; [|discriminate].
    destruct ((idx <? 0)%Z || (idx >=? Z.of_nat (List.length l))%Z); [discriminate|].
    destruct (nth_error l (Z.to_nat idx)); [now apply IH with (depth := S depth) | discriminate].
  - destruct (lookup tok m); [now apply IH with (depth := S depth) | discriminate].
Qed.

Lemma path_so_far_consumed (pre rest : list string) :
  path_so_far (pre ++ rest)%list (1 + List.length pre) = "/" ++ Py.join "/" pre.
Proof.
  unfold path_so_far. cbn [Nat.add Nat.sub]. rewrite Nat.sub_0_r.
  rewrite firstn_app, firstn_all, Nat.sub_diag. cbn [firstn].
  now rewrite app_nil_r.
Qed.

(** What [resolve] does with the token that follows a consumed prefix. *)
Lemma resolve_step (t : tree) (pre : list string) (tok : string) (rest : list string)
    (cur : tree) :
  resolve t pre = Ok cur ->
  resolve t (pre ++ tok :: rest)%list =
  resolve_loop (pre ++ tok :: rest)%list (1 + List.length pre) cur (tok :: rest).
Proof.
  intros H. unfold resolve in *. rewrite resolve_loop_app.
  now rewrite (resolve_loop_ok_indep _ (pre ++ tok :: rest)%list _ _ _ 1 _ H).
Qed.

Lemma key_eqb_str (k : string) (k' : key) :
  key_eqb (KStr k) k' = true <-> k' = KStr k.
Proof.
  destruct k' as [s|z|b]; cbn [key_eqb]; try (split; discriminate).
  rewrite String.eqb_eq. split; congruence.
Qed.

Lemma lookup_none (k : string) (m : list (key * tree)) :
  lookup k m = None <-> ~ In (KStr k) (keys m).
Proof.
  induction m as [|[k' v] m IH]; cbn [lookup keys map fst In]; [tauto|].
  destruct (key_eqb (KStr k) k') eqn:E.
  - apply key_eqb_str in E. subst k'.
    split; [discriminate | intros H; exfalso; apply H; now left].
  - rewrite IH. unfold keys. split; [|tauto].
    intros H [E'|E']; [|tauto]. subst k'.
    rewrite (proj2 (key_eqb_str k (KStr k)) eq_refl) in E. discriminate.
Qed.

(** C5. When the node reached is a mapping without the next token among
    its keys, [resolve] exits with KeyNotFound, carrying the path consumed
    so far, the token, and the first keys of the mapping, ten at most; when
    it is a scalar and a token remains, [resolve] exits with CannotDescend,
    carrying the consumed path and the type of the node.  On
    [{"a": {"b": 1}}], [/a/c] gives KeyNotFound at [/a] for [c], and
    [/a/b/x] gives CannotDescend at [/a/b]. *)
Theorem resolve_error_precision (t : tree) (pre : list string) (tok : string)
    (rest : list string) :
  (forall m, resolve t pre = Ok (Mapping m) -> ~ In (KStr tok) (keys m) ->
     resolve t (pre ++ tok :: rest)%list =
       Exit (KeyNotFound ("/" ++ Py.join "/" pre) tok
               (firstn 10 (keys m)) (10 <? List.length (keys m))%nat)
     /\ List.length (firstn 10 (keys m)) <= 10
     /\ incl (firstn 10 (keys m)) (keys m))
  /\ (forall x, resolve t pre = Ok (Scalar x) ->
        resolve t (pre ++ tok :: rest)%list =
          Exit (CannotDescend ("/" ++ Py.join "/" pre) (type_name (Scalar x))))
  /\ (let doc := Mapping [(KStr "a", Mapping [(KStr "b", Scalar (SInt 1))])] in
      show "/a/c" doc = Exit (KeyNotFound "/a" "c" [KStr "b"] false)
      /\ show "/a/b/x" doc = Exit (CannotDescend "/a/b" "int")).
Proof.
  split; [|split; [|split; reflexivity]].
  - intros m H Hin. split; [|split].
    + rewrite (resolve_step _ _ _ _ _ H). cbn [resolve_loop].
      apply lookup_none in Hin. rewrite Hin. now rewrite path_so_far_consumed.
    + rewrite length_firstn. lia.
    + intros k Hk. rewrite <- (firstn_skipn 10 (keys m)). apply in_or_app. now left.
  - intros x H. rewrite (resolve_step _ _ _ _ _ H). cbn [resolve_loop].
    now rewrite path_so_far_consumed.
Qed.

Lemma resolve_error_precision_witness :
  let doc := Mapping [(KStr "a", Mapping [(KStr "b", Scalar (SInt 1))])] in
  resolve doc ["a"; "c"] = Exit (KeyNotFound "/a" "c" [KStr "b"] false)
  /\ resolve doc ["a"; "b"; "x"] = Exit (CannotDescend "/a/b" "int").
Proof.
  intros doc. split.
  - refine (proj1 (proj1 (resolve_error_precision doc ["a"] "c" [])
                     [(KStr "b", Scalar (SInt 1))] eq_refl _)).
    simpl. intros [H|[]]. discriminate H.
  - exact (proj1 (proj2 (resolve_error_precision doc ["a"; "b"] "x" []))
             (SInt 1) eq_refl).
Defined.

(** C6. When the node reached is a sequence, the next token is read as a
    base-10 integer.  If it is none, [resolve] exits with NotAnIndex,
    carrying the consumed path and the token; if it is negative, or not
    below the length of the sequence, [resolve] exits with IndexOutOfRange,
    carrying the index and the length; otherwise the descent goes on from
    the element at that index. *)
Theorem resolve_sequence_index (t : tree) (pre : list string) (tok : string)
    (rest : list string) (l : list tree) :
  resolve t pre = Ok (Sequence l) ->
  (Py.int tok = None ->
     resolve t (pre ++ tok :: rest)%list =
       Exit (NotAnIndex ("/" ++ Py.join "/" pre) tok))
  /\ (forall idx, Py.int tok = Some idx ->
        (idx < 0 \/ idx >= Z.of_nat (List.length l))%Z ->
        resolve t (pre ++ tok :: rest)%list =
          Exit (IndexOutOfRange ("/" ++ Py.join "/" pre) idx (List.length l)))
  /\ (forall idx, Py.int tok = Some idx ->
        (0 <= idx < Z.of_nat (List.length l))%Z ->
        exists v, nth_error l (Z.to_nat idx) = Some v
          /\ resolve t (pre ++ [tok])%list = Ok v
          /\ resolve t (pre ++ tok :: rest)%list =
               resolve_loop (pre ++ tok :: rest)%list (2 + List.length pre) v rest).
Proof.
  intros H. split; [|split].
  - intros Hint. rewrite (resolve_step _ _ _ _ _ H). cbn [resolve_loop].
    now rewrite Hint, path_so_far_consumed.
  - intros idx Hint Hrange. rewrite (resolve_step _ _ _ _ _ H). cbn [resolve_loop].
    rewrite Hint, path_so_far_consumed.
    replace ((idx <? 0)%Z || (idx >=? Z.of_nat (List.length l))%Z) with true; [reflexivity|].
    symmetry. apply orb_true_iff. rewrite Z.ltb_lt, Z.geb_le. lia.
  - intros idx Hint Hrange.
    destruct (nth_error l (Z.to_nat idx)) as [v|] eqn:Hnth.
    2:{ apply nth_error_None in Hnth. lia. }
    exists v. split; [reflexivity|].
    assert (Hb : (idx <? 0)%Z || (idx >=? Z.of_nat (List.length l))%Z = false).
    { apply orb_false_iff. rewrite Z.ltb_ge, Z.geb_leb, Z.leb_gt. lia. }
    split.
    + rewrite (resolve_step _ _ _ _ _ H). cbn [resolve_loop].
      now rewrite Hint, Hb, Hnth.
    + rewrite (resolve_step _ _ _ _ _ H). cbn [resolve_loop].
      now rewrite Hint, Hb, Hnth.
Qed.

Lemma resolve_sequence_index_witness :
  resolve (Sequence [Scalar SNone; Scalar (SBool true)]) ["x"] = Exit (NotAnIndex "/" "x")
  /\ resolve (Sequence [Scalar SNone; Scalar (SBool true)]) ["2"]
     = Exit (IndexOutOfRange "/" 2 2)
  /\ exists v, nth_error [Scalar SNone; Scalar (SBool true)] 1 = Some v
       /\ resolve (Sequence [Scalar SNone; Scalar (SBool true)]) ["1"] = Ok v.
Proof.
  pose (l := [Scalar SNone; Scalar (SBool true)]).
  split; [|split].
  - exact (proj1 (resolve_sequence_index (Sequence l) [] "x" [] l eq_refl) eq_refl).
  - refine (proj1 (proj2 (resolve_sequence_index (Sequence l) [] "2" [] l eq_refl))
              2%Z eq_refl _).
    right. simpl. lia.
  - destruct (proj2 (proj2 (resolve_sequence_index (Sequence l) [] "1" [] l eq_refl))
                1%Z eq_refl) as (v & Hv & Hr & _).
    + simpl. lia.
    + exists v. split; [exact Hv | exact Hr].
Defined.

(** C8. Resolving the empty token list gives the tree itself, whatever its
    kind; and in general, once no token is left, the current node is the
    result. *)
Theorem resolve_exhausted :
  (forall t : tree, resolve t [] = Ok t)
  /\ (forall tokens depth cur, resolve_loop tokens depth cur [] = Ok cur)
  /\ (forall t : tree, show "" t = Ok t /\ show "/" t = Ok t).
Proof.
  split; [reflexivity|]. split; [reflexivity|].
  intros t. split; reflexivity.
Qed.

(** ** Match highlighter *)

Lemma insert_range_perm (x : nat * nat) (l : list (nat * nat)) :
  Permutation (x :: l) (insert_range x l).
Proof.
  induction l as [|y l IH]; cbn [insert_range]; [reflexivity|].
  destruct (range_leb x y); [reflexivity|].
  rewrite perm_swap. now constructor.
Qed.

Lemma sort_ranges_perm (l : list (nat * nat)) : Permutation l (sort_ranges l).
Proof.
  induction l as [|x l IH]; cbn [sort_ranges]; [constructor|].
  rewrite <- insert_range_perm. now constructor.
Qed.

Lemma range_leb_true (x y : nat * nat) : range_leb x y = true -> start_le x y.
Proof.
  unfold range_leb, start_le. intros H.
  apply orb_true_iff in H. destruct H as [H|H].
  - apply Nat.ltb_lt in H. lia.
  - apply andb_true_iff in H. destruct H as [H _]. apply Nat.eqb_eq in H. lia.
Qed.

Lemma range_leb_false (x y : nat * nat) : range_leb x y = false -> start_le y x.
Proof.
  unfold range_leb, start_le. intros H.
  apply orb_false_iff in H. destruct H as [H _]. apply Nat.ltb_ge in H. exact H.
Qed.

Lemma insert_range_sorted (x : nat * nat) (l : list (nat * nat)) :
  StronglySorted start_le l -> StronglySorted start_le (insert_range x l).
Proof.
  induction l as [|y l IH]; intros Hs; cbn [insert_range].
  - repeat constructor.
  - apply StronglySorted_inv in Hs. destruct Hs as [Hl Hy].
    destruct (range_leb x y) eqn:Hxy.
    + apply range_leb_true in Hxy. constructor; [now constructor|].
      constructor; [exact Hxy|].
      eapply Forall_impl; [|exact Hy]. unfold start_le in *. intros; lia.
    + apply range_leb_false in Hxy. constructor; [now apply IH|].
      rewrite <- insert_range_perm. now constructor.
Qed.

Lemma sort_ranges_sorted (l : list (nat * nat)) : StronglySorted start_le (sort_ranges l).
Proof.
  induction l as [|x l IH]; cbn [sort_ranges]; [constructor|].
  now apply insert_range_sorted.
Qed.

Lemma merge_from_shape (rest : list (nat * nat)) :
  forall cs ce,
    StronglySorted start_le ((cs, ce) :: rest) ->
    exists ce' tl,
      merge_from cs ce rest = (cs, ce') :: tl
      /\ ce <= ce'
      /\ Forall (fun r => ce' < fst r) tl
      /\ Forall (fun r => cs <= fst r) tl
      /\ StronglySorted apart tl.
Proof.
  induction rest as [|[s0 e0] rest IH]; intros cs ce Hs.
  - exists ce, []. repeat split; constructor.
  - apply StronglySorted_inv in Hs. destruct Hs as [Hrest Hhd].
    pose proof (StronglySorted_inv Hrest) as [Hrest' Hhd'].
    apply Forall_cons_iff in Hhd. destruct Hhd as [Hcs Hhd].
    unfold start_le in Hcs. cbn [fst] in Hcs.
    cbn [merge_from]. destruct (s0 <=? ce)%nat eqn:Hle.
    + destruct (IH cs (Nat.max ce e0)) as (ce' & tl & E & Hce & H1 & H2 & H3).
      { constructor; [exact Hrest'|]. exact Hhd. }
      exists ce', tl. repeat split; try assumption. lia.
    + apply Nat.leb_gt in Hle.
      destruct (IH s0 e0 Hrest) as (e' & tl & E & He & H1 & H2 & H3).
      exists ce, ((s0, e') :: tl). rewrite E. repeat split.
      * lia.
      * constructor; [cbn; lia|]. eapply Forall_impl; [|exact H2]. cbn. intros; lia.
      * constructor; [cbn; lia|]. eapply Forall_impl; [|exact H2]. cbn. intros; lia.
      * constructor; [exact H3|]. exact H1.
Qed.

Lemma merge_from_apart (rest : list (nat * nat)) (cs ce : nat) :
  StronglySorted start_le ((cs, ce) :: rest) ->
  StronglySorted apart (merge_from cs ce rest).
Proof.
  intros Hs. destruct (merge_from_shape rest cs ce Hs) as (ce' & tl & E & _ & H1 & _ & H3).
  rewrite E. constructor; [exact H3 | exact H1].
Qed.

Lemma merge_from_ordered (rest : list (nat * nat)) :
  forall cs ce,
    Forall span_ordered ((cs, ce) :: rest) -> Forall span_ordered (merge_from cs ce rest).
Proof.
  induction rest as [|[s0 e0] rest IH]; intros cs ce Hs; cbn [merge_from]; [exact Hs|].
  apply Forall_cons_iff in Hs. destruct Hs as [Hc Hs].
  pose proof Hs as Hs'. apply Forall_cons_iff in Hs'. destruct Hs' as [H0 Hrest].
  unfold span_ordered in Hc, H0. cbn [fst snd] in Hc, H0.
  destruct (s0 <=? ce)%nat.
  - apply IH. constructor; [unfold span_ordered; cbn; lia | exact Hrest].
  - constructor; [exact Hc | now apply IH].
Qed.

Lemma merge_from_covered (rest : list (nat * nat)) (p : nat) :
  forall cs ce,
    StronglySorted start_le ((cs, ce) :: rest) ->
    covered p (merge_from cs ce rest) <-> covered p ((cs, ce) :: rest).
Proof.
  unfold covered.
  induction rest as [|[s0 e0] rest IH]; intros cs ce Hs; cbn [merge_from]; [reflexivity|].
  apply StronglySorted_inv in Hs. destruct Hs as [Hrest Hhd].
  pose proof (StronglySorted_inv Hrest) as [Hrest' Hhd'].
  apply Forall_cons_iff in Hhd. destruct Hhd as [Hcs Hhd].
  unfold start_le in Hcs. cbn [fst] in Hcs.
  destruct (s0 <=? ce)%nat eqn:Hle.
  - apply Nat.leb_le in Hle. rewrite IH by (constructor; assumption).
    rewrite !Exists_cons. cbn [fst snd]. split.
    + intros [H|H]; [|tauto].
      destruct (Nat.lt_ge_cases p ce); [left; lia | right; left; lia].
    + intros [H|[H|H]]; [left; lia | left; lia | tauto].
  - rewrite Exists_cons, (IH s0 e0 Hrest). rewrite !Exists_cons. tauto.
Qed.

Lemma merged_spans_apart (regexes : list pattern) (s : string) :
  StronglySorted apart (merged_spans regexes s).
Proof.
  unfold merged_spans, merge_ranges.
  pose proof (sort_ranges_sorted (collect_ranges regexes s)) as Hs.
  destruct (sort_ranges (collect_ranges regexes s)) as [|[cs ce] rest]; [constructor|].
  now apply merge_from_apart.
Qed.

Lemma covered_perm (l l' : list (nat * nat)) (p : nat) :
  Permutation l l' -> covered p l <-> covered p l'.
Proof.
  intros H. unfold covered. rewrite !Exists_exists.
  split; intros (x & Hin & Hx); exists x; split; trivial.
  - now apply (Permutation_in x H).
  - now apply (Permutation_in x (Permutation_sym H)).
Qed.

Lemma merged_spans_covered (regexes : list pattern) (s : string) (p : nat) :
  covered p (merged_spans regexes s) <-> covered p (collect_ranges regexes s).
Proof.
  unfold merged_spans, merge_ranges.
  pose proof (sort_ranges_sorted (collect_ranges regexes s)) as Hs.
  pose proof (sort_ranges_perm (collect_ranges regexes s)) as Hp.
  rewrite (covered_perm _ _ p Hp).
  destruct (sort_ranges (collect_ranges regexes s)) as [|[cs ce] rest]; [reflexivity|].
  now apply merge_from_covered.
Qed.

Lemma merged_spans_ordered (regexes : list pattern) (s : string) :
  Forall span_ordered (collect_ranges regexes s) ->
  Forall span_ordered (merged_spans regexes s).
Proof.
  unfold merged_spans, merge_ranges. intros H.
  rewrite (sort_ranges_perm (collect_ranges regexes s)) in H.
  destruct (sort_ranges (collect_ranges regexes s)) as [|[cs ce] rest]; [constructor|].
  now apply merge_from_ordered.
Qed.

Lemma drop_empty (k : nat) : Py.drop k "" = "".
Proof. destruct k; reflexivity. Qed.

Lemma drop_add (a k : nat) (s : string) : Py.drop (a + k) s = Py.drop k (Py.drop a s).
Proof.
  revert s. induction a as [|a IH]; intros s; [reflexivity|].
  destruct s as [|c s]; cbn [Nat.add Py.drop]; [now rewrite drop_empty | apply IH].
Qed.

Lemma take_drop (n : nat) (s : string) : Py.take n s ++ Py.drop n s = s.
Proof.
  revert s. induction n as [|n IH]; intros s; [reflexivity|].
  destruct s as [|c s]; [reflexivity|]. cbn [Py.take Py.drop String.append].
  now rewrite IH.
Qed.

Lemma slice_drop (a b : nat) (s : string) :
  a <= b -> Py.slice a b s ++ Py.drop b s = Py.drop a s.
Proof.
  intros Hab. unfold Py.slice.
  replace b with (a + (b - a)) at 2 by lia.
  rewrite drop_add. apply take_drop.
Qed.

Lemma join_empty_cons (x : string) (l : list string) :
  Py.join "" (x :: l) = x ++ Py.join "" l.
Proof.
  unfold Py.join. destruct l as [|y l]; cbn [String.concat String.append].
  - now rewrite append_nil_r.
  - reflexivity.
Qed.

(** With the markers left out, the pieces of the output are the text. *)
Lemma segments_text (s : string) (merged : list (nat * nat)) :
  forall last,
    StronglySorted apart merged ->
    Forall span_ordered merged ->
    Forall (fun r => last <= fst r) merged ->
    Py.join "" (map snd (segments s last merged)) = Py.drop last s.
Proof.
  induction merged as [|[s0 e0] merged IH]; intros last Hap Hord Hlast.
  - cbn. reflexivity.
  - cbn [segments map snd]. rewrite !join_empty_cons.
    apply StronglySorted_inv in Hap. destruct Hap as [Hap Hhd].
    apply Forall_cons_iff in Hord. destruct Hord as [H0 Hord].
    apply Forall_cons_iff in Hlast. destruct Hlast as [Hl _].
    unfold span_ordered in H0. cbn [fst snd] in H0, Hl.
    rewrite IH; trivial.
    + now rewrite (slice_drop s0 e0 s H0), (slice_drop last s0 s Hl).
    + eapply Forall_impl; [|exact Hhd]. unfold apart. cbn. intros; lia.
Qed.

Lemma collect_ranges_spec (regexes : list pattern) (s : string) (r : nat * nat) :
  In r (collect_ranges regexes s)
  <-> exists rx, In rx regexes /\ In r (rx_finditer rx s).
Proof. unfold collect_ranges. apply in_flat_map. Qed.

Lemma merge_from_contains (rest : list (nat * nat)) :
  forall cs ce r,
    StronglySorted start_le ((cs, ce) :: rest) ->
    In r ((cs, ce) :: rest) ->
    exists m, In m (merge_from cs ce rest) /\ fst m <= fst r /\ snd r <= snd m.
Proof.
  induction rest as [|[s0 e0] rest IH]; intros cs ce r Hs Hin.
  - destruct Hin as [<-|[]]. exists (cs, ce). cbn. auto.
  - apply StronglySorted_inv in Hs. destruct Hs as [Hrest Hhd].
    pose proof (StronglySorted_inv Hrest) as [Hrest' Hhd'].
    apply Forall_cons_iff in Hhd. destruct Hhd as [Hcs Hhd].
    unfold start_le in Hcs. cbn [fst] in Hcs.
    cbn [merge_from]. destruct (s0 <=? ce)%nat eqn:Hle.
    + assert (Hs' : StronglySorted start_le ((cs, Nat.max ce e0) :: rest))
        by (constructor; assumption).
      destruct Hin as [<-|[<-|Hin]].
      * destruct (IH cs (Nat.max ce e0) (cs, Nat.max ce e0) Hs' (or_introl eq_refl))
          as (m & Hm & H1 & H2).
        exists m. cbn [fst snd] in *. repeat split; trivial; lia.
      * destruct (IH cs (Nat.max ce e0) (cs, Nat.max ce e0) Hs' (or_introl eq_refl))
          as (m & Hm & H1 & H2).
        exists m. cbn [fst snd] in *. repeat split; trivial; lia.
      * apply (IH cs (Nat.max ce e0) r Hs'). now right.
    + destruct Hin as [<-|Hin].
      * exists (cs, ce). cbn. auto.
      * destruct (IH s0 e0 r Hrest Hin) as (m & Hm & H1 & H2).
        exists m. split; [now right | auto].
Qed.

Lemma merge_from_ends (rest : list (nat * nat)) :
  forall cs ce m,
    In m (merge_from cs ce rest) ->
    In (fst m) (cs :: map fst rest) /\ In (snd m) (ce :: map snd rest).
Proof.
  induction rest as [|[s0 e0] rest IH]; intros cs ce m Hin.
  - destruct Hin as [<-|[]]. cbn. auto.
  - cbn [merge_from] in Hin. cbn [map fst snd]. destruct (s0 <=? ce)%nat.
    + destruct (IH _ _ _ Hin) as [H1 H2]. split.
      * destruct H1 as [H1|H1]; [now left | now right; right].
      * destruct H2 as [H2|H2]; [|now right; right].
        destruct (Nat.max_dec ce e0) as [E|E]; rewrite E in H2;
          [now left | now right; left].
    + destruct Hin as [<-|Hin]; [cbn; auto|].
      destruct (IH _ _ _ Hin) as [H1 H2]. split; now right.
Qed.

Lemma merged_spans_contain (regexes : list pattern) (s : string) (r : nat * nat) :
  In r (collect_ranges regexes s) ->
  exists m, In m (merged_spans regexes s) /\ fst m <= fst r /\ snd r <= snd m.
Proof.
  unfold merged_spans, merge_ranges. intros Hin.
  pose proof (sort_ranges_sorted (collect_ranges regexes s)) as Hs.
  apply (Permutation_in r (sort_ranges_perm (collect_ranges regexes s))) in Hin.
  destruct (sort_ranges (collect_ranges regexes s)) as [|[cs ce] rest]; [destruct Hin|].
  now apply merge_from_contains.
Qed.

Lemma merged_spans_ends (regexes : list pattern) (s : string) (m : nat * nat) :
  In m (merged_spans regexes s) ->
  In (fst m) (map fst (collect_ranges regexes s))
  /\ In (snd m) (map snd (collect_ranges regexes s)).
Proof.
  unfold merged_spans, merge_ranges. intros Hin.
  pose proof (sort_ranges_perm (collect_ranges regexes s)) as Hp.
  destruct (sort_ranges (collect_ranges regexes s)) as [|[cs ce] rest] eqn:E;
    [destruct Hin|].
  apply merge_from_ends in Hin. destruct Hin as [H1 H2].
  split.
  - apply (Permutation_in _ (Permutation_sym (Permutation_map fst Hp))). exact H1.
  - apply (Permutation_in _ (Permutation_sym (Permutation_map snd Hp))). exact H2.
Qed.

Lemma merged_spans_in_text (regexes : list pattern) (s : string) :
  Forall (span_in_text s) (collect_ranges regexes s) ->
  Forall (span_in_text s) (merged_spans regexes s).
Proof.
  intros H. apply Forall_forall. intros m Hm.
  pose proof (proj1 (Forall_forall _ _) H) as Hall.
  destruct (merged_spans_ends regexes s m Hm) as [H1 H2].
  apply in_map_iff in H1. destruct H1 as (r1 & E1 & Hr1).
  apply in_map_iff in H2. destruct H2 as (r2 & E2 & Hr2).
  assert (Hord : Forall span_ordered (merged_spans regexes s)).
  { apply merged_spans_ordered. eapply Forall_impl; [|exact H].
    unfold span_in_text, span_ordered. intros; lia. }
  pose proof (proj1 (Forall_forall _ _) Hord m Hm) as Hmo.
  pose proof (Hall r2 Hr2) as B2. unfold span_in_text, span_ordered in *. lia.
Qed.

(** *** The output, against the spec's wording *)

Lemma existsb_none (f : nat * nat -> bool) (l : list (nat * nat)) :
  (forall r, In r l -> f r = false) -> existsb f l = false.
Proof.
  intros H. induction l as [|r l IH]; [reflexivity|]. cbn [existsb].
  rewrite (H r (or_introl eq_refl)), IH; [reflexivity|].
  intros r' Hr'. apply H. now right.
Qed.

Lemma markers_none (spans : list (nat * nat)) (pos : nat) :
  (forall r, In r spans -> fst r <> pos /\ snd r <> pos) -> markers_at spans pos = "".
Proof.
  intros H. unfold markers_at.
  rewrite !existsb_none; [reflexivity| |]; intros r Hr; apply Nat.eqb_neq;
    now destruct (H r Hr).
Qed.

Lemma markers_skip (r : nat * nat) (spans : list (nat * nat)) (pos : nat) :
  fst r <> pos -> snd r <> pos -> markers_at (r :: spans) pos = markers_at spans pos.
Proof.
  intros H1 H2. unfold markers_at. cbn [existsb].
  now rewrite (proj2 (Nat.eqb_neq _ _) H1), (proj2 (Nat.eqb_neq _ _) H2).
Qed.

Lemma spec_highlight_ext (A B : list (nat * nat)) (x : string) :
  forall pos,
    (forall j, pos <= j -> markers_at A j = markers_at B j) ->
    spec_highlight_from A pos x = spec_highlight_from B pos x.
Proof.
  induction x as [|c x IH]; intros pos H; cbn [spec_highlight_from].
  - now rewrite (H pos (le_n _)).
  - rewrite (H pos (le_n _)), (IH (S pos)); [reflexivity|].
    intros j Hj. apply H. lia.
Qed.

Lemma spec_highlight_plain (spans : list (nat * nat)) (k : nat) :
  forall pos x,
    (forall r j, In r spans -> pos <= j < pos + k -> fst r <> j /\ snd r <> j) ->
    k <= String.length x ->
    spec_highlight_from spans pos x
    = Py.take k x ++ spec_highlight_from spans (pos + k) (Py.drop k x).
Proof.
  induction k as [|k IH]; intros pos x H Hlen.
  - cbn [Py.take Py.drop String.append]. now rewrite Nat.add_0_r.
  - destruct x as [|c x]; [cbn in Hlen; lia|].
    cbn [spec_highlight_from Py.take Py.drop String.append].
    rewrite markers_none by (intros r Hr; apply (H r pos Hr); lia).
    cbn [String.append]. f_equal.
    replace (pos + S k) with (S pos + k) by lia.
    apply IH; [|cbn in Hlen; lia].
    intros r j Hr Hj. apply (H r j Hr). lia.
Qed.

Lemma spec_highlight_nil (x : string) (pos : nat) : spec_highlight_from [] pos x = x.
Proof.
  revert pos. induction x as [|c x IH]; intros pos; cbn [spec_highlight_from];
    [reflexivity|]. unfold markers_at. cbn [existsb String.append]. now rewrite IH.
Qed.

Lemma length_drop (k : nat) (x : string) :
  String.length (Py.drop k x) = String.length x - k.
Proof.
  revert x. induction k as [|k IH]; intros x; [cbn; lia|].
  destruct x as [|c x]; [reflexivity|]. cbn [Py.drop String.length]. now rewrite IH.
Qed.

(** From a position [b] where the first span has just ended, the spec's
    output goes on as if that span were not there, after the off marker. *)
Lemma spec_highlight_after (a b : nat) (R : list (nat * nat)) (y : string) :
  a <= b -> Forall (fun r => b < fst r /\ fst r <= snd r) R ->
  spec_highlight_from ((a, b) :: R) b y
  = (if (a =? b)%nat then ESC_ON else "") ++ ESC_OFF ++ spec_highlight_from R b y.
Proof.
  intros Hab HR.
  assert (Hfar : forall r, In r R -> forall j, j <= b -> fst r <> j /\ snd r <> j).
  { intros r Hr j Hj. pose proof (proj1 (Forall_forall _ _) HR r Hr) as Hx. cbn beta in Hx. lia. }
  assert (Hm : markers_at ((a, b) :: R) b
               = (if (a =? b)%nat then ESC_ON else "") ++ ESC_OFF).
  { unfold markers_at. cbn [existsb fst snd]. rewrite Nat.eqb_refl. cbn [orb].
    rewrite existsb_none; [now rewrite orb_false_r|].
    intros r Hr. apply Nat.eqb_neq. now destruct (Hfar r Hr b (le_n _)). }
  assert (Hm' : markers_at R b = "").
  { apply markers_none. intros r Hr. now apply (Hfar r Hr). }
  assert (Hext : forall x, spec_highlight_from ((a, b) :: R) (S b) x
                           = spec_highlight_from R (S b) x).
  { intros x. apply spec_highlight_ext. intros j Hj.
    apply markers_skip; cbn [fst snd]; lia. }
  destruct y as [|c y]; cbn [spec_highlight_from]; rewrite Hm, Hm';
    cbn [String.append]; rewrite ?Hext; now rewrite !append_assoc, ?append_nil_r.
Qed.

Lemma segments_spec (s : string) (R : list (nat * nat)) :
  forall last,
    StronglySorted apart R ->
    Forall (span_in_text s) R ->
    Forall (fun r => last <= fst r) R ->
    last <= String.length s ->
    Py.join "" (map mark (segments s last R))
    = spec_highlight_from R last (Py.drop last s).
Proof.
  induction R as [|[a b] R IH]; intros last Hap Hin Hlast Hlen.
  - cbn. now rewrite spec_highlight_nil.
  - apply StronglySorted_inv in Hap. destruct Hap as [Hap Hhd].
    apply Forall_cons_iff in Hin. destruct Hin as [Hab Hin].
    apply Forall_cons_iff in Hlast. destruct Hlast as [Hla _].
    unfold span_in_text in Hab. cbn [fst snd] in Hab, Hla.
    assert (HR : Forall (fun r => b < fst r /\ fst r <= snd r) R).
    { apply Forall_forall. intros r Hr.
      pose proof (proj1 (Forall_forall _ _) Hhd r Hr) as H1.
      pose proof (proj1 (Forall_forall _ _) Hin r Hr) as H2.
      unfold apart, span_in_text in *. cbn [snd] in H1. lia. }
    assert (Hfar : forall r, In r ((a, b) :: R) -> forall j, j < a ->
                             fst r <> j /\ snd r <> j).
    { intros r [<-|Hr] j Hj; [cbn; lia|].
      pose proof (proj1 (Forall_forall _ _) HR r Hr) as Hx. cbn beta in Hx. lia. }
    cbn [segments map]. rewrite !join_empty_cons. unfold mark at 1 2. cbn [fst snd].
    rewrite (IH b Hap Hin); [| |lia].
    2:{ eapply Forall_impl; [|exact HR]. cbn. intros; lia. }
    (* the stretch before the span *)
    rewrite (spec_highlight_plain ((a, b) :: R) (a - last) last (Py.drop last s)).
    2:{ intros r j Hr Hj. apply (Hfar r Hr). lia. }
    2:{ rewrite length_drop. lia. }
    rewrite <- drop_add. replace (last + (a - last)) with a by lia.
    unfold Py.slice at 1. f_equal.
    destruct (Nat.eq_dec a b) as [<-|Hne].
    + (* an empty span *)
      rewrite (spec_highlight_after a a R (Py.drop a s) (le_n _) HR), Nat.eqb_refl.
      unfold Py.slice. rewrite Nat.sub_diag. cbn [Py.take String.append].
      now rewrite !append_assoc.
    + (* a span with text *)
      assert (Hlt : a < b) by lia.
      destruct (Py.drop a s) as [|c x] eqn:Ex.
      { pose proof (length_drop a s) as Hl. rewrite Ex in Hl. cbn in Hl. lia. }
      cbn [spec_highlight_from].
      assert (Hma : markers_at ((a, b) :: R) a = ESC_ON).
      { unfold markers_at. cbn [existsb fst snd]. rewrite Nat.eqb_refl. cbn [orb].
        rewrite (proj2 (Nat.eqb_neq b a)) by lia. cbn [orb].
        rewrite existsb_none; [now rewrite append_nil_r|].
        intros r Hr. apply Nat.eqb_neq.
        pose proof (proj1 (Forall_forall _ _) HR r Hr) as Hx. cbn beta in Hx. lia. }
      rewrite Hma.
      rewrite (spec_highlight_plain ((a, b) :: R) (b - S a) (S a) x).
      2:{ intros r j [<-|Hr] Hj; [cbn; lia|].
          pose proof (proj1 (Forall_forall _ _) HR r Hr) as Hx. cbn beta in Hx. lia. }
      2:{ pose proof (length_drop a s) as Hl. rewrite Ex in Hl. cbn in Hl. lia. }
      replace (S a + (b - S a)) with b by lia.
      assert (Ed : Py.drop (b - S a) x = Py.drop b s).
      { replace b with (a + S (b - S a)) at 2 by lia. rewrite drop_add, Ex. reflexivity. }
      rewrite Ed, (spec_highlight_after a b R (Py.drop b s)) by (trivial; lia).
      rewrite (proj2 (Nat.eqb_neq a b)) by lia.
      unfold Py.slice. rewrite Ex.
      replace (b - a) with (S (b - S a)) by lia. cbn [Py.take String.append].
      rewrite append_assoc. cbn [String.append]. now rewrite append_assoc.
Qed.

Lemma colorize_spec (s : string) (regexes : list pattern) :
  Forall (span_in_text s) (collect_ranges regexes s) ->
  colorize s regexes true = spec_highlight (merged_spans regexes s) s.
Proof.
  intros Hin. unfold colorize, spec_highlight. cbn [negb].
  destruct (collect_ranges regexes s) as [|r l] eqn:E.
  - unfold merged_spans. rewrite E. cbn. now rewrite spec_highlight_nil.
  - rewrite <- E in Hin. rewrite segments_spec; trivial.
    + apply merged_spans_apart.
    + now apply merged_spans_in_text.
    + apply Forall_forall. intros; lia.
    + lia.
Qed.

(** C7. The highlighter takes every match span of every pattern, orders
    the spans by start offset, and merges those that overlap or touch: the
    merged spans lie strictly apart, in order; each match span lies inside
    one of them, each of them starts where a match span starts and ends
    where one ends, and together they cover exactly the positions the match
    spans cover.  The output is the text with the on marker before each
    merged span and the off marker after it, everything else untouched, as
    the spec words it; without the markers it is the text.  When nothing
    matches, or when highlighting is off, the input is returned as it is.
    On [aaa] with the patterns [a] and [aa] there is one merged span, from 0
    to 3. *)
Theorem colorize_merges_spans (s : string) (regexes : list pattern) :
  let spans := collect_ranges regexes s in
  let merged := merged_spans regexes s in
  (forall r, In r spans <-> exists rx, In rx regexes /\ In r (rx_finditer rx s))
  /\ (spans = [] -> forall enabled, colorize s regexes enabled = s)
  /\ colorize s regexes false = s
  /\ (Forall (span_in_text s) spans ->
      colorize s regexes true = spec_highlight merged s)
  /\ Permutation spans (sort_ranges spans)
  /\ StronglySorted start_le (sort_ranges spans)
  /\ StronglySorted apart merged
  /\ (forall r, In r spans ->
        exists m, In m merged /\ fst m <= fst r /\ snd r <= snd m)
  /\ (forall m, In m merged ->
        In (fst m) (map fst spans) /\ In (snd m) (map snd spans))
  /\ (forall p, covered p merged
                <-> exists rx r, In rx regexes /\ In r (rx_finditer rx s)
                                 /\ fst r <= p < snd r)
  /\ (Forall span_ordered spans ->
      Py.join "" (map snd (segments s 0 merged)) = s)
  /\ merged_spans [literal "a"; literal "aa"] "aaa" = [(0, 3)]
  /\ colorize "aaa" [literal "a"; literal "aa"] true
     = String "027" ("[1maaa" ++ String "027" "[0m").
Proof.
  intros spans merged. subst spans merged.
  repeat match goal with |- _ /\ _ => split end.
  - intros r. apply collect_ranges_spec.
  - intros H [|]; unfold colorize; cbn [negb]; [now rewrite H | reflexivity].
  - reflexivity.
  - apply colorize_spec.
  - apply sort_ranges_perm.
  - apply sort_ranges_sorted.
  - apply merged_spans_apart.
  - intros r. apply merged_spans_contain.
  - intros m. apply merged_spans_ends.
  - intros p. rewrite merged_spans_covered. unfold covered. rewrite Exists_exists.
    split.
    + intros (r & Hr & Hp). apply collect_ranges_spec in Hr. destruct Hr as (rx & Hrx & Hr).
      exists rx, r. auto.
    + intros (rx & r & Hrx & Hr & Hp). exists r. split; [|exact Hp].
      apply collect_ranges_spec. eauto.
  - intros Hord. rewrite segments_text.
    + reflexivity.
    + apply merged_spans_apart.
    + now apply merged_spans_ordered.
    + apply Forall_forall. intros; lia.
  - reflexivity.
  - reflexivity.
Qed.

Lemma colorize_merges_spans_witness :
  colorize "xyz" [literal "a"; literal "b"] true = "xyz"
  /\ colorize "xaybaaz" [literal "a"; literal "b"] true
     = spec_highlight (merged_spans [literal "a"; literal "b"] "xaybaaz") "xaybaaz"
  /\ (exists m, In m (merged_spans [literal "a"; literal "b"] "xaybaaz")
                /\ fst m <= 4 /\ 5 <= snd m)
  /\ Py.join "" (map snd (segments "xaybaaz" 0
                            (merged_spans [literal "a"; literal "b"] "xaybaaz")))
     = "xaybaaz".
Proof.
  pose proof (colorize_merges_spans "xyz" [literal "a"; literal "b"]) as H0.
  pose proof (colorize_merges_spans "xaybaaz" [literal "a"; literal "b"]) as H.
  cbv zeta in H0, H.
  destruct H0 as (_ & H02 & _).
  destruct H as (_ & _ & _ & H4 & _ & _ & _ & H8 & _ & _ & H11 & _).
  split; [|split; [|split]].
  - exact (H02 eq_refl true).
  - apply H4. unfold span_in_text. repeat constructor.
  - apply (H8 (4, 5)). cbn. tauto.
  - apply H11. repeat constructor.
Defined.

(** ** Decimal text of an index *)

Lemma digit_char_spec (d : Z) :
  (0 <= d < 10)%Z ->
  Py.is_digit (Py.digit_char d) = true /\ Py.digit_val (Py.digit_char d) = d.
Proof.
  intros H.
  assert (E : (d = 0 \/ d = 1 \/ d = 2 \/ d = 3 \/ d = 4 \/ d = 5 \/ d = 6
               \/ d = 7 \/ d = 8 \/ d = 9)%Z) by lia.
  repeat (destruct E as [->|E]; [split; reflexivity|]).
  subst d. split; reflexivity.
Qed.

Lemma str_digits_all (p : ascii -> bool) :
  (forall d, (0 <= d < 10)%Z -> p (Py.digit_char d) = true) ->
  forall fuel n acc,
    all_chars p acc = true -> all_chars p (Py.str_digits fuel n acc) = true.
Proof.
  intros Hp. induction fuel as [|fuel IH]; intros n acc Hacc; [exact Hacc|].
  cbn [Py.str_digits].
  assert (Hc : all_chars p (String (Py.digit_char (n mod 10)) acc) = true).
  { cbn [all_chars]. rewrite Hp, Hacc; [reflexivity|]. apply Z.mod_pos_bound. lia. }
  destruct (n <? 10)%Z; [exact Hc | now apply IH].
Qed.

Lemma str_digits_nonempty (fuel : nat) (n : Z) (acc : string) :
  nonempty (Py.str_digits (S fuel) n acc) = true.
Proof.
  revert n acc. induction fuel as [|fuel IH]; intros n acc.
  - cbn. destruct (n <? 10)%Z; reflexivity.
  - change (Py.str_digits (S (S fuel)) n acc)
      with (if (n <? 10)%Z then String (Py.digit_char (n mod 10)) acc
            else Py.str_digits (S fuel) (n / 10) (String (Py.digit_char (n mod 10)) acc)).
    destruct (n <? 10)%Z; [reflexivity | apply IH].
Qed.

Lemma parse_str_digits (fuel : nat) :
  forall n acc a b,
    (0 <= n < 10 ^ Z.of_nat fuel)%Z -> (0 < fuel)%nat ->
    exists k : Z,
      Py.parse_digits a b (Py.str_digits fuel n acc)
      = Py.parse_digits (a * 10 ^ k + n) true acc /\ (0 <= k)%Z.
Proof.
  induction fuel as [|fuel IH]; intros n acc a b Hn Hf; [lia|].
  cbn [Py.str_digits].
  assert (Hd : (0 <= n mod 10 < 10)%Z) by (apply Z.mod_pos_bound; lia).
  destruct (digit_char_spec _ Hd) as [Hdig Hval].
  destruct (n <? 10)%Z eqn:Hlt.
  - apply Z.ltb_lt in Hlt. exists 1%Z. split; [|lia].
    cbn [Py.parse_digits]. rewrite Hdig, Hval.
    rewrite Z.mod_small by lia. now rewrite Z.pow_1_r.
  - apply Z.ltb_ge in Hlt.
    assert (Hq : (0 <= n / 10 < 10 ^ Z.of_nat fuel)%Z).
    { split; [apply Z.div_pos; lia|].
      apply Z.div_lt_upper_bound; [lia|].
      rewrite Nat2Z.inj_succ, Z.pow_succ_r in Hn by lia. lia. }
    assert (Hfuel : (0 < fuel)%nat).
    { destruct fuel; [|lia]. cbn in Hq.
      assert (1 <= n / 10)%Z by (apply Z.div_le_lower_bound; lia). lia. }
    destruct (IH (n / 10)%Z (String (Py.digit_char (n mod 10)) acc) a b Hq Hfuel)
      as (k & E & Hk).
    exists (k + 1)%Z. split; [|lia]. rewrite E.
    cbn [Py.parse_digits]. rewrite Hdig, Hval. f_equal.
    rewrite Z.pow_add_r, Z.pow_1_r by lia.
    pose proof (Z.div_mod n 10). lia.
Qed.

Lemma enough_fuel (n : Z) :
  (0 <= n)%Z -> (n < 10 ^ Z.of_nat (S (Z.to_nat (Z.log2 n))))%Z.
Proof.
  intros Hn. rewrite Nat2Z.inj_succ, Z2Nat.id by apply Z.log2_nonneg.
  destruct (Z.eq_dec n 0) as [->|Hz]; [reflexivity|].
  assert (Hpos : (0 < n)%Z) by lia.
  pose proof (Z.log2_spec n Hpos) as [_ Hup].
  eapply Z.lt_le_trans; [exact Hup|].
  apply Z.pow_le_mono_l. lia.
Qed.

Lemma str_nonneg (n : Z) :
  (0 <= n)%Z -> Py.str n = Py.str_digits (S (Z.to_nat (Z.log2 n))) n "".
Proof. intros Hn. unfold Py.str. destruct (Z.ltb_spec n 0); [lia | reflexivity]. Qed.

Lemma str_all_digits (n : Z) : (0 <= n)%Z -> all_chars Py.is_digit (Py.str n) = true.
Proof.
  intros Hn. rewrite str_nonneg by exact Hn.
  apply str_digits_all; [|reflexivity]. intros d Hd. now apply digit_char_spec.
Qed.

Lemma str_nonempty (n : Z) : (0 <= n)%Z -> nonempty (Py.str n) = true.
Proof. intros Hn. rewrite str_nonneg by exact Hn. apply str_digits_nonempty. Qed.

Lemma all_chars_impl (p q : ascii -> bool) (s : string) :
  (forall c, p c = true -> q c = true) -> all_chars p s = true -> all_chars q s = true.
Proof.
  intros Hpq. induction s as [|c s IH]; [reflexivity|]. cbn [all_chars].
  intros H. apply andb_true_iff in H. destruct H as [Hc Hs].
  now rewrite (Hpq c Hc), IH.
Qed.

(** What a decimal digit is not. *)
Lemma digit_facts (c : ascii) :
  Py.is_digit c = true ->
  Py.is_space c = false /\ not_slash c = true /\ not_tilde c = true
  /\ Ascii.eqb c "+" = false /\ Ascii.eqb c "-" = false.
Proof.
  intros H. unfold Py.is_digit in H. apply andb_true_iff in H. destruct H as [Hlo Hhi].
  apply Nat.leb_le in Hlo, Hhi.
  assert (Hne : forall a, (nat_of_ascii a < 48 \/ 57 < nat_of_ascii a)%nat ->
                          Ascii.eqb c a = false).
  { intros a Ha. apply Ascii.eqb_neq. intros ->. lia. }
  repeat split.
  - unfold Py.is_space.
    repeat match goal with
           | |- context [(?a <=? ?b)%nat] => destruct (Nat.leb_spec a b)
           | |- context [(?a =? ?b)%nat] => destruct (Nat.eqb_spec a b)
           end; try reflexivity; lia.
  - unfold not_slash. now rewrite (Hne "/"%char) by (cbn; lia).
  - unfold not_tilde. now rewrite (Hne "~"%char) by (cbn; lia).
  - now rewrite (Hne "+"%char) by (cbn; lia).
  - now rewrite (Hne "-"%char) by (cbn; lia).
Qed.

Lemma lstrip_head (c : ascii) (s : string) :
  Py.is_space c = false -> Py.lstrip (String c s) = String c s.
Proof. intros H. cbn [Py.lstrip]. now rewrite H. Qed.

Lemma rstrip_no_space (s : string) :
  all_chars (fun c => negb (Py.is_space c)) s = true -> Py.rstrip s = s.
Proof.
  induction s as [|c s IH]; [reflexivity|]. cbn [all_chars Py.rstrip].
  intros H. apply andb_true_iff in H. destruct H as [Hc Hs].
  rewrite (IH Hs). apply negb_true_iff in Hc. rewrite Hc.
  destruct s; reflexivity.
Qed.

Lemma int_of_digits (s : string) :
  all_chars Py.is_digit s = true -> Py.int s = Py.parse_digits 0 false s.
Proof.
  intros H. unfold Py.int, Py.strip.
  destruct s as [|c s]; [reflexivity|].
  pose proof H as H'. cbn [all_chars] in H'. apply andb_true_iff in H'.
  destruct H' as [Hc _]. destruct (digit_facts c Hc) as (Hsp & _ & _ & Hplus & Hminus).
  rewrite (lstrip_head c s Hsp), rstrip_no_space.
  - now rewrite Hplus, Hminus.
  - eapply all_chars_impl; [|exact H]. intros a Ha.
    destruct (digit_facts a Ha) as (-> & _). reflexivity.
Qed.

(** [int(str(i)) == i] for an index. *)
Lemma int_str (i : nat) : Py.int (Py.str (Z.of_nat i)) = Some (Z.of_nat i).
Proof.
  assert (Hi : (0 <= Z.of_nat i)%Z) by lia.
  rewrite int_of_digits by now apply str_all_digits.
  rewrite str_nonneg by exact Hi.
  destruct (parse_str_digits (S (Z.to_nat (Z.log2 (Z.of_nat i)))) (Z.of_nat i) "" 0 false)
    as (k & E & _).
  - split; [lia | now apply enough_fuel].
  - lia.
  - rewrite E. cbn [Py.parse_digits]. f_equal; lia.
Qed.

(** ** Pointer notation of a search path *)

Lemma unescape_escape (tok : string) : unescape_token (json_pointer_escape tok) = tok.
Proof.
  unfold unescape_token.
  now rewrite escape_expand, unescape_slash_expand, unescape_tilde_expand.
Qed.

Lemma split_plain (x : string) :
  all_chars not_slash x = true -> Py.split "/" x = [x].
Proof.
  induction x as [|c x IH]; [reflexivity|]. cbn [all_chars Py.split].
  intros H. apply andb_true_iff in H. destruct H as [Hc Hx].
  unfold not_slash in Hc. apply negb_true_iff in Hc. now rewrite Hc, (IH Hx).
Qed.

Lemma split_part_slash (x r : string) :
  all_chars not_slash x = true ->
  Py.split "/" (x ++ String "/" r) = x :: Py.split "/" r.
Proof.
  induction x as [|c x IH]; [reflexivity|]. cbn [all_chars Py.split String.append].
  intros H. apply andb_true_iff in H. destruct H as [Hc Hx].
  unfold not_slash in Hc. apply negb_true_iff in Hc. now rewrite Hc, (IH Hx).
Qed.

Lemma join_cons2 (x y : string) (l : list string) :
  Py.join "/" (x :: y :: l) = x ++ String "/" (Py.join "/" (y :: l)).
Proof. reflexivity. Qed.

Lemma split_join (parts : list string) :
  forallb plain_part parts = true ->
  filter nonempty (Py.split "/" (Py.join "/" parts)) = parts.
Proof.
  induction parts as [|x parts IH]; [reflexivity|].
  cbn [forallb]. intros H. apply andb_true_iff in H. destruct H as [Hx Hparts].
  unfold plain_part in Hx. apply andb_true_iff in Hx. destruct Hx as [Hsl Hne].
  destruct parts as [|y parts].
  - cbn [Py.join String.concat]. rewrite (split_plain x Hsl). cbn [filter].
    now rewrite Hne.
  - rewrite join_cons2, (split_part_slash _ _ Hsl). cbn [filter].
    now rewrite Hne, (IH Hparts).
Qed.

Lemma escape_char_plain (c : ascii) :
  all_chars not_slash (escape_char c) = true /\ nonempty (escape_char c) = true.
Proof.
  unfold escape_char.
  destruct (Ascii.eqb_spec c "~"); [split; reflexivity|].
  destruct (Ascii.eqb c "/") eqn:E; [split; reflexivity|].
  split; [|reflexivity]. cbn [all_chars]. unfold not_slash. now rewrite E.
Qed.

Lemma all_chars_app (p : ascii -> bool) (x y : string) :
  all_chars p (x ++ y) = all_chars p x && all_chars p y.
Proof.
  induction x as [|c x IH]; [reflexivity|]. cbn [String.append all_chars].
  now rewrite IH, andb_assoc.
Qed.

Lemma escape_no_slash (k : string) : all_chars not_slash (json_pointer_escape k) = true.
Proof.
  rewrite escape_expand. induction k as [|c k IH]; [reflexivity|].
  cbn [expand]. rewrite all_chars_app, IH.
  now destruct (escape_char_plain c) as [-> _].
Qed.

Lemma escape_nonempty (k : string) :
  nonempty k = true -> nonempty (json_pointer_escape k) = true.
Proof.
  rewrite escape_expand. destruct k as [|c k]; [discriminate|]. intros _.
  cbn [expand]. destruct (escape_char_plain c) as [_ H].
  destruct (escape_char c); [discriminate | reflexivity].
Qed.

Lemma pointer_part_plain (t : token) :
  addressable t = true -> plain_part (pointer_part t) = true.
Proof.
  intros Ht. unfold plain_part. apply andb_true_iff.
  destruct t as [[k|z|b]|i]; cbn [pointer_part]; try discriminate.
  - split; [apply escape_no_slash|]. apply escape_nonempty. exact Ht.
  - split; [|apply str_nonempty; lia].
    eapply all_chars_impl; [|apply str_all_digits; lia].
    intros c Hc. now destruct (digit_facts c Hc) as (_ & -> & _).
Qed.

Lemma replace_absent (a : ascii) (old new s : string) :
  all_chars (fun c => negb (Ascii.eqb c a)) s = true ->
  Py.replace (String a old) new s = s.
Proof.
  unfold Py.replace. induction s as [|c s IH]; [reflexivity|].
  cbn [all_chars]. intros H. apply andb_true_iff in H. destruct H as [Hc Hs].
  apply negb_true_iff, Ascii.eqb_neq in Hc. cbn [Py.replace_from].
  rewrite prefix_head_neq by congruence. now rewrite (IH Hs).
Qed.

Lemma unescape_pointer_part (t : token) :
  addressable t = true -> unescape_token (pointer_part t) = token_text t.
Proof.
  destruct t as [[k|z|b]|i]; cbn [pointer_part token_text]; intros Ht;
    try discriminate; [apply unescape_escape|].
  assert (H : all_chars not_tilde (Py.str (Z.of_nat i)) = true).
  { eapply all_chars_impl; [|apply str_all_digits; lia].
    intros c Hc. now destruct (digit_facts c Hc) as (_ & _ & -> & _). }
  unfold unescape_token.
  rewrite (replace_absent "~" "1" "/" _ H). exact (replace_absent "~" "0" "~" _ H).
Qed.

Lemma parts_plain (p : list token) :
  forallb addressable p = true -> forallb plain_part (map pointer_part p) = true.
Proof.
  induction p as [|t p IH]; [reflexivity|]. cbn [map forallb].
  intros H. apply andb_true_iff in H. destruct H as [Ht Hp].
  now rewrite (pointer_part_plain t Ht), (IH Hp).
Qed.

Lemma startswith_slash (x : string) : Py.startswith ("/" ++ x) "/" = true.
Proof. unfold Py.startswith. cbn [String.append]. now rewrite prefix_head_eq, prefix_empty. Qed.

(** Decoding the pointer notation of a path without empty keys gives the
    texts of its tokens. *)
Lemma parse_to_path_pointer (p : list token) :
  forallb addressable p = true ->
  parse_pointer (to_path_pointer p) = Ok (map token_text p).
Proof.
  intros Hp. unfold to_path_pointer.
  rewrite parse_pointer_slash by apply startswith_slash. cbn [String.append Py.tail].
  rewrite (split_join _ (parts_plain p Hp)), map_map. f_equal.
  apply map_ext_in. intros t Ht. apply unescape_pointer_part.
  exact (proj1 (forallb_forall addressable p) Hp t Ht).
Qed.

Lemma rstrip_char_keeps (ch : ascii) (s : string) :
  last_not ch s = true -> Py.rstrip_char ch s = s.
Proof.
  induction s as [|c s IH]; [discriminate|]. cbn [last_not Py.rstrip_char].
  destruct s as [|c' s].
  - intros H. apply negb_true_iff in H. cbn [Py.rstrip_char]. now rewrite H.
  - intros H. now rewrite (IH H).
Qed.

Lemma last_not_app (ch : ascii) (x y : string) :
  last_not ch x = true -> last_not ch (y ++ x) = true.
Proof.
  intros Hx. induction y as [|c y IH]; [exact Hx|].
  cbn [String.append last_not]. destruct (y ++ x) eqn:E; [|exact IH].
  cbn in IH. discriminate.
Qed.

Lemma plain_part_last (x : string) : plain_part x = true -> last_not "/" x = true.
Proof.
  unfold plain_part. induction x as [|c x IH]; [discriminate|].
  cbn [all_chars nonempty last_not]. intros H.
  apply andb_true_iff in H. destruct H as [H _].
  apply andb_true_iff in H. destruct H as [Hc Hx].
  destruct x as [|c' x]; [exact Hc|].
  apply IH. now rewrite Hx.
Qed.

Lemma join_last_not (parts : list string) :
  parts <> [] -> forallb plain_part parts = true ->
  last_not "/" (Py.join "/" parts) = true.
Proof.
  induction parts as [|x parts IH]; [congruence|]. intros _.
  cbn [forallb]. intros H. apply andb_true_iff in H. destruct H as [Hx Hparts].
  destruct parts as [|y parts]; [now apply plain_part_last|].
  rewrite join_cons2.
  change (String "/" (Py.join "/" (y :: parts))) with ("/" ++ Py.join "/" (y :: parts)).
  rewrite <- append_assoc. apply last_not_app. apply IH; [discriminate | exact Hparts].
Qed.

(** The show command drops trailing slashes before it parses; on the
    pointer notation of a path without empty keys this changes nothing
    but the root form. *)
Lemma show_to_path_pointer (p : list token) (data : tree) :
  forallb addressable p = true ->
  show (to_path_pointer p) data = resolve data (map token_text p).
Proof.
  intros Hp. unfold show. destruct p as [|t p]; [reflexivity|].
  rewrite rstrip_char_keeps.
  - now rewrite (parse_to_path_pointer _ Hp).
  - unfold to_path_pointer. apply last_not_app.
    apply join_last_not; [discriminate | now apply parts_plain].
Qed.

(** ** Round trip through the pointer notation *)

Lemma key_eqb_refl (k : key) : key_eqb k k = true.
Proof.
  destruct k as [s|z|b]; cbn [key_eqb];
    [apply String.eqb_refl | apply Z.eqb_refl | now destruct b].
Qed.

Lemma existsb_key_in (k : key) (l : list key) :
  In k l -> existsb (key_eqb k) l = true.
Proof.
  intros H. apply existsb_exists. exists k. split; [exact H | apply key_eqb_refl].
Qed.

Lemma lookup_in (k : string) (v : tree) (m : list (key * tree)) :
  distinct (keys m) = true -> In (KStr k, v) m -> lookup k m = Some v.
Proof.
  induction m as [|[k' v'] m IH]; [intros _ []|].
  cbn [keys map fst distinct lookup In]. intros Hd Hin.
  apply andb_true_iff in Hd. destruct Hd as [Hk' Hd]. apply negb_true_iff in Hk'.
  destruct Hin as [E|Hin].
  - injection E as -> ->. now rewrite key_eqb_refl.
  - destruct (key_eqb (KStr k) k') eqn:Ek.
    + apply key_eqb_str in Ek. subst k'.
      rewrite existsb_key_in in Hk'; [discriminate|].
      unfold keys. apply in_map_iff. now exists (KStr k, v).
    + now apply IH.
Qed.

Lemma wf_mapping (m : list (key * tree)) :
  wf_tree (Mapping m) = true ->
  distinct (keys m) = true /\ forall k v, In (k, v) m -> wf_tree v = true.
Proof.
  cbn [wf_tree]. intros H. apply andb_true_iff in H. destruct H as [Hd Hm].
  split; [exact Hd|]. clear Hd.
  induction m as [|[k' v'] m IH]; [intros k v []|].
  apply andb_true_iff in Hm. destruct Hm as [Hv Hm].
  intros k v [E|Hin]; [now injection E as _ <- | now apply (IH Hm k v)].
Qed.

Lemma wf_sequence (l : list tree) (i : nat) (v : tree) :
  wf_tree (Sequence l) = true -> nth_error l i = Some v -> wf_tree v = true.
Proof.
  cbn [wf_tree]. intros H Hn. apply nth_error_In in Hn.
  now apply (proj1 (forallb_forall wf_tree l) H).
Qed.

(** The resolver follows a path of the search, token by token. *)
Lemma resolve_at_path (t : tree) (p : list token) (n : tree) :
  at_path t p n -> wf_tree t = true -> forallb addressable p = true ->
  forall tokens depth, resolve_loop tokens depth t (map token_text p) = Ok n.
Proof.
  induction 1 as [t | m k v p n Hin Hp IH | l i v p n Hnth Hp IH];
    intros Hwf Hadd tokens depth; [reflexivity| |];
    cbn [forallb] in Hadd; apply andb_true_iff in Hadd; destruct Hadd as [Hk Hadd].
  - destruct (wf_mapping m Hwf) as [Hd Hv].
    destruct k as [s|z|b]; try discriminate.
    cbn [map token_text resolve_loop]. rewrite (lookup_in s v m Hd Hin).
    apply IH; [now apply (Hv (KStr s) v) | exact Hadd].
  - cbn [map token_text resolve_loop]. rewrite int_str.
    assert (Hlt : i < List.length l) by (apply nth_error_Some; congruence).
    replace ((Z.of_nat i <? 0)%Z || (Z.of_nat i >=? Z.of_nat (List.length l))%Z)
      with false.
    2:{ symmetry. apply orb_false_iff. rewrite Z.ltb_ge, Z.geb_leb, Z.leb_gt. lia. }
    rewrite Nat2Z.id, Hnth. apply IH; [now apply (wf_sequence l i v) | exact Hadd].
Qed.

(** C2, as amended.  In a tree where no mapping has a key twice, take any
    node and the path of tokens under which the search reaches it; if every
    mapping key on that path is a string and not the empty one, then
    encoding the path to pointer notation, decoding the pointer, and
    resolving the tokens against the same tree gives that node.  The show
    command, which first drops trailing slashes, gives it too. *)
Theorem pointer_roundtrip (t : tree) (p : list token) (n : tree) :
  wf_tree t = true ->
  at_path t p n ->
  forallb addressable p = true ->
  bind (parse_pointer (to_path_pointer p)) (resolve t) = Ok n
  /\ show (to_path_pointer p) t = Ok n.
Proof.
  intros Hwf Hat Hp. split.
  - rewrite (parse_to_path_pointer p Hp). cbn [bind].
    now apply resolve_at_path.
  - rewrite (show_to_path_pointer p t Hp). now apply resolve_at_path.
Qed.

Lemma pointer_roundtrip_witness :
  let t := Mapping [(KStr "a/b", Sequence [Scalar SNone; Mapping [(KStr "c~", Scalar (SInt 7))]])] in
  let p := [TKey (KStr "a/b"); TIdx 1; TKey (KStr "c~")] in
  to_path_pointer p = "/a~1b/1/c~0"
  /\ bind (parse_pointer (to_path_pointer p)) (resolve t) = Ok (Scalar (SInt 7))
  /\ show (to_path_pointer p) t = Ok (Scalar (SInt 7)).
Proof.
  intros t p. split; [reflexivity|].
  apply (pointer_roundtrip t p (Scalar (SInt 7))).
  - reflexivity.
  - subst t p. eapply at_key; [left; reflexivity|].
    eapply at_idx; [reflexivity|].
    eapply at_key; [left; reflexivity|]. apply at_root.
  - reflexivity.
Defined.

(** C2, as stated, fails, in two ways.  Under the empty key the pointer is
    [/], which decodes to no token at all and resolves to the root.  Under
    an integer key, as the YAML document [1: x] has it, the pointer is
    [/1]; it decodes to the string [1], which is no key of the mapping,
    and the resolver exits with KeyNotFound. *)
Lemma pointer_roundtrip_fails :
  (let t := Mapping [(KStr "", Scalar (SInt 1))] in
   wf_tree t = true
   /\ at_path t [TKey (KStr "")] (Scalar (SInt 1))
   /\ to_path_pointer [TKey (KStr "")] = "/"
   /\ bind (parse_pointer (to_path_pointer [TKey (KStr "")])) (resolve t) = Ok t)
  /\ (let t := Mapping [(KInt 1, Scalar (SStr "x"))] in
      wf_tree t = true
      /\ at_path t [TKey (KInt 1)] (Scalar (SStr "x"))
      /\ to_path_pointer [TKey (KInt 1)] = "/1"
      /\ bind (parse_pointer (to_path_pointer [TKey (KInt 1)])) (resolve t)
         = Exit (KeyNotFound "/" "1" [KInt 1] false))
  /\ ~ (forall (t : tree) (p : list token) (n : tree),
          wf_tree t = true -> at_path t p n ->
          bind (parse_pointer (to_path_pointer p)) (resolve t) = Ok n).
Proof.
  split; [|split].
  - cbv zeta. split; [reflexivity|]. split.
    { eapply at_key; [left; reflexivity | apply at_root]. }
    split; reflexivity.
  - cbv zeta. split; [reflexivity|]. split.
    { eapply at_key; [left; reflexivity | apply at_root]. }
    split; reflexivity.
  - intros H.
    specialize (H (Mapping [(KInt 1, Scalar (SStr "x"))]) [TKey (KInt 1)]
                  (Scalar (SStr "x")) eq_refl).
    assert (Hat : at_path (Mapping [(KInt 1, Scalar (SStr "x"))]) [TKey (KInt 1)]
                    (Scalar (SStr "x"))).
    { eapply at_key; [left; reflexivity | apply at_root]. }
    specialize (H Hat). vm_compute in H. discriminate H.
Qed.

(** ** Search engine *)

(** Induction on a tree, with the property assumed for every child. *)
Lemma tree_induction (P : tree -> Prop) :
  (forall x, P (Scalar x)) ->
  (forall l, Forall P l -> P (Sequence l)) ->
  (forall m, Forall (fun kv => P (snd kv)) m -> P (Mapping m)) ->
  forall t, P t.
Proof.
  intros Hscalar Hseq Hmap. fix IH 1. intros [x|l|m].
  - apply Hscalar.
  - apply Hseq. induction l as [|t l IHl]; constructor; [apply IH | exact IHl].
  - apply Hmap. induction m as [|[k v] m IHm]; constructor; [apply IH | exact IHm].
Qed.

Lemma any_search_same (regexes regexes' : list pattern) (s : string) :
  Forall2 same_pattern regexes regexes' ->
  any_search regexes s = any_search regexes' s.
Proof.
  unfold any_search. induction 1 as [|a b l l' Hab _ IH]; [reflexivity|].
  cbn [existsb]. now rewrite (proj1 (Hab s)), IH.
Qed.

Lemma collect_ranges_same (regexes regexes' : list pattern) (s : string) :
  Forall2 same_pattern regexes regexes' ->
  collect_ranges regexes s = collect_ranges regexes' s.
Proof.
  unfold collect_ranges. induction 1 as [|a b l l' Hab _ IH]; [reflexivity|].
  cbn [flat_map]. now rewrite (proj2 (Hab s)), IH.
Qed.

Section Determinism.

Variables regexes regexes' : list pattern.
Hypothesis same : Forall2 same_pattern regexes regexes'.
Variables match_keys match_values : bool.
Variable path_fmt : string.
Variable color : bool.
Variable max_matches : Z.

Lemma colorize_same (s : string) (enabled : bool) :
  colorize s regexes enabled = colorize s regexes' enabled.
Proof. unfold colorize, merged_spans. now rewrite (collect_ranges_same _ _ s same). Qed.

Lemma try_key_same (tokens : list token) (k : key) (out : list string) :
  try_key regexes match_keys path_fmt color max_matches tokens k out
  = try_key regexes' match_keys path_fmt color max_matches tokens k out.
Proof. unfold try_key. now rewrite (any_search_same _ _ _ same), colorize_same. Qed.

Lemma try_value_same (tokens : list token) (v : tree) (out : list string) :
  try_value regexes match_values path_fmt color max_matches tokens v out
  = try_value regexes' match_values path_fmt color max_matches tokens v out.
Proof.
  unfold try_value. destruct v as [x|l|m]; try reflexivity.
  now rewrite (any_search_same _ _ _ same), colorize_same.
Qed.

Lemma descend_same rec rec' (tokens : list token) (v : tree) (out : list string) :
  same_on rec rec' v -> descend rec tokens v out = descend rec' tokens v out.
Proof. intros H. unfold descend. destruct (is_container v); [apply H | reflexivity]. Qed.

Lemma search_entries_same rec rec' (m : list (key * tree)) :
  Forall (fun kv => same_on rec rec' (snd kv)) m ->
  forall tokens out,
    search_entries regexes match_keys match_values path_fmt color max_matches
      rec tokens m out
    = search_entries regexes' match_keys match_values path_fmt color max_matches
        rec' tokens m out.
Proof.
  induction 1 as [|[k v] m Hv _ IH]; intros tokens out; [reflexivity|].
  cbn [search_entries snd] in *. rewrite try_key_same.
  destruct (try_key regexes' match_keys path_fmt color max_matches tokens k out)
    as [out1 [|]]; [reflexivity|].
  rewrite try_value_same.
  destruct (try_value regexes' match_values path_fmt color max_matches
              (tokens ++ [TKey k]) v out1) as [out2 [|]]; [reflexivity|].
  now rewrite (descend_same rec rec' _ v out2 Hv), IH.
Qed.

Lemma search_items_same rec rec' (l : list tree) :
  Forall (same_on rec rec') l ->
  forall tokens idx out,
    search_items regexes match_values path_fmt color max_matches rec tokens idx l out
    = search_items regexes' match_values path_fmt color max_matches rec' tokens idx l out.
Proof.
  induction 1 as [|v l Hv _ IH]; intros tokens idx out; [reflexivity|].
  cbn [search_items]. rewrite try_value_same.
  destruct (try_value regexes' match_values path_fmt color max_matches
              (tokens ++ [TIdx idx]) v out) as [out1 [|]]; [reflexivity|].
  now rewrite (descend_same rec rec' _ v out1 Hv), IH.
Qed.

Lemma search_same (obj : tree) :
  same_on (search regexes match_keys match_values path_fmt color max_matches)
          (search regexes' match_keys match_values path_fmt color max_matches) obj.
Proof.
  induction obj as [x|l IH|m IH] using tree_induction; intros tokens out.
  - cbn [search]. now rewrite (any_search_same _ _ _ same), colorize_same.
  - cbn [search]. destruct (capped max_matches out); [reflexivity|].
    now apply search_items_same.
  - cbn [search]. destruct (capped max_matches out); [reflexivity|].
    now apply search_entries_same.
Qed.

End Determinism.

(** C9. Two runs of the search on the same tree, with patterns that behave
    alike (as two compilations of the same pattern texts do) and the same
    flags, give the same report, record for record; so do two calls of
    [search] from the same token list and the same [out]. *)
Theorem search_deterministic (regexes regexes' : list pattern)
    (match_keys match_values : bool) (path_fmt : string) (color : bool)
    (max_matches : Z) (data : tree) :
  Forall2 same_pattern regexes regexes' ->
  report regexes match_keys match_values path_fmt color max_matches data
  = report regexes' match_keys match_values path_fmt color max_matches data
  /\ forall tokens out,
       search regexes match_keys match_values path_fmt color max_matches data tokens out
       = search regexes' match_keys match_values path_fmt color max_matches data tokens out.
Proof.
  intros Hsame. split; [unfold report|intros tokens out]; now apply search_same.
Qed.

Lemma search_deterministic_witness :
  report [literal "a"] true true "pointer" true 0
    (Mapping [(KStr "a", Sequence [Scalar (SStr "ba"); Scalar (SInt 3)])])
  = report [{| rx_search := fun s => negb (Nat.eqb (List.length (find_all "a" 0 0 s)) 0);
               rx_finditer := find_all "a" 0 0 |}] true true "pointer" true 0
      (Mapping [(KStr "a", Sequence [Scalar (SStr "ba"); Scalar (SInt 3)])]).
Proof.
  apply (search_deterministic [literal "a"]).
  constructor; [|constructor].
  intros s. cbn [literal rx_search rx_finditer]. split; [|reflexivity].
  destruct (find_all "a" 0 0 s); reflexivity.
Defined.

(** ** The paths of the records are paths of nodes *)

Section Paths.

Variable regexes : list pattern.
Variables match_keys match_values : bool.
Variable path_fmt : string.
Variable color : bool.
Variable max_matches : Z.

Lemma try_key_in (tokens : list token) (k : key) (out : list string) (line : string) :
  In line (fst (try_key regexes match_keys path_fmt color max_matches tokens k out)) ->
  In line out
  \/ exists shown, line = record (show_path path_fmt (tokens ++ [TKey k])%list) "(KEY)" shown.
Proof.
  unfold try_key. destruct (match_keys && any_search regexes (key_text k)); cbn [fst]; [|tauto].
  intros H. apply in_app_or in H. destruct H as [H|[<-|[]]]; [tauto|]. right. eauto.
Qed.

Lemma try_value_in (tokens : list token) (v : tree) (out : list string) (line : string) :
  In line (fst (try_value regexes match_values path_fmt color max_matches tokens v out)) ->
  In line out \/ exists shown, line = record (show_path path_fmt tokens) "(VAL)" shown.
Proof.
  unfold try_value. destruct v as [x|l|m]; cbn [fst]; try tauto.
  destruct (match_values && any_search regexes (stringify x)); cbn [fst]; [|tauto].
  intros H. apply in_app_or in H. destruct H as [H|[<-|[]]]; [tauto|]. right. eauto.
Qed.

Lemma descend_in rec (tokens : list token) (v : tree) (out : list string) (line : string) :
  rec_ok path_fmt rec v ->
  In line (descend rec tokens v out) -> In line out \/ emitted_at path_fmt v tokens line.
Proof.
  intros Hrec. unfold descend. destruct (is_container v) eqn:E; [|tauto].
  now apply Hrec.
Qed.

Lemma emitted_below (obj v : tree) (t : token) (tokens : list token) (line : string) :
  (forall p n, at_path v p n -> at_path obj (t :: p) n) ->
  emitted_at path_fmt v (tokens ++ [t])%list line ->
  emitted_at path_fmt obj tokens line.
Proof.
  intros Hcons (p & n & kind & shown & Hp & Hat & ->).
  exists (t :: p), n, kind, shown. split; [discriminate|]. split; [now apply Hcons|].
  now rewrite <- app_assoc.
Qed.

Lemma search_entries_in rec (m0 : list (key * tree)) (tokens : list token) :
  forall m,
    incl m m0 ->
    Forall (fun kv => rec_ok path_fmt rec (snd kv)) m ->
    forall out line,
      In line (search_entries regexes match_keys match_values path_fmt color max_matches
                 rec tokens m out) ->
      In line out \/ emitted_at path_fmt (Mapping m0) tokens line.
Proof.
  induction m as [|[k v] m IH]; intros Hincl Hrec out line; [cbn; tauto|].
  apply Forall_cons_iff in Hrec. destruct Hrec as [Hv Hrec]. cbn [snd] in Hv.
  assert (Hin : In (k, v) m0) by (apply Hincl; now left).
  assert (Hm : incl m m0) by (intros x Hx; apply Hincl; now right).
  assert (Hhere : forall kind shown,
             emitted_at path_fmt (Mapping m0) tokens
               (record (show_path path_fmt (tokens ++ [TKey k])%list) kind shown)).
  { intros kind shown. exists [TKey k], v, kind, shown.
    split; [discriminate|]. split; [|reflexivity].
    eapply at_key; [exact Hin | apply at_root]. }
  cbn [search_entries].
  pose proof (try_key_in tokens k out line) as Hk.
  destruct (try_key regexes match_keys path_fmt color max_matches tokens k out)
    as [out1 ret1]. cbn [fst] in Hk.
  assert (Hk' : In line out1 -> In line out \/ emitted_at path_fmt (Mapping m0) tokens line).
  { intros H. destruct (Hk H) as [H'|[shown ->]]; [tauto | right; apply Hhere]. }
  destruct ret1; [exact Hk'|].
  pose proof (try_value_in (tokens ++ [TKey k])%list v out1 line) as Hval.
  destruct (try_value regexes match_values path_fmt color max_matches
              (tokens ++ [TKey k])%list v out1) as [out2 ret2]. cbn [fst] in Hval.
  assert (Hval' : In line out2 -> In line out \/ emitted_at path_fmt (Mapping m0) tokens line).
  { intros H. destruct (Hval H) as [H'|[shown ->]]; [now apply Hk' | right; apply Hhere]. }
  destruct ret2; [exact Hval'|].
  intros H. destruct (IH Hm Hrec _ _ H) as [H'|H']; [|tauto].
  destruct (descend_in rec _ v out2 line Hv H') as [H''|H'']; [now apply Hval'|].
  right. apply (emitted_below (Mapping m0) v (TKey k)); trivial.
  intros p n Hp. now apply at_key with (v := v).
Qed.

Lemma search_items_in rec (l0 : list tree) (tokens : list token) :
  forall l idx,
    (forall j v, nth_error l j = Some v -> nth_error l0 (idx + j) = Some v) ->
    Forall (rec_ok path_fmt rec) l ->
    forall out line,
      In line (search_items regexes match_values path_fmt color max_matches
                 rec tokens idx l out) ->
      In line out \/ emitted_at path_fmt (Sequence l0) tokens line.
Proof.
  induction l as [|v l IH]; intros idx Hnth Hrec out line; [cbn; tauto|].
  apply Forall_cons_iff in Hrec. destruct Hrec as [Hv Hrec].
  assert (Hin : nth_error l0 idx = Some v).
  { rewrite <- (Nat.add_0_r idx). now apply Hnth. }
  assert (Hl : forall j w, nth_error l j = Some w -> nth_error l0 (S idx + j) = Some w).
  { intros j w Hj. replace (S idx + j) with (idx + S j) by lia. now apply Hnth. }
  assert (Hhere : forall kind shown,
             emitted_at path_fmt (Sequence l0) tokens
               (record (show_path path_fmt (tokens ++ [TIdx idx])%list) kind shown)).
  { intros kind shown. exists [TIdx idx], v, kind, shown.
    split; [discriminate|]. split; [|reflexivity].
    eapply at_idx; [exact Hin | apply at_root]. }
  cbn [search_items].
  pose proof (try_value_in (tokens ++ [TIdx idx])%list v out line) as Hval.
  destruct (try_value regexes match_values path_fmt color max_matches
              (tokens ++ [TIdx idx])%list v out) as [out1 ret1]. cbn [fst] in Hval.
  assert (Hval' : In line out1 -> In line out \/ emitted_at path_fmt (Sequence l0) tokens line).
  { intros H. destruct (Hval H) as [H'|[shown ->]]; [tauto | right; apply Hhere]. }
  destruct ret1; [exact Hval'|].
  intros H. destruct (IH _ Hl Hrec _ _ H) as [H'|H']; [|tauto].
  destruct (descend_in rec _ v out1 line Hv H') as [H''|H'']; [now apply Hval'|].
  right. apply (emitted_below (Sequence l0) v (TIdx idx)); trivial.
  intros p n Hp. now apply at_idx with (v := v).
Qed.

(** Every record a call of [search] adds carries the path of a node of
    the tree, built from [at_path]; the only other record is that of a
    document which is one scalar. *)
Lemma search_paths (obj : tree) :
  forall tokens out line,
    In line (search regexes match_keys match_values path_fmt color max_matches
               obj tokens out) ->
    In line out
    \/ emitted_at path_fmt obj tokens line
    \/ exists x shown,
         obj = Scalar x
         /\ line = record (if String.eqb path_fmt "pointer" then "" else "root")
                     "(VAL)" shown.
Proof.
  induction obj as [x|l IH|m IH] using tree_induction; intros tokens out line.
  - cbn [search]. destruct (capped max_matches out); [tauto|].
    destruct (match_values && any_search regexes (stringify x)); [|tauto].
    intros H. apply in_app_or in H. destruct H as [H|[<-|[]]]; [tauto|].
    right. right. eauto.
  - cbn [search]. destruct (capped max_matches out); [tauto|].
    intros H. apply (search_items_in _ l tokens l 0) in H; [tauto| |].
    + intros j v Hj. exact Hj.
    + eapply Forall_impl; [|exact IH]. intros v Hv Hc tokens' out' line' H'.
      destruct (Hv _ _ _ H') as [?|[?|(x & _ & -> & _)]]; [tauto | tauto | discriminate].
  - cbn [search]. destruct (capped max_matches out); [tauto|].
    intros H. apply (search_entries_in _ m tokens m) in H; [tauto| |].
    + apply incl_refl.
    + eapply Forall_impl; [|exact IH]. intros [k v] Hv Hc tokens' out' line' H'.
      destruct (Hv _ _ _ H') as [?|[?|(x & _ & E & _)]]; [tauto | tauto |].
      cbn [snd] in E. subst v. discriminate.
Qed.

End Paths.

(** C1 does not hold of the code: the cap can be passed.  A call that
    reaches the cap returns, but the loop of the calling level goes on with
    the next entry and may emit again before it tests the cap itself.  With
    the cap at 1 and the pattern [a], the document
    [{"x": {"a": 1}, "a2": 2}] gives two records; and on
    [{"x": {"a": 1, "b": {"a": 1}}, "a2": 2}] the two records given are not
    the first two of the unlimited report. *)
Theorem search_cap_exceeded :
  let run := report [literal "a"] true true "pointer" false in
  let doc := Mapping [(KStr "x", Mapping [(KStr "a", Scalar (SInt 1))]); (KStr "a2", Scalar (SInt 2))] in
  let doc' := Mapping [(KStr "x", Mapping [(KStr "a", Scalar (SInt 1));
                                     (KStr "b", Mapping [(KStr "a", Scalar (SInt 1))])]);
                       (KStr "a2", Scalar (SInt 2))] in
  run 0%Z doc = [record "/x/a" "(KEY)" "a"; record "/a2" "(KEY)" "a2"]
  /\ run 1%Z doc = [record "/x/a" "(KEY)" "a"; record "/a2" "(KEY)" "a2"]
  /\ List.length (run 1%Z doc) = 2
  /\ run 0%Z doc' = [record "/x/a" "(KEY)" "a"; record "/x/b/a" "(KEY)" "a";
                     record "/a2" "(KEY)" "a2"]
  /\ run 1%Z doc' = [record "/x/a" "(KEY)" "a"; record "/a2" "(KEY)" "a2"]
  /\ run 1%Z doc' <> firstn 1 (run 0%Z doc').
Proof.
  cbv zeta. repeat split; try reflexivity.
  vm_compute. discriminate.
Qed.

(** * Further properties of the code *)

(** ** The search only appends *)

Section Appends.

Variable regexes : list pattern.
Variables match_keys match_values : bool.
Variable path_fmt : string.
Variable color : bool.
Variable max_matches : Z.

Lemma try_key_appends (tokens : list token) (k : key) (out : list string) :
  exists added,
    fst (try_key regexes match_keys path_fmt color max_matches tokens k out)
    = (out ++ added)%list.
Proof.
  unfold try_key. destruct (match_keys && any_search regexes (key_text k)); cbn [fst].
  - eauto.
  - exists []. now rewrite app_nil_r.
Qed.

Lemma try_value_appends (tokens : list token) (v : tree) (out : list string) :
  exists added,
    fst (try_value regexes match_values path_fmt color max_matches tokens v out)
    = (out ++ added)%list.
Proof.
  assert (Hnil : exists added, out = (out ++ added)%list)
    by (exists []; now rewrite app_nil_r).
  unfold try_value. destruct v as [x|l|m]; cbn [fst]; trivial.
  destruct (match_values && any_search regexes (stringify x)); cbn [fst]; eauto.
Qed.

Lemma descend_appends rec (tokens : list token) (v : tree) (out : list string) :
  appends rec v -> exists added, descend rec tokens v out = (out ++ added)%list.
Proof.
  intros H. unfold descend. destruct (is_container v); [apply H|].
  exists []. now rewrite app_nil_r.
Qed.

Lemma search_entries_appends rec (m : list (key * tree)) :
  Forall (fun kv => appends rec (snd kv)) m ->
  forall tokens out,
    exists added,
      search_entries regexes match_keys match_values path_fmt color max_matches
        rec tokens m out = (out ++ added)%list.
Proof.
  induction 1 as [|[k v] m Hv _ IH]; intros tokens out.
  - exists []. cbn. now rewrite app_nil_r.
  - cbn [search_entries snd] in *.
    destruct (try_key_appends tokens k out) as [a1 E1].
    destruct (try_key regexes match_keys path_fmt color max_matches tokens k out)
      as [out1 ret1]. cbn [fst] in E1. subst out1.
    destruct ret1; [eauto|].
    destruct (try_value_appends (tokens ++ [TKey k])%list v (out ++ a1)%list) as [a2 E2].
    destruct (try_value regexes match_values path_fmt color max_matches
                (tokens ++ [TKey k])%list v (out ++ a1)%list) as [out2 ret2].
    cbn [fst] in E2. subst out2.
    destruct ret2; [exists (a1 ++ a2)%list; now rewrite app_assoc|].
    destruct (descend_appends rec (tokens ++ [TKey k])%list v ((out ++ a1) ++ a2)%list Hv)
      as [a3 E3]. rewrite E3.
    destruct (IH tokens (((out ++ a1) ++ a2) ++ a3)%list) as [a4 E4]. rewrite E4.
    exists (a1 ++ a2 ++ a3 ++ a4)%list. now rewrite !app_assoc.
Qed.

Lemma search_items_appends rec (l : list tree) :
  Forall (appends rec) l ->
  forall tokens idx out,
    exists added,
      search_items regexes match_values path_fmt color max_matches
        rec tokens idx l out = (out ++ added)%list.
Proof.
  induction 1 as [|v l Hv _ IH]; intros tokens idx out.
  - exists []. cbn. now rewrite app_nil_r.
  - cbn [search_items].
    destruct (try_value_appends (tokens ++ [TIdx idx])%list v out) as [a1 E1].
    destruct (try_value regexes match_values path_fmt color max_matches
                (tokens ++ [TIdx idx])%list v out) as [out1 ret1].
    cbn [fst] in E1. subst out1.
    destruct ret1; [eauto|].
    destruct (descend_appends rec (tokens ++ [TIdx idx])%list v (out ++ a1)%list Hv)
      as [a2 E2]. rewrite E2.
    destruct (IH tokens (S idx) ((out ++ a1) ++ a2)%list) as [a3 E3]. rewrite E3.
    exists (a1 ++ a2 ++ a3)%list. now rewrite !app_assoc.
Qed.

Lemma search_appends (obj : tree) :
  appends (search regexes match_keys match_values path_fmt color max_matches) obj.
Proof.
  induction obj as [x|l IH|m IH] using tree_induction; intros tokens out;
    cbn [search];
    (destruct (capped max_matches out);
     [exists []; now rewrite app_nil_r|]).
  - destruct (match_values && any_search regexes (stringify x)); [eauto|].
    exists []. now rewrite app_nil_r.
  - now apply search_items_appends.
  - now apply search_entries_appends.
Qed.

End Appends.

(** X1. A call of [search] keeps every record that [out] already holds,
    in place: the result is [out] followed by the records the call adds, so
    it is never shorter than [out]. *)
Theorem search_only_appends (regexes : list pattern) (match_keys match_values : bool)
    (path_fmt : string) (color : bool) (max_matches : Z)
    (obj : tree) (tokens : list token) (out : list string) :
  let out' := search regexes match_keys match_values path_fmt color max_matches
                obj tokens out in
  firstn (List.length out) out' = out /\ List.length out <= List.length out'.
Proof.
  cbv zeta.
  destruct (search_appends regexes match_keys match_values path_fmt color max_matches
              obj tokens out) as [added ->].
  split.
  - rewrite firstn_app, Nat.sub_diag, firstn_all. cbn. now rewrite app_nil_r.
  - rewrite length_app. lia.
Qed.

(** ** Every record is a hit *)

Section Sound.

Variable regexes : list pattern.
Variables match_keys match_values : bool.
Variable path_fmt : string.
Variable color : bool.
Variable max_matches : Z.

Lemma try_key_hit (tokens : list token) (k : key) (out : list string) (line : string) :
  In line (fst (try_key regexes match_keys path_fmt color max_matches tokens k out)) ->
  In line out
  \/ (match_keys = true /\ any_search regexes (key_text k) = true
      /\ line = record (show_path path_fmt (tokens ++ [TKey k])%list) "(KEY)"
                  (colorize (key_text k) regexes color)).
Proof.
  unfold try_key. destruct match_keys; cbn [andb]; [|cbn; tauto].
  destruct (any_search regexes (key_text k)); cbn [fst]; [|tauto].
  intros H. apply in_app_or in H. destruct H as [H|[<-|[]]]; [tauto|]. right. auto.
Qed.

Lemma try_value_hit (tokens : list token) (v : tree) (out : list string) (line : string) :
  In line (fst (try_value regexes match_values path_fmt color max_matches tokens v out)) ->
  In line out
  \/ exists x,
       v = Scalar x /\ match_values = true /\ any_search regexes (stringify x) = true
       /\ line = record (show_path path_fmt tokens) "(VAL)"
                   (colorize (stringify x) regexes color).
Proof.
  unfold try_value. destruct v as [x|l|m]; cbn [fst]; try tauto.
  destruct match_values; cbn [andb]; [|cbn; tauto].
  destruct (any_search regexes (stringify x)) eqn:E; cbn [fst]; [|tauto].
  intros H. apply in_app_or in H. destruct H as [H|[<-|[]]]; [tauto|]. right.
  exists x. auto.
Qed.

Lemma hit_below (obj v : tree) (t : token) (tokens : list token) (line : string) :
  (forall p n, at_path v p n -> at_path obj (t :: p) n) ->
  is_container v = true ->
  hit regexes match_keys match_values path_fmt color v (tokens ++ [t])%list line ->
  hit regexes match_keys match_values path_fmt color obj tokens line.
Proof.
  intros Hcons Hc [H|[H|H]].
  - destruct H as (p & m & k & w & Hat & Hin & Hk & Hs & ->).
    left. exists (t :: p), m, k, w. repeat split; trivial; [now apply Hcons|].
    now rewrite <- !app_assoc.
  - destruct H as (p & x & Hp & Hat & Hv & Hs & ->).
    right. left. exists (t :: p), x. repeat split; trivial;
      [discriminate | now apply Hcons | now rewrite <- app_assoc].
  - destruct H as (x & -> & _). discriminate.
Qed.

Lemma descend_hit rec (tokens : list token) (v : tree) (out : list string) (line : string) :
  rec_sound regexes match_keys match_values path_fmt color rec v ->
  In line (descend rec tokens v out) ->
  In line out
  \/ (is_container v = true
      /\ hit regexes match_keys match_values path_fmt color v tokens line).
Proof.
  intros Hrec. unfold descend. destruct (is_container v) eqn:E; [|tauto].
  intros H. destruct (Hrec E _ _ _ H); tauto.
Qed.

Lemma search_entries_hit rec (m0 : list (key * tree)) (tokens : list token) :
  forall m,
    incl m m0 ->
    Forall (fun kv => rec_sound regexes match_keys match_values path_fmt color
                        rec (snd kv)) m ->
    forall out line,
      In line (search_entries regexes match_keys match_values path_fmt color max_matches
                 rec tokens m out) ->
      In line out
      \/ hit regexes match_keys match_values path_fmt color (Mapping m0) tokens line.
Proof.
  induction m as [|[k v] m IH]; intros Hincl Hrec out line; [cbn; tauto|].
  apply Forall_cons_iff in Hrec. destruct Hrec as [Hv Hrec]. cbn [snd] in Hv.
  assert (Hin : In (k, v) m0) by (apply Hincl; now left).
  assert (Hm : incl m m0) by (intros x Hx; apply Hincl; now right).
  cbn [search_entries].
  pose proof (try_key_hit tokens k out line) as Hk.
  destruct (try_key regexes match_keys path_fmt color max_matches tokens k out)
    as [out1 ret1]. cbn [fst] in Hk.
  assert (Hk' : In line out1 ->
                In line out
                \/ hit regexes match_keys match_values path_fmt color (Mapping m0) tokens line).
  { intros H. destruct (Hk H) as [H'|(Hmk & Hs & ->)]; [tauto|].
    right. left. exists [], m0, k, v. repeat split; trivial. apply at_root. }
  destruct ret1; [exact Hk'|].
  pose proof (try_value_hit (tokens ++ [TKey k])%list v out1 line) as Hval.
  destruct (try_value regexes match_values path_fmt color max_matches
              (tokens ++ [TKey k])%list v out1) as [out2 ret2]. cbn [fst] in Hval.
  assert (Hval' : In line out2 ->
                  In line out
                  \/ hit regexes match_keys match_values path_fmt color (Mapping m0) tokens line).
  { intros H. destruct (Hval H) as [H'|(x & -> & Hmv & Hs & ->)]; [now apply Hk'|].
    right. right. left. exists [TKey k], x. repeat split; trivial; [discriminate|].
    eapply at_key; [exact Hin | apply at_root]. }
  destruct ret2; [exact Hval'|].
  intros H. destruct (IH Hm Hrec _ _ H) as [H'|H']; [|tauto].
  destruct (descend_hit rec _ v out2 line Hv H') as [H''|[Hc H'']]; [now apply Hval'|].
  right. apply (hit_below (Mapping m0) v (TKey k)); trivial.
  intros p n Hp. now apply at_key with (v := v).
Qed.

Lemma search_items_hit rec (l0 : list tree) (tokens : list token) :
  forall l idx,
    (forall j v, nth_error l j = Some v -> nth_error l0 (idx + j) = Some v) ->
    Forall (rec_sound regexes match_keys match_values path_fmt color rec) l ->
    forall out line,
      In line (search_items regexes match_values path_fmt color max_matches
                 rec tokens idx l out) ->
      In line out
      \/ hit regexes match_keys match_values path_fmt color (Sequence l0) tokens line.
Proof.
  induction l as [|v l IH]; intros idx Hnth Hrec out line; [cbn; tauto|].
  apply Forall_cons_iff in Hrec. destruct Hrec as [Hv Hrec].
  assert (Hin : nth_error l0 idx = Some v).
  { rewrite <- (Nat.add_0_r idx). now apply Hnth. }
  assert (Hl : forall j w, nth_error l j = Some w -> nth_error l0 (S idx + j) = Some w).
  { intros j w Hj. replace (S idx + j) with (idx + S j) by lia. now apply Hnth. }
  cbn [search_items].
  pose proof (try_value_hit (tokens ++ [TIdx idx])%list v out line) as Hval.
  destruct (try_value regexes match_values path_fmt color max_matches
              (tokens ++ [TIdx idx])%list v out) as [out1 ret1]. cbn [fst] in Hval.
  assert (Hval' : In line out1 ->
                  In line out
                  \/ hit regexes match_keys match_values path_fmt color (Sequence l0) tokens line).
  { intros H. destruct (Hval H) as [H'|(x & -> & Hmv & Hs & ->)]; [tauto|].
    right. right. left. exists [TIdx idx], x. repeat split; trivial; [discriminate|].
    eapply at_idx; [exact Hin | apply at_root]. }
  destruct ret1; [exact Hval'|].
  intros H. destruct (IH _ Hl Hrec _ _ H) as [H'|H']; [|tauto].
  destruct (descend_hit rec _ v out1 line Hv H') as [H''|[Hc H'']]; [now apply Hval'|].
  right. apply (hit_below (Sequence l0) v (TIdx idx)); trivial.
  intros p n Hp. now apply at_idx with (v := v).
Qed.

Lemma search_hit (obj : tree) :
  forall tokens out line,
    In line (search regexes match_keys match_values path_fmt color max_matches
               obj tokens out) ->
    In line out \/ hit regexes match_keys match_values path_fmt color obj tokens line.
Proof.
  induction obj as [x|l IH|m IH] using tree_induction; intros tokens out line.
  - cbn [search]. destruct (capped max_matches out); [tauto|].
    destruct match_values eqn:Emv; cbn [andb]; [|tauto].
    destruct (any_search regexes (stringify x)) eqn:Es; [|tauto].
    intros H. apply in_app_or in H. destruct H as [H|[<-|[]]]; [tauto|].
    right. right. right. exists x. auto.
  - cbn [search]. destruct (capped max_matches out); [tauto|].
    intros H. apply (search_items_hit _ l tokens l 0) in H; trivial.
    eapply Forall_impl; [|exact IH]. intros v Hv Hc tokens' out' line' H'.
    now apply Hv.
  - cbn [search]. destruct (capped max_matches out); [tauto|].
    intros H. apply (search_entries_hit _ m tokens m) in H; trivial.
    + apply incl_refl.
    + eapply Forall_impl; [|exact IH]. intros [k v] Hv Hc tokens' out' line' H'.
      now apply Hv.
Qed.

End Sound.

(** X2. Every record of a report, whatever the cap, is the record of a
    hit: the KEY record of a mapping entry whose key matches a pattern
    (keys searched), or the VAL record of a scalar whose text matches
    (values searched), with the path of that node and the highlighted text.
    So with keys only no VAL record is printed, and with values only no KEY
    record. *)
Theorem report_records_are_hits (regexes : list pattern) (match_keys match_values : bool)
    (path_fmt : string) (color : bool) (max_matches : Z) (data : tree) (line : string) :
  In line (report regexes match_keys match_values path_fmt color max_matches data) ->
  hit regexes match_keys match_values path_fmt color data [] line
  /\ (match_values = false -> exists path shown, line = record path "(KEY)" shown)
  /\ (match_keys = false -> exists path shown, line = record path "(VAL)" shown).
Proof.
  intros H. unfold report in H. apply search_hit in H. destruct H as [[]|H].
  split; [exact H|]. split; intros Hf.
  - destruct H as [H|[H|H]].
    + destruct H as (p & m & k & v & _ & _ & _ & _ & ->). eauto.
    + destruct H as (p & x & _ & _ & Hmv & _). congruence.
    + destruct H as (x & _ & Hmv & _). congruence.
  - destruct H as [H|[H|H]].
    + destruct H as (p & m & k & v & _ & _ & Hmk & _). congruence.
    + destruct H as (p & x & _ & _ & _ & _ & ->). eauto.
    + destruct H as (x & _ & _ & _ & ->). eauto.
Qed.

Lemma report_records_are_hits_witness :
  let line := record "/a/1" "(VAL)" "2" in
  let doc := Mapping [(KStr "a", Sequence [Scalar (SInt 1); Scalar (SInt 2); Scalar (SInt 3)])] in
  hit [literal "2"] false true "pointer" false doc [] line
  /\ exists path shown, line = record path "(VAL)" shown.
Proof.
  intros line doc.
  destruct (report_records_are_hits [literal "2"] false true "pointer" false 0 doc line)
    as (H1 & _ & H3).
  - left. reflexivity.
  - split; [exact H1 | exact (H3 eq_refl)].
Defined.

(** ** Without a cap every hit is reported *)

Lemma appends_in (out r : list string) (line : string) :
  (exists added, r = (out ++ added)%list) -> In line out -> In line r.
Proof. intros [added ->] H. apply in_or_app. now left. Qed.

Lemma at_path_container (v : tree) (p : list token) (n : tree) :
  at_path v p n -> (p <> [] \/ is_container n = true) -> is_container v = true.
Proof. intros H Hc. destruct H; [destruct Hc; [congruence | assumption] | reflexivity..]. Qed.

Section Complete.

Variable regexes : list pattern.
Variables match_keys match_values : bool.
Variable path_fmt : string.
Variable color : bool.

Let S0 := search regexes match_keys match_values path_fmt color 0.

Lemma entries_uncapped_step (k : key) (v : tree) (m : list (key * tree))
    (tokens : list token) (out : list string) :
  search_entries regexes match_keys match_values path_fmt color 0 S0 tokens ((k, v) :: m) out
  = search_entries regexes match_keys match_values path_fmt color 0 S0 tokens m
      (descend S0 (tokens ++ [TKey k])%list v
         (fst (try_value regexes match_values path_fmt color 0 (tokens ++ [TKey k])%list v
                 (fst (try_key regexes match_keys path_fmt color 0 tokens k out))))).
Proof.
  cbn [search_entries]. unfold try_key, try_value.
  destruct (match_keys && any_search regexes (key_text k)); cbn [fst capped Z.eqb negb andb];
    destruct v as [x|l|m']; cbn [fst]; try reflexivity;
    destruct (match_values && any_search regexes (stringify x)); reflexivity.
Qed.

Lemma items_uncapped_step (v : tree) (l : list tree) (tokens : list token) (idx : nat)
    (out : list string) :
  search_items regexes match_values path_fmt color 0 S0 tokens idx (v :: l) out
  = search_items regexes match_values path_fmt color 0 S0 tokens (S idx) l
      (descend S0 (tokens ++ [TIdx idx])%list v
         (fst (try_value regexes match_values path_fmt color 0 (tokens ++ [TIdx idx])%list v
                 out))).
Proof.
  cbn [search_items]. unfold try_value.
  destruct v as [x|l'|m']; cbn [fst]; try reflexivity.
  destruct (match_values && any_search regexes (stringify x)); reflexivity.
Qed.

Lemma entries_keep (m : list (key * tree)) (tokens : list token) (out : list string)
    (line : string) :
  In line out ->
  In line (search_entries regexes match_keys match_values path_fmt color 0 S0 tokens m out).
Proof.
  apply appends_in. apply search_entries_appends.
  apply Forall_forall. intros kv _. apply search_appends.
Qed.

Lemma items_keep (l : list tree) (tokens : list token) (idx : nat) (out : list string)
    (line : string) :
  In line out ->
  In line (search_items regexes match_values path_fmt color 0 S0 tokens idx l out).
Proof.
  apply appends_in. apply search_items_appends.
  apply Forall_forall. intros v _. apply search_appends.
Qed.

Lemma descend_keep (tokens : list token) (v : tree) (out : list string) (line : string) :
  In line out -> In line (descend S0 tokens v out).
Proof. apply appends_in. apply descend_appends. apply search_appends. Qed.

Lemma try_value_keep (tokens : list token) (v : tree) (out : list string) (line : string) :
  In line out ->
  In line (fst (try_value regexes match_values path_fmt color 0 tokens v out)).
Proof. apply appends_in. apply try_value_appends. Qed.

(** What one entry of a mapping contributes to the unlimited loop. *)
Lemma entries_complete (m : list (key * tree)) (k : key) (v : tree)
    (tokens : list token) (line : string) :
  In (k, v) m ->
  (match_keys = true /\ any_search regexes (key_text k) = true
   /\ line = record (show_path path_fmt (tokens ++ [TKey k])%list) "(KEY)"
               (colorize (key_text k) regexes color))
  \/ (exists x, v = Scalar x /\ match_values = true
        /\ any_search regexes (stringify x) = true
        /\ line = record (show_path path_fmt (tokens ++ [TKey k])%list) "(VAL)"
                    (colorize (stringify x) regexes color))
  \/ (is_container v = true
      /\ forall out', In line (S0 v (tokens ++ [TKey k])%list out')) ->
  forall out,
    In line (search_entries regexes match_keys match_values path_fmt color 0 S0
               tokens m out).
Proof.
  induction m as [|[k0 v0] m IH]; intros Hin Hcase out; [destruct Hin|].
  rewrite entries_uncapped_step. destruct Hin as [E|Hin]; [|now apply IH].
  injection E as -> ->. apply entries_keep.
  destruct Hcase as [(Hmk & Hs & ->)|[(x & -> & Hmv & Hs & ->)|(Hc & Hrec)]].
  - apply descend_keep, try_value_keep. unfold try_key. rewrite Hmk, Hs. cbn.
    apply in_or_app. right. now left.
  - apply descend_keep. unfold try_value. rewrite Hmv, Hs. cbn.
    apply in_or_app. right. now left.
  - unfold descend. rewrite Hc. apply Hrec.
Qed.

Lemma items_complete (l : list tree) (j : nat) (v : tree) (tokens : list token)
    (line : string) :
  forall idx,
    nth_error l j = Some v ->
    (exists x, v = Scalar x /\ match_values = true
       /\ any_search regexes (stringify x) = true
       /\ line = record (show_path path_fmt (tokens ++ [TIdx (idx + j)])%list) "(VAL)"
                   (colorize (stringify x) regexes color))
    \/ (is_container v = true
        /\ forall out', In line (S0 v (tokens ++ [TIdx (idx + j)])%list out')) ->
    forall out,
      In line (search_items regexes match_values path_fmt color 0 S0 tokens idx l out).
Proof.
  revert j. induction l as [|v0 l IH]; intros j idx Hnth Hcase out.
  { destruct j; discriminate. }
  rewrite items_uncapped_step. destruct j as [|j].
  - injection Hnth as ->. rewrite Nat.add_0_r in Hcase. apply items_keep.
    destruct Hcase as [(x & -> & Hmv & Hs & ->)|(Hc & Hrec)].
    + apply descend_keep. unfold try_value. rewrite Hmv, Hs. cbn.
      apply in_or_app. right. now left.
    + unfold descend. rewrite Hc. apply Hrec.
  - apply (IH j (S idx)); [exact Hnth|].
    replace (S idx + j) with (idx + S j) by lia. exact Hcase.
Qed.

Lemma search_mapping_uncapped (m : list (key * tree)) (tokens : list token)
    (out : list string) :
  S0 (Mapping m) tokens out
  = search_entries regexes match_keys match_values path_fmt color 0 S0 tokens m out.
Proof. reflexivity. Qed.

Lemma search_sequence_uncapped (l : list tree) (tokens : list token) (out : list string) :
  S0 (Sequence l) tokens out
  = search_items regexes match_values path_fmt color 0 S0 tokens 0 l out.
Proof. reflexivity. Qed.

Lemma key_complete (obj : tree) (p : list token) (n : tree) :
  at_path obj p n ->
  forall m k v,
    n = Mapping m -> In (k, v) m ->
    match_keys = true -> any_search regexes (key_text k) = true ->
    forall tokens out,
      In (record (show_path path_fmt (tokens ++ p ++ [TKey k])%list) "(KEY)"
            (colorize (key_text k) regexes color))
         (S0 obj tokens out).
Proof.
  induction 1 as [t | m1 k1 v1 p n Hin1 Hp IH | l i v1 p n Hnth Hp IH];
    intros m k v En Hin Hmk Hs tokens out.
  - subst t. rewrite search_mapping_uncapped. apply (entries_complete m k v); auto.
  - rewrite search_mapping_uncapped. apply (entries_complete m1 k1 v1); trivial.
    right. right. split.
    + apply (at_path_container v1 p n Hp). right. now subst n.
    + intros out'. specialize (IH m k v En Hin Hmk Hs (tokens ++ [TKey k1])%list out').
      now rewrite <- app_assoc in IH.
  - rewrite search_sequence_uncapped. apply (items_complete l i v1 tokens _ 0); trivial.
    right. split.
    + apply (at_path_container v1 p n Hp). right. now subst n.
    + intros out'. specialize (IH m k v En Hin Hmk Hs (tokens ++ [TIdx i])%list out').
      now rewrite <- app_assoc in IH.
Qed.

Lemma value_complete (obj : tree) (p : list token) (n : tree) :
  at_path obj p n ->
  forall x,
    n = Scalar x -> p <> [] ->
    match_values = true -> any_search regexes (stringify x) = true ->
    forall tokens out,
      In (record (show_path path_fmt (tokens ++ p)%list) "(VAL)"
            (colorize (stringify x) regexes color))
         (S0 obj tokens out).
Proof.
  induction 1 as [t | m1 k1 v1 p n Hin1 Hp IH | l i v1 p n Hnth Hp IH];
    intros x En Hne Hmv Hs tokens out; [congruence| |].
  - rewrite search_mapping_uncapped. apply (entries_complete m1 k1 v1); trivial.
    destruct p as [|t p].
    + right. left. inversion Hp; subst. eauto.
    + right. right. split.
      * apply (at_path_container v1 _ n Hp). left. discriminate.
      * intros out'.
        assert (Hne' : t :: p <> []) by discriminate.
        specialize (IH x En Hne' Hmv Hs (tokens ++ [TKey k1])%list out').
        now rewrite <- app_assoc in IH.
  - rewrite search_sequence_uncapped. apply (items_complete l i v1 tokens _ 0); trivial.
    destruct p as [|t p].
    + left. inversion Hp; subst. eauto.
    + right. split.
      * apply (at_path_container v1 _ n Hp). left. discriminate.
      * intros out'.
        assert (Hne' : t :: p <> []) by discriminate.
        specialize (IH x En Hne' Hmv Hs (tokens ++ [TIdx i])%list out').
        now rewrite <- app_assoc in IH.
Qed.

Lemma hit_complete (obj : tree) (tokens : list token) (out : list string) (line : string) :
  hit regexes match_keys match_values path_fmt color obj tokens line ->
  In line (S0 obj tokens out).
Proof.
  intros [H|[H|H]].
  - destruct H as (p & m & k & v & Hat & Hin & Hmk & Hs & ->).
    now apply (key_complete obj p (Mapping m) Hat m k v).
  - destruct H as (p & x & Hp & Hat & Hmv & Hs & ->).
    now apply (value_complete obj p (Scalar x) Hat x).
  - destruct H as (x & -> & Hmv & Hs & ->). subst S0. cbn [search].
    cbn [capped Z.eqb negb andb]. rewrite Hmv, Hs. cbn [andb].
    apply in_or_app. right. now left.
Qed.

End Complete.

(** X3. With no cap ([max_matches] 0) the report lists exactly the hits:
    a line is in the report if and only if it is the KEY record of a
    matching key of some mapping of the document (keys searched) or the VAL
    record of a matching scalar (values searched). *)
Theorem unlimited_report_is_the_hits (regexes : list pattern)
    (match_keys match_values : bool) (path_fmt : string) (color : bool)
    (data : tree) (line : string) :
  In line (report regexes match_keys match_values path_fmt color 0 data)
  <-> hit regexes match_keys match_values path_fmt color data [] line.
Proof.
  unfold report. split.
  - intros H. apply search_hit in H. destruct H as [[]|H]. exact H.
  - apply hit_complete.
Qed.

(** X4. A cap never brings in a record: every record of a capped report
    is a record of the unlimited report of the same search. *)
Theorem capped_report_within_unlimited (regexes : list pattern)
    (match_keys match_values : bool) (path_fmt : string) (color : bool)
    (max_matches : Z) (data : tree) (line : string) :
  In line (report regexes match_keys match_values path_fmt color max_matches data) ->
  In line (report regexes match_keys match_values path_fmt color 0 data).
Proof.
  unfold report. intros H. apply search_hit in H. destruct H as [[]|H].
  now apply hit_complete.
Qed.

Lemma capped_report_within_unlimited_witness :
  In (record "/a2" "(KEY)" "a2")
     (report [literal "a"] true true "pointer" false 0
        (Mapping [(KStr "x", Mapping [(KStr "a", Scalar (SInt 1))]); (KStr "a2", Scalar (SInt 2))])).
Proof.
  apply (capped_report_within_unlimited [literal "a"] true true "pointer" false 1).
  right. left. reflexivity.
Defined.

(** ** What the cap keeps *)

Lemma firstn_app_long (n : nat) (o a : list string) :
  n <= List.length o -> firstn n (o ++ a)%list = firstn n o.
Proof.
  intros H. rewrite firstn_app. replace (n - List.length o) with 0 by lia.
  cbn. now rewrite app_nil_r.
Qed.

Lemma firstn_short (n : nat) (o : list string) :
  List.length o < n -> firstn n o = o.
Proof. intros H. apply firstn_all2. lia. Qed.

Lemma firstn_same_short (n : nat) (oN o0 : list string) :
  firstn n oN = firstn n o0 -> List.length oN < n -> o0 = oN.
Proof.
  intros E Hlen. rewrite (firstn_short n oN Hlen) in E.
  assert (Hl : List.length (firstn n o0) = List.length oN) by now rewrite <- E.
  rewrite length_firstn in Hl.
  rewrite <- (firstn_short n o0) by lia. now symmetry.
Qed.

Lemma agree_from_same (n : nat) recN rec0 (v : tree) :
  appends recN v -> appends rec0 v ->
  (forall tokens out, firstn n (recN v tokens out) = firstn n (rec0 v tokens out)) ->
  agree_on n recN rec0 v.
Proof.
  intros HaN Ha0 Hsame tokens oN o0 E.
  destruct (Nat.lt_ge_cases (List.length oN) n) as [Hlt|Hge].
  - rewrite (firstn_same_short n oN o0 E Hlt). apply Hsame.
  - assert (Hge0 : n <= List.length o0).
    { assert (Hl : List.length (firstn n oN) = List.length (firstn n o0)) by now rewrite E.
      rewrite !length_firstn in Hl. lia. }
    destruct (HaN tokens oN) as [a ->]. destruct (Ha0 tokens o0) as [b ->].
    now rewrite !firstn_app_long.
Qed.

Section Cap.

Variable regexes : list pattern.
Variables match_keys match_values : bool.
Variable path_fmt : string.
Variable color : bool.
Variable N : Z.
Hypothesis Npos : (0 < N)%Z.

Lemma capped_long (out : list string) :
  capped N out = true <-> Z.to_nat N <= List.length out.
Proof.
  unfold capped. rewrite andb_true_iff, negb_true_iff, Z.eqb_neq, Z.geb_le. lia.
Qed.

Lemma capped_zero (out : list string) : capped 0 out = false.
Proof. reflexivity. Qed.

Lemma try_key_cap (tokens : list token) (k : key) (out : list string) :
  let r := try_key regexes match_keys path_fmt color N tokens k out in
  try_key regexes match_keys path_fmt color 0 tokens k out = (fst r, false)
  /\ (snd r = true -> Z.to_nat N <= List.length (fst r))
  /\ (snd r = false -> List.length out < Z.to_nat N ->
      List.length (fst r) < Z.to_nat N).
Proof.
  cbv zeta. unfold try_key. destruct (match_keys && any_search regexes (key_text k)); cbn [fst snd].
  - split; [reflexivity|]. split; intros H.
    + now apply capped_long.
    + intros _. destruct (Nat.lt_ge_cases
        (List.length (out ++ [record (show_path path_fmt (tokens ++ [TKey k])) "(KEY)"
                                (colorize (key_text k) regexes color)])%list) (Z.to_nat N)) as [Hlt|Hge];
        [exact Hlt|]. apply capped_long in Hge. congruence.
  - split; [reflexivity|]. split; [discriminate | auto].
Qed.

Lemma try_value_cap (tokens : list token) (v : tree) (out : list string) :
  let r := try_value regexes match_values path_fmt color N tokens v out in
  try_value regexes match_values path_fmt color 0 tokens v out = (fst r, false)
  /\ (snd r = true -> Z.to_nat N <= List.length (fst r))
  /\ (snd r = false -> List.length out < Z.to_nat N ->
      List.length (fst r) < Z.to_nat N).
Proof.
  cbv zeta. unfold try_value.
  destruct v as [x|l|m]; cbn [fst snd];
    try (split; [reflexivity|]; split; [discriminate | auto]).
  destruct (match_values && any_search regexes (stringify x)); cbn [fst snd].
  - split; [reflexivity|]. split; intros H.
    + now apply capped_long.
    + intros _. destruct (Nat.lt_ge_cases
        (List.length (out ++ [record (show_path path_fmt tokens) "(VAL)"
                                (colorize (stringify x) regexes color)])%list)
        (Z.to_nat N)) as [Hlt|Hge]; [exact Hlt|].
      apply capped_long in Hge. congruence.
  - split; [reflexivity|]. split; [discriminate | auto].
Qed.

Lemma search_entries_first_n recN rec0 (m : list (key * tree)) (tokens : list token) :
  Forall (fun kv => agree_on (Z.to_nat N) recN rec0 (snd kv)
                    /\ appends recN (snd kv) /\ appends rec0 (snd kv)) m ->
  forall oN o0,
    firstn (Z.to_nat N) oN = firstn (Z.to_nat N) o0 ->
    firstn (Z.to_nat N)
      (search_entries regexes match_keys match_values path_fmt color N recN tokens m oN)
    = firstn (Z.to_nat N)
        (search_entries regexes match_keys match_values path_fmt color 0 rec0 tokens m o0).
Proof.
  induction 1 as [|[k v] m Hv Hm IH]; intros oN o0 E; [exact E|].
  cbn [snd] in Hv. destruct Hv as (Hag & HaN & Ha0).
  assert (HmN : Forall (fun kv => appends recN (snd kv)) m)
    by (eapply Forall_impl; [|exact Hm]; cbn; tauto).
  assert (Hm0 : Forall (fun kv => appends rec0 (snd kv)) ((k, v) :: m)).
  { constructor; [exact Ha0|]. eapply Forall_impl; [|exact Hm]; cbn; tauto. }
  destruct (Nat.lt_ge_cases (List.length oN) (Z.to_nat N)) as [Hlt|Hge].
  2:{ assert (Hge0 : Z.to_nat N <= List.length o0).
      { assert (Hl : List.length (firstn (Z.to_nat N) oN)
                     = List.length (firstn (Z.to_nat N) o0)) by now rewrite E.
        rewrite !length_firstn in Hl. lia. }
      assert (HNall : Forall (fun kv => appends recN (snd kv)) ((k, v) :: m))
        by (constructor; assumption).
      destruct (search_entries_appends regexes match_keys match_values path_fmt color N
                  recN ((k, v) :: m) HNall tokens oN) as [a ->].
      destruct (search_entries_appends regexes match_keys match_values path_fmt color 0
                  rec0 ((k, v) :: m) Hm0 tokens o0) as [b ->].
      now rewrite !firstn_app_long. }
  rewrite (firstn_same_short _ oN o0 E Hlt). clear E o0.
  cbn [search_entries].
  destruct (try_key_cap tokens k oN) as (E0 & Hr1 & _). cbv zeta in E0, Hr1.
  rewrite E0.
  destruct (try_key regexes match_keys path_fmt color N tokens k oN) as [o1 r1].
  cbn [fst snd] in *.
  destruct (try_value_cap (tokens ++ [TKey k])%list v o1) as (E1 & Hr2 & _).
  cbv zeta in E1, Hr2. rewrite E1.
  destruct (try_value regexes match_values path_fmt color N (tokens ++ [TKey k])%list v o1)
    as [o2 r2]. cbn [fst snd] in *.
  assert (Htail : forall o, exists b,
             search_entries regexes match_keys match_values path_fmt color 0 rec0 tokens m o
             = (o ++ b)%list).
  { intros o. apply search_entries_appends. eapply Forall_impl; [|exact Hm]; cbn; tauto. }
  destruct r1.
  - destruct (try_value_appends regexes match_values path_fmt color 0
                (tokens ++ [TKey k])%list v o1) as [a2 E2]. rewrite E1 in E2.
    cbn [fst] in E2.
    destruct (descend_appends rec0 (tokens ++ [TKey k])%list v o2 Ha0) as [a3 E3].
    destruct (Htail (descend rec0 (tokens ++ [TKey k])%list v o2)) as [a4 E4].
    rewrite E4, E3, E2, <- !app_assoc. symmetry. apply firstn_app_long. now apply Hr1.
  - destruct r2.
    + destruct (descend_appends rec0 (tokens ++ [TKey k])%list v o2 Ha0) as [a3 E3].
      destruct (Htail (descend rec0 (tokens ++ [TKey k])%list v o2)) as [a4 E4].
      rewrite E4, E3, <- !app_assoc. symmetry. apply firstn_app_long. now apply Hr2.
    + apply IH. unfold descend. destruct (is_container v); [now apply Hag | reflexivity].
Qed.

Lemma search_items_first_n recN rec0 (l : list tree) (tokens : list token) :
  Forall (fun v => agree_on (Z.to_nat N) recN rec0 v
                   /\ appends recN v /\ appends rec0 v) l ->
  forall idx oN o0,
    firstn (Z.to_nat N) oN = firstn (Z.to_nat N) o0 ->
    firstn (Z.to_nat N)
      (search_items regexes match_values path_fmt color N recN tokens idx l oN)
    = firstn (Z.to_nat N)
        (search_items regexes match_values path_fmt color 0 rec0 tokens idx l o0).
Proof.
  induction 1 as [|v l Hv Hl IH]; intros idx oN o0 E; [exact E|].
  destruct Hv as (Hag & HaN & Ha0).
  assert (HlN : Forall (appends recN) (v :: l)).
  { constructor; [exact HaN|]. eapply Forall_impl; [|exact Hl]; cbn; tauto. }
  assert (Hl0 : Forall (appends rec0) (v :: l)).
  { constructor; [exact Ha0|]. eapply Forall_impl; [|exact Hl]; cbn; tauto. }
  destruct (Nat.lt_ge_cases (List.length oN) (Z.to_nat N)) as [Hlt|Hge].
  2:{ assert (Hge0 : Z.to_nat N <= List.length o0).
      { assert (Hlen : List.length (firstn (Z.to_nat N) oN)
                       = List.length (firstn (Z.to_nat N) o0)) by now rewrite E.
        rewrite !length_firstn in Hlen. lia. }
      destruct (search_items_appends regexes match_values path_fmt color N
                  recN (v :: l) HlN tokens idx oN) as [a ->].
      destruct (search_items_appends regexes match_values path_fmt color 0
                  rec0 (v :: l) Hl0 tokens idx o0) as [b ->].
      now rewrite !firstn_app_long. }
  rewrite (firstn_same_short _ oN o0 E Hlt). clear E o0.
  cbn [search_items].
  destruct (try_value_cap (tokens ++ [TIdx idx])%list v oN) as (E1 & Hr1 & _).
  cbv zeta in E1, Hr1. rewrite E1.
  destruct (try_value regexes match_values path_fmt color N (tokens ++ [TIdx idx])%list v oN)
    as [o1 r1]. cbn [fst snd] in *.
  destruct r1.
  - destruct (descend_appends rec0 (tokens ++ [TIdx idx])%list v o1 Ha0) as [a3 E3].
    assert (Htail : Forall (appends rec0) l) by now apply Forall_inv_tail in Hl0.
    destruct (search_items_appends regexes match_values path_fmt color 0 rec0 l Htail
                tokens (S idx) (descend rec0 (tokens ++ [TIdx idx])%list v o1)) as [a4 E4].
    rewrite E4, E3, <- !app_assoc. symmetry. apply firstn_app_long. now apply Hr1.
  - apply IH. unfold descend. destruct (is_container v); [now apply Hag | reflexivity].
Qed.

Lemma search_first_n (obj : tree) :
  forall tokens out,
    firstn (Z.to_nat N)
      (search regexes match_keys match_values path_fmt color N obj tokens out)
    = firstn (Z.to_nat N)
        (search regexes match_keys match_values path_fmt color 0 obj tokens out).
Proof.
  induction obj as [x|l IH|m IH] using tree_induction; intros tokens out.
  - cbn [search]. rewrite capped_zero. destruct (capped N out) eqn:Ec; [|reflexivity].
    apply capped_long in Ec.
    destruct (match_values && any_search regexes (stringify x)); [|reflexivity].
    symmetry. now apply firstn_app_long.
  - cbn [search]. rewrite capped_zero. destruct (capped N out) eqn:Ec.
    + apply capped_long in Ec.
      destruct (search_items_appends regexes match_values path_fmt color 0
                  (search regexes match_keys match_values path_fmt color 0) l
                  ltac:(apply Forall_forall; intros ? _; apply search_appends)
                  tokens 0 out) as [a ->].
      symmetry. now apply firstn_app_long.
    + apply search_items_first_n; [|reflexivity].
      eapply Forall_impl; [|exact IH]. intros v Hv. cbn beta.
      split; [|split]; try apply search_appends.
      apply agree_from_same; try apply search_appends. exact Hv.
  - cbn [search]. rewrite capped_zero. destruct (capped N out) eqn:Ec.
    + apply capped_long in Ec.
      destruct (search_entries_appends regexes match_keys match_values path_fmt color 0
                  (search regexes match_keys match_values path_fmt color 0) m
                  ltac:(apply Forall_forall; intros ? _; apply search_appends)
                  tokens out) as [a ->].
      symmetry. now apply firstn_app_long.
    + apply search_entries_first_n; [|reflexivity].
      eapply Forall_impl; [|exact IH]. intros [k v] Hv. cbn [snd] in *.
      split; [|split]; try apply search_appends.
      apply agree_from_same; try apply search_appends. exact Hv.
Qed.

End Cap.

Section CapFlat.

Variable regexes : list pattern.
Variables match_keys match_values : bool.
Variable path_fmt : string.
Variable color : bool.
Variable N : Z.
Hypothesis Npos : (0 < N)%Z.

Lemma descend_scalar rec (tokens : list token) (v : tree) (out : list string) :
  is_scalar v = true -> descend rec tokens v out = out.
Proof. destruct v; [reflexivity | discriminate..]. Qed.

Lemma search_entries_flat_length rec (m : list (key * tree)) (tokens : list token) :
  forallb (fun kv => is_scalar (snd kv)) m = true ->
  forall out,
    List.length out < Z.to_nat N ->
    List.length (search_entries regexes match_keys match_values path_fmt color N
                   rec tokens m out) <= Z.to_nat N.
Proof.
  induction m as [|[k v] m IH]; intros Hflat out Hlen; [cbn; lia|].
  cbn [forallb snd] in Hflat. apply andb_true_iff in Hflat. destruct Hflat as [Hv Hm].
  cbn [search_entries].
  destruct (try_key_cap regexes match_keys path_fmt color N Npos tokens k out)
    as (_ & _ & Hk). cbv zeta in Hk.
  destruct (try_key_appends regexes match_keys path_fmt color N tokens k out) as [a1 E1].
  assert (Hk1 : List.length
                  (fst (try_key regexes match_keys path_fmt color N tokens k out))
                <= Z.to_nat N).
  { unfold try_key. destruct (match_keys && any_search regexes (key_text k)); cbn [fst];
      [rewrite length_app; cbn; lia | lia]. }
  destruct (try_key regexes match_keys path_fmt color N tokens k out) as [o1 r1].
  cbn [fst snd] in *. destruct r1; [exact Hk1|].
  specialize (Hk eq_refl Hlen).
  destruct (try_value_cap regexes match_values path_fmt color N Npos
              (tokens ++ [TKey k])%list v o1) as (_ & _ & Hval). cbv zeta in Hval.
  assert (Hv1 : List.length
                  (fst (try_value regexes match_values path_fmt color N
                          (tokens ++ [TKey k])%list v o1)) <= Z.to_nat N).
  { unfold try_value. destruct v as [x|l|m']; cbn [fst]; try lia.
    destruct (match_values && any_search regexes (stringify x)); cbn [fst];
      [rewrite length_app; cbn; lia | lia]. }
  destruct (try_value regexes match_values path_fmt color N (tokens ++ [TKey k])%list v o1)
    as [o2 r2]. cbn [fst snd] in *. destruct r2; [exact Hv1|].
  rewrite (descend_scalar rec _ v o2 Hv). apply (IH Hm). now apply Hval.
Qed.

Lemma search_items_flat_length rec (l : list tree) (tokens : list token) :
  forallb is_scalar l = true ->
  forall idx out,
    List.length out < Z.to_nat N ->
    List.length (search_items regexes match_values path_fmt color N rec tokens idx l out)
    <= Z.to_nat N.
Proof.
  induction l as [|v l IH]; intros Hflat idx out Hlen; [cbn; lia|].
  cbn [forallb] in Hflat. apply andb_true_iff in Hflat. destruct Hflat as [Hv Hl].
  cbn [search_items].
  destruct (try_value_cap regexes match_values path_fmt color N Npos
              (tokens ++ [TIdx idx])%list v out) as (_ & _ & Hval). cbv zeta in Hval.
  assert (Hv1 : List.length
                  (fst (try_value regexes match_values path_fmt color N
                          (tokens ++ [TIdx idx])%list v out)) <= Z.to_nat N).
  { unfold try_value. destruct v as [x|l'|m']; cbn [fst]; try lia.
    destruct (match_values && any_search regexes (stringify x)); cbn [fst];
      [rewrite length_app; cbn; lia | lia]. }
  destruct (try_value regexes match_values path_fmt color N (tokens ++ [TIdx idx])%list v out)
    as [o1 r1]. cbn [fst snd] in *. destruct r1; [exact Hv1|].
  rewrite (descend_scalar rec _ v o1 Hv). apply (IH Hl). now apply Hval.
Qed.

Lemma report_flat_length (data : tree) :
  flat data = true ->
  List.length (report regexes match_keys match_values path_fmt color N data)
  <= Z.to_nat N.
Proof.
  intros Hflat. unfold report.
  assert (Hc : capped N [] = false).
  { destruct (capped N []) eqn:E; [|reflexivity].
    apply (capped_long N Npos) in E. cbn in E. lia. }
  destruct data as [x|l|m]; cbn [search]; rewrite Hc.
  - destruct (match_values && any_search regexes (stringify x)); cbn; lia.
  - apply search_items_flat_length; [exact Hflat | cbn; lia].
  - apply search_entries_flat_length; [exact Hflat | cbn; lia].
Qed.

End CapFlat.

(** X5. With a cap [N > 0], the first [N] records of the report are the
    first [N] records of the unlimited report: up to the cap, the capped
    search goes through the document as the unlimited one does. *)
Theorem capped_report_first_records (regexes : list pattern)
    (match_keys match_values : bool) (path_fmt : string) (color : bool)
    (N : Z) (data : tree) :
  (0 < N)%Z ->
  firstn (Z.to_nat N) (report regexes match_keys match_values path_fmt color N data)
  = firstn (Z.to_nat N) (report regexes match_keys match_values path_fmt color 0 data).
Proof. intros HN. unfold report. now apply search_first_n. Qed.

Lemma capped_report_first_records_witness :
  let doc := Mapping [(KStr "x", Mapping [(KStr "a", Scalar (SInt 1));
                                    (KStr "b", Mapping [(KStr "a", Scalar (SInt 1))])]);
                      (KStr "a2", Scalar (SInt 2))] in
  firstn 2 (report [literal "a"] true true "pointer" false 2 doc)
  = firstn 2 (report [literal "a"] true true "pointer" false 0 doc).
Proof.
  intros doc.
  apply (capped_report_first_records [literal "a"] true true "pointer" false 2 doc).
  reflexivity.
Defined.

(** X6. A report that stays below its cap is the unlimited report: the cap
    changes nothing unless it is reached. *)
Theorem report_below_cap_is_unlimited (regexes : list pattern)
    (match_keys match_values : bool) (path_fmt : string) (color : bool)
    (N : Z) (data : tree) :
  (Z.of_nat (List.length
     (report regexes match_keys match_values path_fmt color N data)) < N)%Z ->
  report regexes match_keys match_values path_fmt color N data
  = report regexes match_keys match_values path_fmt color 0 data.
Proof.
  intros Hlen. assert (HN : (0 < N)%Z) by lia.
  pose proof (search_first_n regexes match_keys match_values path_fmt color N HN
                data [] []) as E.
  fold (report regexes match_keys match_values path_fmt color N data) in E.
  fold (report regexes match_keys match_values path_fmt color 0 data) in E.
  assert (Hlt : List.length (report regexes match_keys match_values path_fmt color N data)
                < Z.to_nat N) by lia.
  symmetry. exact (firstn_same_short _ _ _ E Hlt).
Qed.

Lemma report_below_cap_is_unlimited_witness :
  let doc := Mapping [(KStr "x", Mapping [(KStr "a", Scalar (SInt 1))]); (KStr "a2", Scalar (SInt 2))] in
  report [literal "a"] true true "pointer" false 5 doc
  = report [literal "a"] true true "pointer" false 0 doc.
Proof.
  intros doc.
  apply (report_below_cap_is_unlimited [literal "a"] true true "pointer" false 5 doc).
  reflexivity.
Defined.

(** X7. On a document whose children are all scalars (a mapping or a
    sequence of scalars, or one scalar), the cap is exact: with [N > 0] the
    report is the first [N] records of the unlimited report. *)
Theorem flat_report_is_capped_exactly (regexes : list pattern)
    (match_keys match_values : bool) (path_fmt : string) (color : bool)
    (N : Z) (data : tree) :
  (0 < N)%Z -> flat data = true ->
  report regexes match_keys match_values path_fmt color N data
  = firstn (Z.to_nat N) (report regexes match_keys match_values path_fmt color 0 data)
  /\ List.length (report regexes match_keys match_values path_fmt color N data)
     <= Z.to_nat N.
Proof.
  intros HN Hflat.
  pose proof (report_flat_length regexes match_keys match_values path_fmt color N HN
                data Hflat) as Hlen.
  split; [|exact Hlen].
  pose proof (search_first_n regexes match_keys match_values path_fmt color N HN
                data [] []) as E.
  fold (report regexes match_keys match_values path_fmt color N data) in E.
  fold (report regexes match_keys match_values path_fmt color 0 data) in E.
  rewrite <- E. symmetry. apply firstn_all2. exact Hlen.
Qed.

Lemma flat_report_is_capped_exactly_witness :
  let doc := Mapping [(KStr "a", Scalar (SStr "a")); (KStr "ab", Scalar (SInt 2));
                      (KStr "ca", Scalar SNone)] in
  report [literal "a"] true true "pointer" false 2 doc
  = firstn 2 (report [literal "a"] true true "pointer" false 0 doc).
Proof.
  intros doc.
  apply (flat_report_is_capped_exactly [literal "a"] true true "pointer" false 2 doc);
    reflexivity.
Defined.

(** ** The order of the patterns does not matter *)

Ltac range_bools :=
  unfold range_le, range_leb in *;
  repeat match goal with
         | p : (nat * nat)%type |- _ => destruct p
         end;
  cbn [fst snd] in *;
  repeat match goal with
         | H : _ || _ = true |- _ => apply orb_true_iff in H
         | H : _ && _ = true |- _ => apply andb_true_iff in H
         | H : _ || _ = false |- _ => apply orb_false_iff in H
         | H : _ && _ = false |- _ => apply andb_false_iff in H
         | H : _ /\ _ |- _ => destruct H
         | H : _ \/ _ |- _ => destruct H
         | H : (_ <? _)%nat = true |- _ => apply Nat.ltb_lt in H
         | H : (_ <? _)%nat = false |- _ => apply Nat.ltb_ge in H
         | H : (_ =? _)%nat = true |- _ => apply Nat.eqb_eq in H
         | H : (_ =? _)%nat = false |- _ => apply Nat.eqb_neq in H
         | H : (_ <=? _)%nat = true |- _ => apply Nat.leb_le in H
         | H : (_ <=? _)%nat = false |- _ => apply Nat.leb_gt in H
         end.

Lemma range_le_total (x y : nat * nat) : range_leb x y = false -> range_le y x.
Proof.
  intros H. range_bools; apply orb_true_iff;
    rewrite andb_true_iff, Nat.ltb_lt, Nat.eqb_eq, Nat.leb_le; lia.
Qed.

Lemma range_le_trans (x y z : nat * nat) : range_le x y -> range_le y z -> range_le x z.
Proof.
  intros H1 H2. range_bools; apply orb_true_iff;
    rewrite andb_true_iff, Nat.ltb_lt, Nat.eqb_eq, Nat.leb_le; lia.
Qed.

Lemma range_le_antisym (x y : nat * nat) : range_le x y -> range_le y x -> x = y.
Proof. intros H1 H2. range_bools; f_equal; lia. Qed.

Lemma insert_range_lex (x : nat * nat) (l : list (nat * nat)) :
  StronglySorted range_le l -> StronglySorted range_le (insert_range x l).
Proof.
  induction l as [|y l IH]; intros Hs; cbn [insert_range].
  - repeat constructor.
  - apply StronglySorted_inv in Hs. destruct Hs as [Hl Hy].
    destruct (range_leb x y) eqn:Hxy.
    + constructor; [now constructor|]. constructor; [exact Hxy|].
      eapply Forall_impl; [|exact Hy]. intros z Hz. now apply (range_le_trans x y z).
    + apply range_le_total in Hxy. constructor; [now apply IH|].
      rewrite <- insert_range_perm. now constructor.
Qed.

Lemma sort_ranges_lex (l : list (nat * nat)) : StronglySorted range_le (sort_ranges l).
Proof.
  induction l as [|x l IH]; cbn [sort_ranges]; [constructor | now apply insert_range_lex].
Qed.

Lemma sorted_perm_unique (l l' : list (nat * nat)) :
  StronglySorted range_le l -> StronglySorted range_le l' ->
  Permutation l l' -> l = l'.
Proof.
  revert l'. induction l as [|x l IH]; intros l' Hs Hs' Hp.
  - now apply Permutation_nil in Hp.
  - destruct l' as [|y l'].
    { apply Permutation_sym, Permutation_nil in Hp. discriminate. }
    apply StronglySorted_inv in Hs. destruct Hs as [Hl Hx].
    apply StronglySorted_inv in Hs'. destruct Hs' as [Hl' Hy].
    assert (E : x = y).
    { assert (Hxin : In x (y :: l')) by (apply (Permutation_in x Hp); now left).
      assert (Hyin : In y (x :: l))
        by (apply (Permutation_in y (Permutation_sym Hp)); now left).
      destruct Hxin as [->|Hxin]; [reflexivity|].
      destruct Hyin as [->|Hyin]; [reflexivity|].
      apply range_le_antisym.
      - exact (proj1 (Forall_forall _ _) Hx y Hyin).
      - exact (proj1 (Forall_forall _ _) Hy x Hxin). }
    subst y. f_equal. apply IH; trivial. now apply Permutation_cons_inv in Hp.
Qed.

Lemma sort_ranges_perm_eq (l l' : list (nat * nat)) :
  Permutation l l' -> sort_ranges l = sort_ranges l'.
Proof.
  intros Hp. apply sorted_perm_unique; try apply sort_ranges_lex.
  rewrite <- (sort_ranges_perm l), <- (sort_ranges_perm l'). exact Hp.
Qed.

Lemma any_search_perm (regexes regexes' : list pattern) (s : string) :
  Permutation regexes regexes' -> any_search regexes s = any_search regexes' s.
Proof.
  unfold any_search. induction 1 as [|a l l' _ IH|a b l|l l' l'' _ IH1 _ IH2]; cbn [existsb].
  - reflexivity.
  - now rewrite IH.
  - now rewrite !orb_assoc, (orb_comm (rx_search b s)).
  - now rewrite IH1.
Qed.

Lemma collect_ranges_perm (regexes regexes' : list pattern) (s : string) :
  Permutation regexes regexes' ->
  Permutation (collect_ranges regexes s) (collect_ranges regexes' s).
Proof.
  unfold collect_ranges.
  induction 1 as [|a l l' _ IH|a b l|l l' l'' _ IH1 _ IH2]; cbn [flat_map].
  - constructor.
  - now apply Permutation_app_head.
  - rewrite !app_assoc. apply Permutation_app_tail. apply Permutation_app_comm.
  - now rewrite IH1.
Qed.

Lemma colorize_perm (regexes regexes' : list pattern) (s : string) (enabled : bool) :
  Permutation regexes regexes' -> colorize s regexes enabled = colorize s regexes' enabled.
Proof.
  intros Hp. pose proof (collect_ranges_perm regexes regexes' s Hp) as Hc.
  unfold colorize, merged_spans. rewrite (sort_ranges_perm_eq _ _ Hc).
  destruct enabled; cbn [negb]; [|reflexivity].
  destruct (collect_ranges regexes s) as [|r l].
  - apply Permutation_nil in Hc. now rewrite Hc.
  - destruct (collect_ranges regexes' s); [|reflexivity].
    apply Permutation_sym, Permutation_nil in Hc. discriminate.
Qed.

Section Congruence.

Variables regexes regexes' : list pattern.
Hypothesis any_same : forall s, any_search regexes s = any_search regexes' s.
Hypothesis colorize_same' :
  forall s enabled, colorize s regexes enabled = colorize s regexes' enabled.
Variables match_keys match_values : bool.
Variable path_fmt : string.
Variable color : bool.
Variable max_matches : Z.

Lemma try_key_congr (tokens : list token) (k : key) (out : list string) :
  try_key regexes match_keys path_fmt color max_matches tokens k out
  = try_key regexes' match_keys path_fmt color max_matches tokens k out.
Proof. unfold try_key. now rewrite any_same, colorize_same'. Qed.

Lemma try_value_congr (tokens : list token) (v : tree) (out : list string) :
  try_value regexes match_values path_fmt color max_matches tokens v out
  = try_value regexes' match_values path_fmt color max_matches tokens v out.
Proof.
  unfold try_value. destruct v as [x|l|m]; try reflexivity.
  now rewrite any_same, colorize_same'.
Qed.

Lemma search_entries_congr rec rec' (m : list (key * tree)) :
  Forall (fun kv => same_on rec rec' (snd kv)) m ->
  forall tokens out,
    search_entries regexes match_keys match_values path_fmt color max_matches
      rec tokens m out
    = search_entries regexes' match_keys match_values path_fmt color max_matches
        rec' tokens m out.
Proof.
  induction 1 as [|[k v] m Hv _ IH]; intros tokens out; [reflexivity|].
  cbn [search_entries snd] in *. rewrite try_key_congr.
  destruct (try_key regexes' match_keys path_fmt color max_matches tokens k out)
    as [out1 [|]]; [reflexivity|].
  rewrite try_value_congr.
  destruct (try_value regexes' match_values path_fmt color max_matches
              (tokens ++ [TKey k]) v out1) as [out2 [|]]; [reflexivity|].
  now rewrite (descend_same rec rec' _ v out2 Hv), IH.
Qed.

Lemma search_items_congr rec rec' (l : list tree) :
  Forall (same_on rec rec') l ->
  forall tokens idx out,
    search_items regexes match_values path_fmt color max_matches rec tokens idx l out
    = search_items regexes' match_values path_fmt color max_matches rec' tokens idx l out.
Proof.
  induction 1 as [|v l Hv _ IH]; intros tokens idx out; [reflexivity|].
  cbn [search_items]. rewrite try_value_congr.
  destruct (try_value regexes' match_values path_fmt color max_matches
              (tokens ++ [TIdx idx]) v out) as [out1 [|]]; [reflexivity|].
  now rewrite (descend_same rec rec' _ v out1 Hv), IH.
Qed.

Lemma search_congr (obj : tree) :
  same_on (search regexes match_keys match_values path_fmt color max_matches)
          (search regexes' match_keys match_values path_fmt color max_matches) obj.
Proof.
  induction obj as [x|l IH|m IH] using tree_induction; intros tokens out.
  - cbn [search]. now rewrite any_same, colorize_same'.
  - cbn [search]. destruct (capped max_matches out); [reflexivity|].
    now apply search_items_congr.
  - cbn [search]. destruct (capped max_matches out); [reflexivity|].
    now apply search_entries_congr.
Qed.

End Congruence.

(** X8. The order in which the patterns are given changes neither the
    highlighting of a text nor the report of a search: a key or value
    matches when any pattern matches, and the spans of all patterns are
    sorted before they are merged. *)
Theorem pattern_order_is_irrelevant (regexes regexes' : list pattern) :
  Permutation regexes regexes' ->
  (forall s enabled, colorize s regexes enabled = colorize s regexes' enabled)
  /\ (forall match_keys match_values path_fmt color max_matches data,
        report regexes match_keys match_values path_fmt color max_matches data
        = report regexes' match_keys match_values path_fmt color max_matches data).
Proof.
  intros Hp. split.
  - intros s enabled. now apply colorize_perm.
  - intros mk mv fmt color cap data. unfold report. apply search_congr.
    + intros s. now apply any_search_perm.
    + intros s enabled. now apply colorize_perm.
Qed.

Lemma pattern_order_is_irrelevant_witness :
  colorize "aaa" [literal "a"; literal "aa"] true
  = colorize "aaa" [literal "aa"; literal "a"] true.
Proof.
  apply (proj1 (pattern_order_is_irrelevant [literal "a"; literal "aa"]
                  [literal "aa"; literal "a"] (perm_swap _ _ _))).
Defined.

(** ** More on the resolver *)

Lemma lookup_some (k : string) (v : tree) (m : list (key * tree)) :
  lookup k m = Some v -> In (KStr k, v) m.
Proof.
  induction m as [|[k' v'] m IH]; cbn [lookup]; [discriminate|].
  destruct (key_eqb (KStr k) k') eqn:E.
  - apply key_eqb_str in E. subst k'. intros [= ->]. now left.
  - intros H. right. now apply IH.
Qed.

Lemma path_so_far_ext (tokens more : list string) (depth : nat) :
  depth - 1 <= List.length tokens ->
  path_so_far (tokens ++ more)%list depth = path_so_far tokens depth.
Proof.
  intros H. unfold path_so_far. rewrite firstn_app.
  replace (depth - 1 - List.length tokens) with 0 by lia.
  cbn [firstn]. now rewrite app_nil_r.
Qed.

Lemma resolve_loop_exit_ext (tokens more : list string) (e : exit_error) :
  forall rest depth cur,
    1 <= depth -> depth - 1 + List.length rest <= List.length tokens ->
    resolve_loop tokens depth cur rest = Exit e ->
    resolve_loop (tokens ++ more)%list depth cur (rest ++ more)%list = Exit e.
Proof.
  induction rest as [|tok rest IH]; intros depth cur Hd Hlen H; [discriminate|].
  cbn [List.length] in Hlen. cbn [app resolve_loop] in *.
  rewrite path_so_far_ext by lia.
  destruct cur as [x|l|m]; [exact H| |].
  - destruct (Py.int tok) as [idx|]; [|exact H].
    destruct ((idx <? 0)%Z || (idx >=? Z.of_nat (List.length l))%Z); [exact H|].
    destruct (nth_error l (Z.to_nat idx)); [|exact H].
    apply IH; [lia | lia | exact H].
  - destruct (lookup tok m); [|exact H]. apply IH; [lia | lia | exact H].
Qed.

(** X9. Resolution composes: once a list of tokens resolves to a node,
    resolving it followed by further tokens succeeds exactly when the
    further tokens resolve inside that node, with the same result. *)
Theorem resolve_composes (t : tree) (pre rest : list string) (n r : tree) :
  resolve t pre = Ok n ->
  (resolve t (pre ++ rest)%list = Ok r <-> resolve n rest = Ok r).
Proof.
  intros H. unfold resolve in *. rewrite resolve_loop_app.
  rewrite (resolve_loop_ok_indep _ (pre ++ rest)%list _ _ _ 1 _ H).
  split; intros Hr; eapply resolve_loop_ok_indep; exact Hr.
Qed.

Lemma resolve_composes_witness :
  let doc := Mapping [(KStr "a", Sequence [Scalar SNone; Mapping [(KStr "b", Scalar (SInt 1))]])] in
  resolve doc (["a"; "1"] ++ ["b"])%list = Ok (Scalar (SInt 1)).
Proof.
  intros doc.
  apply (proj2 (resolve_composes doc ["a"; "1"] ["b"]
                  (Mapping [(KStr "b", Scalar (SInt 1))]) (Scalar (SInt 1)) eq_refl)).
  reflexivity.
Defined.

(** X10. A failure is final: when a list of tokens fails to resolve, every
    list that extends it fails with the same error, path and all. *)
Theorem resolve_failure_persists (t : tree) (pre rest : list string) (e : exit_error) :
  resolve t pre = Exit e -> resolve t (pre ++ rest)%list = Exit e.
Proof.
  intros H. unfold resolve in *. apply resolve_loop_exit_ext; [lia | cbn; lia | exact H].
Qed.

Lemma resolve_failure_persists_witness :
  resolve (Mapping [(KStr "a", Scalar (SInt 1))]) (["a"; "x"] ++ ["y"; "z"])%list
  = Exit (CannotDescend "/a" "int").
Proof.
  apply (resolve_failure_persists (Mapping [(KStr "a", Scalar (SInt 1))]) ["a"; "x"] ["y"; "z"]).
  reflexivity.
Defined.

Lemma resolve_loop_sound (tokens : list string) :
  forall rest depth cur n,
    resolve_loop tokens depth cur rest = Ok n ->
    exists p, at_path cur p n /\ Forall2 denotes p rest.
Proof.
  induction rest as [|tok rest IH]; intros depth cur n H.
  - injection H as <-. exists []. split; constructor.
  - cbn [resolve_loop] in H. destruct cur as [x|l|m]; [discriminate| |].
    + destruct (Py.int tok) as [idx|] eqn:Eint; [|discriminate].
      destruct ((idx <? 0)%Z || (idx >=? Z.of_nat (List.length l))%Z) eqn:Eb; [discriminate|].
      destruct (nth_error l (Z.to_nat idx)) as [v|] eqn:Enth; [|discriminate].
      destruct (IH _ _ _ H) as (p & Hp & Hd).
      exists (TIdx (Z.to_nat idx) :: p). split; [now apply at_idx with (v := v)|].
      constructor; [|exact Hd]. cbn [denotes]. rewrite Z2Nat.id; [exact Eint|].
      apply orb_false_iff in Eb. destruct Eb as [Eb _]. now apply Z.ltb_ge in Eb.
    + destruct (lookup tok m) as [v|] eqn:El; [|discriminate].
      destruct (IH _ _ _ H) as (p & Hp & Hd).
      exists (TKey (KStr tok) :: p). split; [|constructor; [reflexivity | exact Hd]].
      apply at_key with (v := v); [now apply lookup_some | exact Hp].
Qed.

(** X11. The resolver only ever returns a node of the document: a
    successful resolution follows a path of the tree, one path token for
    each pointer token, a key being its token and an index the integer its
    token reads as. *)
Theorem resolve_returns_a_node (t : tree) (tokens : list string) (n : tree) :
  resolve t tokens = Ok n ->
  exists p, at_path t p n /\ Forall2 denotes p tokens.
Proof. apply resolve_loop_sound. Qed.

Lemma resolve_returns_a_node_witness :
  exists p,
    at_path (Sequence [Scalar SNone; Mapping [(KStr "b", Scalar (SInt 1))]]) p (Scalar (SInt 1))
    /\ Forall2 denotes p [" 1 "; "b"].
Proof.
  apply (resolve_returns_a_node
           (Sequence [Scalar SNone; Mapping [(KStr "b", Scalar (SInt 1))]]) [" 1 "; "b"]).
  reflexivity.
Defined.

Lemma resolve_loop_exit_where (tokens : list string) (e : exit_error) :
  forall rest depth cur,
    resolve_loop tokens depth cur rest = Exit e ->
    exists pre tok rest' cur',
      rest = (pre ++ tok :: rest')%list
      /\ resolve_loop tokens depth cur pre = Ok cur'
      /\ error_path e = Some (path_so_far tokens (depth + List.length pre))
      /\ resolve_loop tokens (depth + List.length pre) cur' [tok] = Exit e.
Proof.
  induction rest as [|tok rest IH]; intros depth cur H; [discriminate|].
  assert (Hhere : resolve_loop tokens depth cur [tok] = Exit e ->
                  error_path e = Some (path_so_far tokens depth) ->
                  exists pre tok0 rest' cur',
                    tok :: rest = (pre ++ tok0 :: rest')%list
                    /\ resolve_loop tokens depth cur pre = Ok cur'
                    /\ error_path e = Some (path_so_far tokens (depth + List.length pre))
                    /\ resolve_loop tokens (depth + List.length pre) cur' [tok0] = Exit e).
  { intros H1 H2. exists [], tok, rest, cur. cbn [app List.length resolve_loop].
    rewrite Nat.add_0_r. auto. }
  assert (Hdeep : forall v,
             resolve_loop tokens (S depth) v rest = Exit e ->
             resolve_loop tokens depth cur [tok] = Ok v ->
             exists pre tok0 rest' cur',
               tok :: rest = (pre ++ tok0 :: rest')%list
               /\ resolve_loop tokens depth cur pre = Ok cur'
               /\ error_path e = Some (path_so_far tokens (depth + List.length pre))
               /\ resolve_loop tokens (depth + List.length pre) cur' [tok0] = Exit e).
  { intros v Hv Hstep. destruct (IH _ _ Hv) as (pre & tok0 & rest' & cur' & -> & Hpre & He & Hl).
    exists (tok :: pre), tok0, rest', cur'. cbn [List.length].
    replace (depth + S (List.length pre)) with (S depth + List.length pre) by lia.
    repeat split; trivial.
    change (tok :: pre) with ([tok] ++ pre)%list. rewrite resolve_loop_app, Hstep.
    cbn [List.length]. now replace (depth + 1) with (S depth) by lia. }
  cbn [resolve_loop] in H, Hhere, Hdeep. destruct cur as [x|l|m].
  - apply Hhere; [exact H|]. now injection H as <-.
  - destruct (Py.int tok) as [idx|].
    2:{ apply Hhere; [exact H|]. now injection H as <-. }
    destruct ((idx <? 0)%Z || (idx >=? Z.of_nat (List.length l))%Z).
    { apply Hhere; [exact H|]. now injection H as <-. }
    destruct (nth_error l (Z.to_nat idx)) as [v|].
    + now apply (Hdeep v).
    + apply Hhere; [exact H|]. now injection H as <-.
  - destruct (lookup tok m) as [v|].
    + now apply (Hdeep v).
    + apply Hhere; [exact H|]. now injection H as <-.
Qed.

(** X12. Every failure of the resolver names the place where it happened:
    the tokens split into a part that resolves, the token that fails at the
    node reached, and an unread rest; the error carries the pointer of the
    resolved part, and it is the error of that one token at that node. *)
Theorem resolve_failure_names_the_place (t : tree) (tokens : list string)
    (e : exit_error) :
  resolve t tokens = Exit e ->
  exists pre tok rest cur,
    tokens = (pre ++ tok :: rest)%list
    /\ resolve t pre = Ok cur
    /\ error_path e = Some ("/" ++ Py.join "/" pre)
    /\ resolve_loop tokens (1 + List.length pre) cur [tok] = Exit e.
Proof.
  intros H. unfold resolve in *.
  destruct (resolve_loop_exit_where _ _ _ _ _ H) as (pre & tok & rest & cur & E & Hpre & He & Hl).
  exists pre, tok, rest, cur. repeat split; trivial.
  - eapply resolve_loop_ok_indep. exact Hpre.
  - rewrite He. rewrite E at 1. f_equal. apply path_so_far_consumed.
Qed.

Lemma resolve_failure_names_the_place_witness :
  exists pre tok rest cur,
    ["a"; "b"; "x"; "y"] = (pre ++ tok :: rest)%list
    /\ resolve (Mapping [(KStr "a", Mapping [(KStr "b", Scalar (SInt 1))])]) pre = Ok cur
    /\ error_path (CannotDescend "/a/b" "int") = Some ("/" ++ Py.join "/" pre)
    /\ resolve_loop ["a"; "b"; "x"; "y"] (1 + List.length pre) cur [tok]
       = Exit (CannotDescend "/a/b" "int").
Proof.
  apply (resolve_failure_names_the_place
           (Mapping [(KStr "a", Mapping [(KStr "b", Scalar (SInt 1))])]) ["a"; "b"; "x"; "y"]).
  reflexivity.
Defined.

(** ** More on pointers *)

Lemma split_nonempty (sep : ascii) (s : string) : Py.split sep s <> [].
Proof.
  destruct s as [|c s]; cbn [Py.split]; [discriminate|].
  destruct (Ascii.eqb c sep); [discriminate|]. destruct (Py.split sep s); discriminate.
Qed.

Lemma split_app (sep : ascii) (x y : string) :
  Py.split sep (x ++ String sep y) = (Py.split sep x ++ Py.split sep y)%list.
Proof.
  induction x as [|c x IH]; cbn [String.append Py.split].
  - now rewrite Ascii.eqb_refl.
  - destruct (Ascii.eqb c sep); [now rewrite IH|].
    rewrite IH. pose proof (split_nonempty sep x) as Hne.
    destruct (Py.split sep x); [contradiction | reflexivity].
Qed.

Lemma rstrip_char_trailing (ch : ascii) (s : string) :
  Py.rstrip_char ch (s ++ String ch "") = Py.rstrip_char ch s.
Proof.
  induction s as [|c s IH]; cbn [String.append Py.rstrip_char].
  - now rewrite Ascii.eqb_refl.
  - now rewrite IH.
Qed.

Lemma startswith_app (x z : string) :
  Py.startswith x "/" = true -> Py.startswith (x ++ z) "/" = true.
Proof.
  unfold Py.startswith. destruct x as [|c x]; [discriminate|]. cbn [String.append].
  destruct (Ascii.eqb_spec "/" c) as [<-|Hne].
  - now rewrite !prefix_head_eq, !prefix_empty.
  - now rewrite prefix_head_neq.
Qed.

Lemma tail_app (x z : string) :
  Py.startswith x "/" = true -> Py.tail (x ++ z) = Py.tail x ++ z.
Proof. destruct x; [discriminate | reflexivity]. Qed.

(** X13. Slashes that delimit nothing are ignored by the parser: after a
    pointer that starts with [/], a trailing slash changes nothing, and two
    slashes in a row count as one.  The show command ignores a trailing
    slash on every path. *)
Theorem redundant_slashes_are_ignored (x y : string) :
  (Py.startswith x "/" = true ->
     parse_pointer (x ++ "/") = parse_pointer x
     /\ parse_pointer (x ++ "//" ++ y) = parse_pointer (x ++ "/" ++ y))
  /\ (forall data : tree, show (x ++ "/") data = show x data).
Proof.
  split.
  - intros Hx.
    rewrite !parse_pointer_slash by (trivial; now apply startswith_app).
    rewrite !tail_app by exact Hx.
    change ("//" ++ y) with (String "/" (String "/" y)).
    change ("/" ++ y) with (String "/" y). change "/" with (String "/" "").
    rewrite !split_app. cbn [Py.split]. rewrite Ascii.eqb_refl.
    rewrite !filter_app. cbn [filter nonempty]. rewrite app_nil_r. split; reflexivity.
  - intros data. unfold show. change "/" with (String "/" "") at 1.
    now rewrite rstrip_char_trailing.
Qed.

Lemma redundant_slashes_are_ignored_witness :
  parse_pointer ("/a" ++ "/") = parse_pointer "/a"
  /\ parse_pointer ("/a" ++ "//" ++ "b") = parse_pointer ("/a" ++ "/" ++ "b").
Proof.
  apply (proj1 (redundant_slashes_are_ignored "/a" "b")). reflexivity.
Defined.

Lemma str_of_nat_injective (i j : nat) :
  Py.str (Z.of_nat i) = Py.str (Z.of_nat j) -> i = j.
Proof.
  intros E. pose proof (int_str i) as Hi. rewrite E, int_str in Hi.
  injection Hi as Hi. lia.
Qed.

Lemma same_texts_same_path (t : tree) (p : list token) (n : tree) :
  at_path t p n ->
  forall q n',
    at_path t q n' -> wf_tree t = true ->
    forallb addressable p = true -> forallb addressable q = true ->
    map token_text p = map token_text q ->
    p = q /\ n = n'.
Proof.
  induction 1 as [t | m k v p n Hin Hp IH | l i v p n Hnth Hp IH];
    intros q n' Hq Hwf Ha Hb E.
  - destruct q as [|tq q]; [|discriminate]. inversion Hq; subst. now split.
  - inversion Hq as [| m' k2 v2 q2 n2 Hin2 Hq2 |]; subst; [discriminate|].
    cbn [forallb map] in Ha, Hb, E.
    apply andb_true_iff in Ha. destruct Ha as [Hk Ha].
    apply andb_true_iff in Hb. destruct Hb as [Hk2 Hb].
    destruct k as [s|z|b]; try discriminate. destruct k2 as [s2|z2|b2]; try discriminate.
    cbn [token_text] in E. injection E as Es E. subst s2.
    destruct (wf_mapping m Hwf) as [Hd Hv].
    assert (Ev : v2 = v).
    { pose proof (lookup_in s v m Hd Hin) as L1.
      pose proof (lookup_in s v2 m Hd Hin2) as L2. congruence. }
    subst v2.
    destruct (IH q2 n' Hq2 (Hv _ _ Hin) Ha Hb E) as [-> ->]. now split.
  - inversion Hq as [| | l' j v2 q2 n2 Hnth2 Hq2]; subst; [discriminate|].
    cbn [forallb map] in Ha, Hb, E.
    apply andb_true_iff in Ha. destruct Ha as [_ Ha].
    apply andb_true_iff in Hb. destruct Hb as [_ Hb].
    cbn [token_text] in E. injection E as Ei E.
    apply str_of_nat_injective in Ei. subst j.
    assert (Ev : v2 = v) by congruence. subst v2.
    destruct (IH q2 n' Hq2 (wf_sequence l i v Hwf Hnth) Ha Hb E) as [-> ->]. now split.
Qed.

(** X14. Pointers tell the places of a document apart: in a tree where no
    mapping has a key twice, two paths whose mapping keys are non-empty
    strings and that have the same pointer notation are the same path and
    lead to the same node; so two different such paths never share a
    pointer. *)
Theorem same_pointer_same_node (t : tree) (p q : list token) (n n' : tree) :
  wf_tree t = true ->
  at_path t p n -> at_path t q n' ->
  forallb addressable p = true -> forallb addressable q = true ->
  (to_path_pointer p = to_path_pointer q -> p = q /\ n = n')
  /\ (p <> q -> to_path_pointer p <> to_path_pointer q).
Proof.
  intros Hwf Hp Hq Hep Heq.
  assert (Hsame : to_path_pointer p = to_path_pointer q -> p = q /\ n = n').
  { intros E.
    pose proof (parse_to_path_pointer p Hep) as Pp.
    pose proof (parse_to_path_pointer q Heq) as Pq.
    rewrite E, Pq in Pp. injection Pp as Etext.
    apply (same_texts_same_path t p n Hp q n' Hq Hwf Hep Heq). now symmetry. }
  split; [exact Hsame|]. intros Hne E. apply Hne. now apply Hsame.
Qed.

Lemma same_pointer_same_node_witness :
  let t := Mapping [(KStr "1", Sequence [Scalar SNone; Scalar (SStr "x")]);
                    (KStr "1/1", Scalar SNone)] in
  to_path_pointer [TKey (KStr "1"); TIdx 1] <> to_path_pointer [TKey (KStr "1/1")].
Proof.
  intros t.
  apply (proj2 (same_pointer_same_node t [TKey (KStr "1"); TIdx 1] [TKey (KStr "1/1")]
                  (Scalar (SStr "x")) (Scalar SNone) eq_refl
                  ltac:(eapply at_key; [left; reflexivity|];
                        eapply at_idx; [reflexivity | apply at_root])
                  ltac:(eapply at_key; [right; left; reflexivity | apply at_root])
                  eq_refl eq_refl)).
  discriminate.
Defined.

(** Without the restriction to string keys the pointers do collide: the
    YAML document with the two entries [1: a] and ["1": b] has no key
    twice, and both values are printed under [/1]. *)
Lemma int_and_str_key_share_pointer :
  let t := Mapping [(KInt 1, Scalar (SStr "a")); (KStr "1", Scalar (SStr "b"))] in
  wf_tree t = true
  /\ at_path t [TKey (KInt 1)] (Scalar (SStr "a"))
  /\ at_path t [TKey (KStr "1")] (Scalar (SStr "b"))
  /\ to_path_pointer [TKey (KInt 1)] = "/1"
  /\ to_path_pointer [TKey (KStr "1")] = "/1".
Proof.
  cbv zeta. split; [reflexivity|]. split.
  { eapply at_key; [left; reflexivity | apply at_root]. }
  split.
  { eapply at_key; [right; left; reflexivity | apply at_root]. }
  split; reflexivity.
Qed.

Lemma join_snoc (parts : list string) (x : string) :
  parts <> [] -> Py.join "/" (parts ++ [x])%list = Py.join "/" parts ++ "/" ++ x.
Proof.
  induction parts as [|y parts IH]; [congruence|]. intros _.
  destruct parts as [|z parts]; [reflexivity|].
  change (((y :: z :: parts) ++ [x])%list) with (y :: ((z :: parts) ++ [x]))%list.
  change ((z :: parts) ++ [x])%list with (z :: (parts ++ [x]))%list.
  rewrite join_cons2.
  change (z :: (parts ++ [x]))%list with ((z :: parts) ++ [x])%list.
  rewrite IH by discriminate. rewrite join_cons2.
  change (String "/" (Py.join "/" (z :: parts) ++ "/" ++ x))
    with ("/" ++ (Py.join "/" (z :: parts) ++ "/" ++ x)).
  change (String "/" (Py.join "/" (z :: parts))) with ("/" ++ Py.join "/" (z :: parts)).
  now rewrite !append_assoc.
Qed.

Lemma to_path_dot_from_parts (tokens : list token) :
  forall out, to_path_dot_from out tokens = out ++ concat_parts (map dot_part tokens).
Proof.
  induction tokens as [|t tokens IH]; intros out; cbn [to_path_dot_from map concat_parts].
  - now rewrite append_nil_r.
  - destruct t as [[k|z|b]|i]; cbn [dot_part]; [destruct (is_identifier k)| | |];
      rewrite IH, !append_assoc; reflexivity.
Qed.

Lemma concat_parts_app (a b : list string) :
  concat_parts (a ++ b)%list = concat_parts a ++ concat_parts b.
Proof.
  induction a as [|x a IH]; [reflexivity|]. cbn [app concat_parts].
  now rewrite IH, append_assoc.
Qed.

(** X15. The path of a child is the path of its parent and one more
    segment, in both notations: in dot notation the segment of the token
    is appended; in pointer notation a slash and the escaped token are
    appended (to the root pointer [/], the escaped token alone). *)
Theorem child_path_extends_parent (tokens : list token) (t : token) :
  to_path_dot (tokens ++ [t])%list = to_path_dot tokens ++ dot_part t
  /\ to_path_dot tokens = "root" ++ concat_parts (map dot_part tokens)
  /\ to_path_pointer [t] = "/" ++ pointer_part t
  /\ (tokens <> [] ->
      to_path_pointer (tokens ++ [t])%list = to_path_pointer tokens ++ "/" ++ pointer_part t).
Proof.
  split; [|split; [|split]].
  - unfold to_path_dot. rewrite !to_path_dot_from_parts, map_app, concat_parts_app.
    cbn [map concat_parts]. now rewrite append_nil_r, append_assoc.
  - apply to_path_dot_from_parts.
  - reflexivity.
  - intros Hne. unfold to_path_pointer. rewrite map_app. cbn [map].
    rewrite join_snoc by (destruct tokens; [congruence | discriminate]).
    now rewrite !append_assoc.
Qed.

Lemma child_path_extends_parent_witness :
  to_path_pointer ([TKey (KStr "a/b"); TIdx 3] ++ [TKey (KStr "c")])%list
  = to_path_pointer [TKey (KStr "a/b"); TIdx 3] ++ "/" ++ pointer_part (TKey (KStr "c")).
Proof.
  apply (proj2 (proj2 (proj2 (child_path_extends_parent [TKey (KStr "a/b"); TIdx 3] (TKey (KStr "c")))))).
  discriminate.
Defined.

(** ** The command line of the search tool *)

Lemma index_of_some (x : string) (rest : list string) (i : nat) :
  index_of x rest = Some i ->
  nth_error rest i = Some x /\ i < List.length rest.
Proof.
  revert i. induction rest as [|y rest IH]; intros i; cbn [index_of]; [discriminate|].
  destruct (String.eqb_spec y x) as [->|Hne].
  - intros [= <-]. cbn. split; [reflexivity | lia].
  - destruct (index_of x rest) as [j|]; [|discriminate]. intros [= <-].
    destruct (IH j eq_refl) as (Hn & Hl). cbn. split; [exact Hn | lia].
Qed.

Lemma index_of_none (x : string) (rest : list string) :
  index_of x rest = None <-> ~ In x rest.
Proof.
  induction rest as [|y rest IH]; cbn [index_of In]; [tauto|].
  destruct (String.eqb_spec y x) as [->|Hne].
  - split; [discriminate | intros H; exfalso; apply H; now left].
  - destruct (index_of x rest); cbn [option_map].
    + split; [discriminate|]. intros H. exfalso. apply H. right.
      destruct IH as [_ IH]. destruct (in_dec string_dec x rest) as [Hin|Hnin];
        [exact Hin|]. now specialize (IH Hnin).
    + split; [|reflexivity]. intros _ [E|Hin]; [contradiction|]. now apply IH.
Qed.

Lemma index_of_app (x : string) (pats more : list string) :
  ~ In x pats -> index_of x (pats ++ x :: more)%list = Some (List.length pats).
Proof.
  induction pats as [|y pats IH]; intros Hn; cbn [app index_of List.length].
  - now rewrite String.eqb_refl.
  - destruct (String.eqb_spec y x) as [->|Hne]; [exfalso; apply Hn; now left|].
    rewrite IH; [reflexivity|]. intros Hin. apply Hn. now right.
Qed.

Lemma last_at (rest : list string) (i : nat) (x d : string) :
  nth_error rest i = Some x -> S i = List.length rest -> last rest d = x.
Proof.
  revert i. induction rest as [|y rest IH]; intros i Hn Hl; [destruct i; discriminate|].
  destruct i as [|i]; cbn in Hn, Hl.
  - injection Hn as ->. destruct rest; [reflexivity | discriminate].
  - destruct rest as [|z rest]; [destruct i; discriminate|].
    change (last (y :: z :: rest) d) with (last (z :: rest) d).
    apply (IH i); [exact Hn | cbn in *; lia].
Qed.

(** The branch taken when no separator is given does not look at the
    file system. *)
Lemma no_separator_branch (A : Type) (b : bool) (n : nat) (err ok : A) :
  (if (2 <=? n)%nat && b then ok else if (n =? 1)%nat then err else ok)
  = (if (n =? 1)%nat then err else ok).
Proof.
  destruct (Nat.eqb_spec n 1) as [->|Hne]; [reflexivity|].
  now destruct ((2 <=? n)%nat && b).
Qed.

(** X16. What [split_patterns_and_file] returns does not depend on the
    file system: the test whether the last argument exists as a file
    selects between two branches that give the same result. *)
Theorem split_ignores_the_file_system (fs1 fs2 : string -> bool)
    (rest : list string) (existing_patterns : option (list string)) :
  split_patterns_and_file fs1 rest existing_patterns
  = split_patterns_and_file fs2 rest existing_patterns.
Proof.
  unfold split_patterns_and_file. destruct rest as [|a rest]; [reflexivity|].
  destruct (String.eqb (last (a :: rest) "") "--"); [reflexivity|].
  destruct (index_of "--" (a :: rest)); [reflexivity|].
  now rewrite !no_separator_branch.
Qed.

(** X17. The arguments are accepted exactly when there are at least two of
    them and the last one is not [--]; the exit for a file missing after
    [--] is never taken. *)
Theorem split_accepts (path_exists : string -> bool) (rest : list string)
    (existing_patterns : option (list string)) :
  ((exists r, split_patterns_and_file path_exists rest existing_patterns = inr r)
   <-> 2 <= List.length rest /\ last rest "" <> "--")
  /\ split_patterns_and_file path_exists rest existing_patterns
     <> inl MissingFileAfterSeparator.
Proof.
  unfold split_patterns_and_file. destruct rest as [|a rest].
  { split; [|discriminate]. split; [intros [r H]; discriminate | cbn; lia]. }
  destruct (String.eqb_spec (last (a :: rest) "") "--") as [El|Hl].
  { split; [|discriminate]. split; [intros [r H]; discriminate | tauto]. }
  destruct (index_of "--" (a :: rest)) as [idx|] eqn:Ei.
  - destruct (index_of_some _ _ _ Ei) as (Hn & Hlt).
    assert (Hnext : idx + 1 < List.length (a :: rest)).
    { destruct (Nat.eq_dec (S idx) (List.length (a :: rest))) as [E|Hne]; [|lia].
      exfalso. apply Hl. exact (last_at _ _ _ _ Hn E). }
    rewrite (proj2 (Nat.ltb_lt _ _) Hnext).
    destruct (nth_error (a :: rest) (idx + 1)) as [f|] eqn:Ef.
    2:{ apply nth_error_None in Ef. lia. }
    split; [|discriminate]. split; [intros _|eauto]. split; [lia | exact Hl].
  - rewrite no_separator_branch.
    destruct (Nat.eqb_spec (List.length (a :: rest)) 1) as [E1|Hne].
    + split; [|discriminate]. split; [intros [r H]; discriminate | lia].
    + split; [|discriminate]. split; [intros _|eauto]. split; [cbn in *; lia | exact Hl].
Qed.

Lemma split_of_nonempty (path_exists : string -> bool) (rest : list string)
    (existing : list string) :
  rest <> [] ->
  split_patterns_and_file path_exists rest (Some existing)
  = if String.eqb (last rest "") "--" then inl TrailingSeparator
    else
      match index_of "--" rest with
      | Some idx =>
          match (if (idx + 1 <? List.length rest)%nat then nth_error rest (idx + 1)
                 else None) with
          | None => inl MissingFileAfterSeparator
          | Some f => inr ((existing ++ firstn idx rest)%list, f)
          end
      | None =>
          if (2 <=? List.length rest)%nat
             && (path_exists (last rest "") || String.eqb (last rest "") "-")
          then inr ((existing ++ removelast rest)%list, last rest "")
          else if (List.length rest =? 1)%nat then inl OnlyOneArgument
          else inr ((existing ++ removelast rest)%list, last rest "")
      end.
Proof. destruct rest; [congruence | reflexivity]. Qed.

(** X18. With a separator, the patterns are those of [-e] followed by the
    arguments before the first [--], the file is the argument right after
    it, and whatever follows the file is ignored.  Without a separator, the
    patterns are those of [-e] followed by all arguments but the last, and
    the file is the last. *)
Theorem split_result (path_exists : string -> bool) (pats more : list string)
    (f : string) (existing : list string) :
  ~ In "--" pats ->
  (last (pats ++ "--" :: f :: more)%list "" <> "--" ->
     split_patterns_and_file path_exists (pats ++ "--" :: f :: more)%list (Some existing)
     = inr ((existing ++ pats)%list, f))
  /\ (pats <> [] -> f <> "--" ->
      split_patterns_and_file path_exists (pats ++ [f])%list (Some existing)
      = inr ((existing ++ pats)%list, f)).
Proof.
  intros Hn. split.
  - intros Hl. rewrite split_of_nonempty by (destruct pats; discriminate).
    destruct (String.eqb_spec (last (pats ++ "--" :: f :: more)%list "") "--");
      [contradiction|].
    rewrite (index_of_app "--" pats (f :: more) Hn).
    rewrite length_app. cbn [List.length].
    replace (List.length pats + 1 <? List.length pats + S (S (List.length more)))%nat
      with true by (symmetry; apply Nat.ltb_lt; lia).
    rewrite nth_error_app2 by lia.
    replace (List.length pats + 1 - List.length pats) with 1 by lia. cbn [nth_error].
    rewrite firstn_app, firstn_all, Nat.sub_diag. cbn [firstn]. now rewrite app_nil_r.
  - intros Hne Hf. rewrite split_of_nonempty by (destruct pats; discriminate).
    rewrite last_last.
    destruct (String.eqb_spec f "--"); [contradiction|].
    assert (Hnone : index_of "--" (pats ++ [f])%list = None).
    { apply index_of_none. intros Hin. apply in_app_or in Hin.
      destruct Hin as [Hin|[Hin|[]]]; [contradiction | congruence]. }
    rewrite Hnone, no_separator_branch, removelast_last, length_app. cbn [List.length].
    destruct (Nat.eqb_spec (List.length pats + 1) 1) as [E1|_]; [|reflexivity].
    destruct pats; [congruence | cbn in E1; lia].
Qed.

Lemma split_result_witness :
  split_patterns_and_file (fun _ => false) (["a"; "b"] ++ "--" :: "f" :: ["x"])%list
    (Some ["e"]) = inr ((["e"] ++ ["a"; "b"])%list, "f")
  /\ split_patterns_and_file (fun _ => true) (["a"; "b"] ++ ["f"])%list (Some ["e"])
     = inr ((["e"] ++ ["a"; "b"])%list, "f").
Proof.
  assert (Hn : ~ In "--" ["a"; "b"]).
  { cbn. intros [H|[H|[]]]; discriminate. }
  split.
  - apply (proj1 (split_result (fun _ => false) ["a"; "b"] ["x"] "f" ["e"] Hn)).
    cbn. discriminate.
  - apply (proj2 (split_result (fun _ => true) ["a"; "b"] [] "f" ["e"] Hn));
      discriminate.
Defined.

Lemma report_has_record_iff_hit (regexes : list pattern) (match_keys match_values : bool)
    (path_fmt : string) (color : bool) (N : Z) (data : tree) :
  (0 <= N)%Z ->
  (report regexes match_keys match_values path_fmt color N data <> []
   <-> exists line, hit regexes match_keys match_values path_fmt color data [] line).
Proof.
  intros HN. split.
  - intros Hne.
    destruct (report regexes match_keys match_values path_fmt color N data)
      as [|line r] eqn:E; [congruence|].
    exists line.
    assert (Hin : In line (report regexes match_keys match_values path_fmt color N data))
      by (rewrite E; now left).
    unfold report in Hin. apply search_hit in Hin. now destruct Hin as [[]|Hin].
  - intros [line Hhit].
    pose proof (hit_complete regexes match_keys match_values path_fmt color data [] []
                  line Hhit) as H0.
    destruct (Z.eq_dec N 0) as [->|Hpos].
    { unfold report. intros E. rewrite E in H0. destruct H0. }
    assert (HN' : (0 < N)%Z) by lia.
    pose proof (search_first_n regexes match_keys match_values path_fmt color N HN'
                  data [] []) as E.
    unfold report. intros EN. rewrite EN in E.
    destruct (search regexes match_keys match_values path_fmt color 0 data [] []) as [|x r];
      [destruct H0|].
    destruct (Z.to_nat N) eqn:En; [lia|]. cbn in E. discriminate.
Qed.

(** X19. The exit status of the search tool tells whether anything
    matches: with a cap that is not negative (0 meaning none) the status is
    0 exactly when some key matches (unless values only) or some scalar
    value matches (unless keys only), whatever the cap; with a negative cap
    nothing is printed and the status is 1. *)
Theorem grep_exit_status (regexes : list pattern) (keys_only values_only : bool)
    (path_format : string) (use_color : bool) (max_matches : Z) (data : tree) :
  ((0 <= max_matches)%Z ->
     (snd (grep_main regexes keys_only values_only path_format use_color max_matches data)
      = 0%Z
      <-> exists line,
            hit regexes (negb values_only) (negb keys_only) path_format use_color
              data [] line))
  /\ ((max_matches < 0)%Z ->
      grep_main regexes keys_only values_only path_format use_color max_matches data
      = ([], 1%Z)).
Proof.
  assert (Eflags : grep_main regexes keys_only values_only path_format use_color
                     max_matches data
                   = (report regexes (negb values_only) (negb keys_only) path_format
                        use_color max_matches data,
                      match report regexes (negb values_only) (negb keys_only) path_format
                              use_color max_matches data with
                      | [] => 1%Z
                      | _ :: _ => 0%Z
                      end)).
  { unfold grep_main. destruct keys_only, values_only; reflexivity. }
  rewrite Eflags. cbn [snd]. split.
  - intros HN.
    rewrite <- (report_has_record_iff_hit regexes (negb values_only) (negb keys_only)
                  path_format use_color max_matches data HN).
    destruct (report regexes (negb values_only) (negb keys_only) path_format use_color
                max_matches data); split; intros H; congruence.
  - intros HN.
    assert (E : report regexes (negb values_only) (negb keys_only) path_format use_color
                  max_matches data = []).
    { unfold report.
      assert (Hc : capped max_matches [] = true).
      { unfold capped. apply andb_true_iff. rewrite negb_true_iff, Z.eqb_neq, Z.geb_le.
        cbn. lia. }
      destruct data; cbn [search]; now rewrite Hc. }
    now rewrite E.
Qed.

Lemma grep_exit_status_witness :
  (exists line,
     hit [literal "2"] (negb true) (negb false) "pointer" false
       (Mapping [(KStr "a", Sequence [Scalar (SInt 1); Scalar (SInt 2)])]) [] line)
  /\ grep_main [literal "2"] false true "pointer" false (-1)
       (Mapping [(KStr "a", Sequence [Scalar (SInt 1); Scalar (SInt 2)])]) = ([], 1%Z).
Proof.
  destruct (grep_exit_status [literal "2"] false true "pointer" false 1
              (Mapping [(KStr "a", Sequence [Scalar (SInt 1); Scalar (SInt 2)])])) as [H _].
  destruct (grep_exit_status [literal "2"] false true "pointer" false (-1)
              (Mapping [(KStr "a", Sequence [Scalar (SInt 1); Scalar (SInt 2)])])) as [_ H'].
  split.
  - apply H; [lia | reflexivity].
  - apply H'. lia.
Defined.
